(** * advanced-vector: RawMemory<T> and Vector<T> (src/advanced-vector/vector.h)

    A shallow embedding of the two class templates of vector.h and the
    properties of its specification.

    Conventions of the embedding.
    - The free store is a list of blocks indexed by their address; a block
      is an array of slots, and a slot either holds a live object
      ([Some x]) or is raw, uninitialized storage ([None]).  A released
      block stays in the list as [None], so an address is never handed out
      twice and a second release of the same address is visible.
    - Objects that a method receives by reference ([this], [rhs], [other])
      live in an object store and are named by an identifier, so that two
      references may alias.  Function-local objects are let-bound values
      whose destructor is run where their scope ends.
    - A computation ends in one of three ways: it returns ([Ok]), an
      exception leaves it ([Throw]), or it has no defined behaviour
      ([Undef]: a failed assert, a dangling or out-of-range access, the
      destructor of a slot that holds no object).
    - Which element operations throw is a property of the element type:
      [throws k t] says whether the operation of kind [k] throws when it is
      the [t]-th fallible operation since the start (the machine's clock).
    - A copy of an element has the value of its source; a move hands the
      value over and leaves the source in its [moved_from] state.
    - [size_t] values are natural numbers: a block of 2^63 bytes cannot
      be obtained from operator new, so [size_ * 2], [id + 1] and the
      number of bytes of [other.size_] or [size_ * 2] elements do not wrap
      on a vector that exists.  The number [n] that a caller passes to
      [Reserve], [Resize], [Vector(n)] or [RawMemory(n)] is any [size_t]:
      there the product [n * sizeof(T)] is taken modulo 2^64, as
      [Allocate] computes it. *)

From stdpp Require Import gmap list.

(** ** Pointers *)

(** Addresses of blocks of the free store and names of vector objects. *)
Abbreviation addr := nat.
Abbreviation oid := nat.

(** A [T*]: the block it points into ([None] for a null pointer) and the
    element offset inside that block. *)
Record ptr : Type := Ptr { base : option addr; off : nat }.

Definition nullptr : ptr := Ptr None 0.

Definition ptr_add (p : ptr) (n : nat) : ptr := Ptr (base p) (off p + n).

(** [p - n]; stepping in front of the block is not defined. *)
Definition ptr_sub (p : ptr) (n : nat) : option ptr :=
  if decide (n ≤ off p) then Some (Ptr (base p) (off p - n)) else None.

(** [p - q] as a [size_t]; only defined inside one block and when
    [q] does not lie behind [p]. *)
Definition ptr_diff (p q : ptr) : option nat :=
  if decide (base p = base q) then
    if decide (off q ≤ off p) then Some (off p - off q) else None
  else None.

(** ** The element type *)

(** The fallible operations: operator new and the special member functions
    of [T]; [KArgs] is any other constructor reached through
    [T(std::forward<Args>(args)...)]. *)
Inductive op_kind : Type :=
  | KAlloc | KDefault | KCopy | KMove | KCopyAssign | KMoveAssign | KArgs.

Class Element (T : Type) : Type := {
  (** [sizeof(T)], in bytes *)
  sizeof : positive;
  (** the value of [T()] *)
  default_value : T;
  (** the state in which a move leaves its source *)
  moved_from : T -> T;
  (** [!std::is_copy_constructible_v<T> || std::is_nothrow_move_constructible_v<T>] *)
  nothrow_relocate : bool;
  (** the exception schedule *)
  throws : op_kind -> nat -> bool
}.

(** ** RawMemory and Vector objects *)

Record RawMemory : Type := MkRaw { buffer_ : ptr; capacity_ : nat }.

Record Vector : Type := MkVec { data_ : RawMemory; size_ : nat }.

(** ** Outcomes *)

Inductive result (S A : Type) : Type :=
  | Ok (a : A) (s : S)
  | Throw (s : S)
  | Undef.

Arguments Ok {S A} a s.
Arguments Throw {S A} s.
Arguments Undef {S A}.

(** A block of the free store: its slots, each holding a live object or
    nothing. *)
Abbreviation block T := (list (option T)).

Section Model.

Context {T : Type} `{ET : Element T}.

Record machine : Type := Machine {
  heap : list (option (block T));
  objs : gmap oid Vector;
  clock : nat
}.

Definition M (A : Type) : Type := machine -> result machine A.

Definition ret {A} (a : A) : M A := fun st => Ok a st.

Definition bind {A B} (m : M A) (f : A -> M B) : M B :=
  fun st =>
    match m st with
    | Ok a st' => f a st'
    | Throw st' => Throw st'
    | Undef => Undef
    end.

Definition undef {A} : M A := fun _ => Undef.

Definition rethrow {A} : M A := fun st => Throw st.

(** [try { body } catch (...) { handler }] *)
Definition try_catch {A} (body handler : M A) : M A :=
  fun st =>
    match body st with
    | Throw st' => handler st'
    | r => r
    end.

(** A local object with a destructor: when an exception leaves [body]
    the destructor runs during unwinding and the exception goes on. *)
Definition on_unwind {A} (dtor : M unit) (body : M A) : M A :=
  try_catch body (bind dtor (fun _ => rethrow)).

Definition lift_opt {A} (o : option A) : M A :=
  match o with Some a => ret a | None => undef end.

Definition assert (b : bool) : M unit := if b then ret tt else undef.

End Model.

Declare Scope vec_scope.
Delimit Scope vec_scope with vec.
Notation "x <- m ;; k" := (bind m (fun x => k))
  (at level 100, m at next level, right associativity) : vec_scope.
Notation "m ;;; k" := (bind m (fun _ => k))
  (at level 100, right associativity) : vec_scope.
Open Scope vec_scope.

Section Code.

Context {T : Type} `{ET : Element T}.

Local Abbreviation M := (@M T).
Local Abbreviation machine := (@machine T).

(** [for (size_t i = lo; i < hi; i++) body(i)] *)
Fixpoint for_each (l : list nat) (body : nat -> M unit) : M unit :=
  match l with
  | [] => ret tt
  | i :: l' => body i ;;; for_each l' body
  end.

Definition for_range (lo hi : nat) (body : nat -> M unit) : M unit :=
  for_each (seq lo (hi - lo)) body.

(** *** The free store and the fallible operations *)

(** One fallible operation of kind [k]: it consumes one tick of the
    clock and throws when the schedule says so. *)
Definition tick (k : op_kind) : M unit :=
  fun st =>
    let st' := Machine (heap st) (objs st) (S (clock st)) in
    if throws k (clock st) then Throw st' else Ok tt st'.

(** A fresh block of [n] raw slots, unless the allocation fails. *)
Definition fresh_block (n : nat) : M ptr :=
  tick KAlloc ;;;
  fun st =>
    Ok (Ptr (Some (length (heap st))) 0)
       (Machine (heap st ++ [Some (replicate n None)]) (objs st) (clock st)).

(** [operator new(bytes)]: a block of [bytes] bytes has room for
    [bytes / sizeof(T)] objects. *)
Definition operator_new (bytes : N) : M ptr :=
  fresh_block (N.to_nat (bytes / Npos sizeof)).

(** The values of [size_t] are the numbers below [size_t_range]. *)
Definition size_t_range : N := 2 ^ 64.

(** [n * sizeof(T)], computed in [size_t]. *)
Definition byte_count (n : nat) : N :=
  ((N.of_nat n * Npos sizeof) mod size_t_range)%N.

(** [operator delete(buf)]: nothing for a null pointer; else [buf] must
    be the start of a block that has not been released yet. *)
Definition operator_delete (buf : ptr) : M unit :=
  match base buf with
  | None => ret tt
  | Some a =>
      fun st =>
        match heap st !! a with
        | Some (Some _) =>
            if decide (off buf = 0)
            then Ok tt (Machine (<[a := None]> (heap st)) (objs st) (clock st))
            else Undef
        | _ => Undef
        end
  end.

(** The slots of the block [p] points into. *)
Definition block_at (st : machine) (p : ptr) : option (block T) :=
  a ← base p; mjoin (heap st !! a).

(** Reading through a pointer or reference to a live object. *)
Definition load (p : ptr) : M T :=
  fun st =>
    match block_at st p ≫= (fun b => mjoin (b !! off p)) with
    | Some x => Ok x st
    | None => Undef
    end.

Definition write_slot (p : ptr) (s : option T) : M unit :=
  fun st =>
    match base p with
    | Some a =>
        match block_at st p with
        | Some b =>
            if decide (off p < length b)
            then Ok tt (Machine (<[a := Some (<[off p := s]> b)]> (heap st))
                                (objs st) (clock st))
            else Undef
        | None => Undef
        end
    | None => Undef
    end.

(** The effect of a finished [new (p) T(...)]: slot [p] holds [x]. *)
Definition construct (p : ptr) (x : T) : M unit := write_slot p (Some x).

(** Overwriting the value of the live object at [p]. *)
Definition store (p : ptr) (x : T) : M unit :=
  load p ;;; write_slot p (Some x).

(** *** RawMemory<T> *)

(** [RawMemory() = default] *)
Definition RawMemory_default : RawMemory := MkRaw nullptr 0.

(** [Allocate(n)]: [n != 0 ? operator new(n * sizeof(T)) : nullptr] *)
Definition Allocate (n : nat) : M ptr :=
  if negb (n =? 0) then operator_new (byte_count n) else ret nullptr.

(** [Allocate(n)] where [n] is [other.size_] or [size_ * 2] of a vector
    that exists: by the convention on [size_t] the product
    [n * sizeof(T)] does not wrap there, and operator new is asked for
    the bytes of [n] objects. *)
Definition Allocate_of_size (n : nat) : M ptr :=
  if negb (n =? 0) then operator_new (N.of_nat n * Npos sizeof) else ret nullptr.

(** [Deallocate(buf)] *)
Definition Deallocate (buf : ptr) : M unit := operator_delete buf.

(** [explicit RawMemory(size_t capacity)] *)
Definition RawMemory_ctor (capacity : nat) : M RawMemory :=
  buf <- Allocate capacity ;;
  ret (MkRaw buf capacity).

(** [RawMemory(capacity)] where [capacity] is [other.size_] or
    [size_ * 2] of a vector that exists; it is [RawMemory_ctor capacity]
    whenever [capacity * sizeof(T)] is a value of [size_t]. *)
Definition RawMemory_of_size (capacity : nat) : M RawMemory :=
  buf <- Allocate_of_size capacity ;;
  ret (MkRaw buf capacity).

(** [RawMemory(RawMemory&& other)]: the new object and what is left of
    [other]. *)
Definition RawMemory_move_ctor (other : RawMemory) : RawMemory * RawMemory :=
  (MkRaw (buffer_ other) (capacity_ other), MkRaw nullptr 0).

(** [operator=(RawMemory&& rhs)] on two distinct objects: the new
    [*this] and what is left of [rhs]. *)
Definition RawMemory_move_assign (this rhs : RawMemory) : RawMemory * RawMemory :=
  (MkRaw (buffer_ rhs) (capacity_ rhs), MkRaw nullptr 0).

(** [~RawMemory()] *)
Definition RawMemory_dtor (this : RawMemory) : M unit :=
  Deallocate (buffer_ this).

(** [operator+(size_t offset)] *)
Definition RawMemory_plus (this : RawMemory) (offset : nat) : M ptr :=
  assert (offset <=? capacity_ this) ;;;
  ret (ptr_add (buffer_ this) offset).

(** [operator[](size_t index)]: a reference to the slot *)
Definition RawMemory_index (this : RawMemory) (index : nat) : M ptr :=
  assert (index <? capacity_ this) ;;;
  ret (ptr_add (buffer_ this) index).

(** [Swap(RawMemory& other)] *)
Definition RawMemory_Swap (this other : RawMemory) : RawMemory * RawMemory :=
  (MkRaw (buffer_ other) (capacity_ other),
   MkRaw (buffer_ this) (capacity_ this)).

Definition GetAddress (this : RawMemory) : ptr := buffer_ this.

Definition RawMemory_Capacity (this : RawMemory) : nat := capacity_ this.

(** *** Element operations of Vector<T> *)

(** [CopyConstruct(buf, elem)]: [new (buf) T(elem)] *)
Definition CopyConstruct (buf elem : ptr) : M unit :=
  x <- load elem ;;
  tick KCopy ;;;
  construct buf x.

(** [MoveConstruct(buf, std::move(elem))]: [new (buf) T(std::move(elem))];
    the source stays a live object, in its moved-from state. *)
Definition MoveConstruct (buf elem : ptr) : M unit :=
  x <- load elem ;;
  tick KMove ;;;
  construct buf x ;;;
  store elem (moved_from x).

(** [Destroy(buf)]: [buf->~T()] *)
Definition Destroy (buf : ptr) : M unit :=
  load buf ;;; write_slot buf None.

(** [DestroyN(buf, n)] *)
Definition DestroyN (buf : ptr) (n : nat) : M unit :=
  for_range 0 n (fun i => Destroy (ptr_add buf i)).

(** copy assignment [dst = src] between two slots *)
Definition CopyAssign (dst src : ptr) : M unit :=
  x <- load src ;;
  load dst ;;;
  tick KCopyAssign ;;;
  store dst x.

(** move assignment [dst = std::move(src)] between two slots *)
Definition MoveAssign (dst src : ptr) : M unit :=
  x <- load src ;;
  load dst ;;;
  tick KMoveAssign ;;;
  store dst x ;;;
  store src (moved_from x).

(** move assignment [dst = std::move(obj)] from a local object [obj] *)
Definition MoveAssignLocal (dst : ptr) (obj : T) : M unit :=
  load dst ;;;
  tick KMoveAssign ;;;
  store dst obj.

(** [new (p) T()] *)
Definition ValueConstruct (p : ptr) : M unit :=
  tick KDefault ;;;
  construct p default_value.

(** *** The algorithms of <memory> and <algorithm> the class calls

    They are not part of the repository; they follow the C++17 standard.
    The [uninitialized_*] algorithms destroy what they have constructed
    when an exception leaves them. *)

Fixpoint uninitialized_loop (make : ptr -> nat -> M unit) (d_first : ptr)
    (done n : nat) : M unit :=
  match n with
  | 0 => ret tt
  | S n' =>
      try_catch (make (ptr_add d_first done) done)
                (for_range 0 done (fun i => Destroy (ptr_add d_first i)) ;;;
                 rethrow) ;;;
      uninitialized_loop make d_first (S done) n'
  end.

Definition uninitialized_copy_n (first : ptr) (n : nat) (d_first : ptr) : M unit :=
  uninitialized_loop (fun d i => CopyConstruct d (ptr_add first i)) d_first 0 n.

Definition uninitialized_move_n (first : ptr) (n : nat) (d_first : ptr) : M unit :=
  uninitialized_loop (fun d i => MoveConstruct d (ptr_add first i)) d_first 0 n.

Definition uninitialized_value_construct_n (first : ptr) (n : nat) : M unit :=
  uninitialized_loop (fun d _ => ValueConstruct d) first 0 n.

Definition uninitialized_copy (first last d_first : ptr) : M unit :=
  n <- lift_opt (ptr_diff last first) ;;
  uninitialized_copy_n first n d_first.

Definition uninitialized_value_construct (first last : ptr) : M unit :=
  n <- lift_opt (ptr_diff last first) ;;
  uninitialized_value_construct_n first n.

Definition destroy_n (first : ptr) (n : nat) : M unit :=
  for_range 0 n (fun i => Destroy (ptr_add first i)).

(** [std::move(first, last, d_first)]: front to back, returns the end of
    the destination. *)
Fixpoint move_n (n : nat) (first d_first : ptr) : M ptr :=
  match n with
  | 0 => ret d_first
  | S n' =>
      MoveAssign d_first first ;;;
      move_n n' (ptr_add first 1) (ptr_add d_first 1)
  end.

Definition std_move (first last d_first : ptr) : M ptr :=
  n <- lift_opt (ptr_diff last first) ;;
  move_n n first d_first.

(** [std::move_backward(first, last, d_last)]: back to front,
    each step assigns the element before [last] to the slot before
    [d_last]. *)
Fixpoint move_backward_n (n : nat) (last d_last : ptr) : M ptr :=
  match n with
  | 0 => ret d_last
  | S n' =>
      last' <- lift_opt (ptr_sub last 1) ;;
      d_last' <- lift_opt (ptr_sub d_last 1) ;;
      MoveAssign d_last' last' ;;;
      move_backward_n n' last' d_last'
  end.

Definition move_backward (first last d_last : ptr) : M ptr :=
  n <- lift_opt (ptr_diff last first) ;;
  move_backward_n n last d_last.

(** *** Vector<T> *)

Definition get_vec (this : oid) : M Vector :=
  fun st => match objs st !! this with Some v => Ok v st | None => Undef end.

Definition set_vec (this : oid) (v : Vector) : M unit :=
  fun st => Ok tt (Machine (heap st) (<[this := v]> (objs st)) (clock st)).

(** [size_ = n], [++size_], [--size_] *)
Definition set_size (this : oid) (n : nat) : M unit :=
  v <- get_vec this ;;
  set_vec this (MkVec (data_ v) n).

Definition vbegin (v : Vector) : ptr := GetAddress (data_ v).

Definition vend (v : Vector) : M ptr := RawMemory_plus (data_ v) (size_ v).

(** [Size()], [Capacity()] *)
Definition Size (v : Vector) : nat := size_ v.

Definition Capacity (v : Vector) : nat := RawMemory_Capacity (data_ v).

(** [Vector() = default] *)
Definition Vector_default : Vector := MkVec RawMemory_default 0.

(** [explicit Vector(size_t size)] *)
Definition Vector_ctor (size : nat) : M Vector :=
  data <- RawMemory_ctor size ;;
  on_unwind (RawMemory_dtor data)
    (uninitialized_value_construct_n (GetAddress data) size) ;;;
  ret (MkVec data size).

(** [Vector(const Vector& other)] *)
Definition Vector_copy_ctor (other : oid) : M Vector :=
  o <- get_vec other ;;
  data <- RawMemory_of_size (size_ o) ;;
  on_unwind (RawMemory_dtor data)
    (uninitialized_copy_n (GetAddress (data_ o)) (size_ o) (GetAddress data)) ;;;
  ret (MkVec data (size_ o)).

(** [Vector(Vector&& other)]: the new object; [other] is left empty. *)
Definition Vector_move_ctor (other : oid) : M Vector :=
  o <- get_vec other ;;
  let '(data, odata) := RawMemory_move_ctor (data_ o) in
  set_vec other (MkVec odata 0) ;;;
  ret (MkVec data (size_ o)).

(** [~Vector()] *)
Definition Vector_dtor (v : Vector) : M unit :=
  DestroyN (GetAddress (data_ v)) (size_ v) ;;;
  RawMemory_dtor (data_ v).

(** [Swap(Vector& other)] on two values *)
Definition swap_values (a b : Vector) : Vector * Vector :=
  let '(da, db) := RawMemory_Swap (data_ a) (data_ b) in
  (MkVec da (size_ b), MkVec db (size_ a)).

(** [Swap(Vector& other)] *)
Definition Swap (this other : oid) : M unit :=
  a <- get_vec this ;;
  b <- get_vec other ;;
  let '(a', b') := swap_values a b in
  set_vec this a' ;;;
  set_vec other b'.

(** [operator=(Vector&& rhs)] *)
Definition move_assign (this rhs : oid) : M unit :=
  Swap this rhs.

(** [operator=(const Vector& rhs)] *)
Definition copy_assign (this rhs : oid) : M unit :=
  if decide (this ≠ rhs) then
    v <- get_vec this ;;
    r <- get_vec rhs ;;
    if size_ r <=? capacity_ (data_ v) then
      if size_ r <? size_ v then
        for_range 0 (size_ r) (fun i =>
          d <- RawMemory_index (data_ v) i ;;
          s <- RawMemory_index (data_ r) i ;;
          CopyAssign d s) ;;;
        for_range (size_ r) (size_ v) (fun i =>
          Destroy (ptr_add (GetAddress (data_ v)) i)) ;;;
        set_size this (size_ r)
      else
        for_range 0 (size_ v) (fun i =>
          d <- RawMemory_index (data_ v) i ;;
          s <- RawMemory_index (data_ r) i ;;
          CopyAssign d s) ;;;
        uninitialized_copy (ptr_add (GetAddress (data_ r)) (size_ v))
                           (ptr_add (GetAddress (data_ r)) (size_ r))
                           (ptr_add (GetAddress (data_ v)) (size_ v)) ;;;
        set_size this (size_ r)
    else
      rhs_copy <- Vector_copy_ctor rhs ;;
      let '(v', rhs_copy') := swap_values v rhs_copy in
      set_vec this v' ;;;
      Vector_dtor rhs_copy'
  else ret tt.

(** [Reserve(size_t new_capacity)] *)
Definition Reserve (this : oid) (new_capacity : nat) : M unit :=
  v <- get_vec this ;;
  if new_capacity <=? capacity_ (data_ v) then ret tt
  else
    new_data <- RawMemory_ctor new_capacity ;;
    on_unwind (RawMemory_dtor new_data)
      ((if nothrow_relocate
        then uninitialized_move_n (GetAddress (data_ v)) (size_ v) (GetAddress new_data)
        else uninitialized_copy_n (GetAddress (data_ v)) (size_ v) (GetAddress new_data)) ;;;
       destroy_n (GetAddress (data_ v)) (size_ v)) ;;;
    let '(data, new_data') := RawMemory_Swap (data_ v) new_data in
    set_vec this (MkVec data (size_ v)) ;;;
    RawMemory_dtor new_data'.

(** [Resize(size_t new_size)] *)
Definition Resize (this : oid) (new_size : nat) : M unit :=
  v <- get_vec this ;;
  (if new_size <=? size_ v then
     for_range new_size (size_ v) (fun i =>
       Destroy (ptr_add (GetAddress (data_ v)) i))
   else
     Reserve this new_size ;;;
     v' <- get_vec this ;;
     uninitialized_value_construct
       (ptr_add (GetAddress (data_ v')) (size_ v'))
       (ptr_add (GetAddress (data_ v')) new_size)) ;;;
  set_size this new_size.

(** [EmplaceBack(Args&&... args)]: [k] names the constructor that
    [T(std::forward<Args>(args)...)] runs and [x] is the value it builds.
    Returns the reference [data_[size_ - 1]]. *)
Definition EmplaceBack (this : oid) (k : op_kind) (x : T) : M ptr :=
  v <- get_vec this ;;
  (if size_ v <? Capacity v then
     p <- RawMemory_plus (data_ v) (size_ v) ;;
     tick k ;;;
     construct p x
   else
     new_data <- RawMemory_of_size (if size_ v =? 0 then 1 else size_ v * 2) ;;
     on_unwind (RawMemory_dtor new_data)
       (p <- RawMemory_plus new_data (size_ v) ;;
        tick k ;;;
        construct p x ;;;
        (if nothrow_relocate then
           for_range 0 (size_ v) (fun i =>
             d <- RawMemory_plus new_data i ;;
             s <- RawMemory_index (data_ v) i ;;
             MoveConstruct d s) ;;;
           DestroyN (GetAddress (data_ v)) (size_ v)
         else
           for_range 0 (size_ v) (fun i =>
             d <- RawMemory_plus new_data i ;;
             s <- RawMemory_index (data_ v) i ;;
             CopyConstruct d s) ;;;
           DestroyN (GetAddress (data_ v)) (size_ v))) ;;;
     let '(data, new_data') := RawMemory_Swap (data_ v) new_data in
     set_vec this (MkVec data (size_ v)) ;;;
     RawMemory_dtor new_data') ;;;
  v' <- get_vec this ;;
  set_vec this (MkVec (data_ v') (S (size_ v'))) ;;;
  v'' <- get_vec this ;;
  RawMemory_index (data_ v'') (size_ v'' - 1).

(** [PushBack(const T& value)] and [PushBack(T&& value)] *)
Definition PushBack (this : oid) (value : T) : M unit :=
  EmplaceBack this KCopy value ;;; ret tt.

Definition PushBack_move (this : oid) (value : T) : M unit :=
  EmplaceBack this KMove value ;;; ret tt.

(** [PopBack()] *)
Definition PopBack (this : oid) : M unit :=
  v <- get_vec this ;;
  e <- RawMemory_plus (data_ v) (size_ v) ;;
  p <- lift_opt (ptr_sub e 1) ;;
  Destroy p ;;;
  set_size this (size_ v - 1).

(** [Erase(const_iterator pos)] *)
Definition Erase (this : oid) (pos : ptr) : M ptr :=
  v <- get_vec this ;;
  id <- lift_opt (ptr_diff pos (vbegin v)) ;;
  e <- vend v ;;
  last <- std_move (ptr_add (ptr_add (vbegin v) id) 1) e (ptr_add (vbegin v) id) ;;
  Destroy last ;;;
  set_size this (size_ v - 1) ;;;
  id' <- lift_opt (ptr_diff pos (vbegin v)) ;;
  RawMemory_plus (data_ v) id'.

(** [Emplace(const_iterator pos, Args&&... args)]; [k] and [x] as for
    [EmplaceBack]. *)
Definition Emplace (this : oid) (pos : ptr) (k : op_kind) (x : T) : M ptr :=
  v <- get_vec this ;;
  id <- lift_opt (ptr_diff pos (vbegin v)) ;;
  if negb (size_ v =? Capacity v) then
    (if 0 <? size_ v then
       tick k ;;;
       e <- vend v ;;
       e1 <- lift_opt (ptr_sub e 1) ;;
       MoveConstruct e e1 ;;;
       (if id + 1 <? size_ v then
          move_backward (ptr_add (vbegin v) id) e1 e ;;;
          d <- RawMemory_index (data_ v) id ;;
          MoveAssignLocal d x
        else ret tt)
     else
       p <- RawMemory_plus (data_ v) id ;;
       tick k ;;;
       construct p x) ;;;
    set_size this (S (size_ v)) ;;;
    ret (ptr_add (vbegin v) id)
  else
    new_data <- RawMemory_of_size (if size_ v =? 0 then 1 else size_ v * 2) ;;
    result_it <-
      on_unwind (RawMemory_dtor new_data)
        (p <- RawMemory_plus new_data id ;;
         tick k ;;;
         construct p x ;;;
         try_catch
           (if nothrow_relocate then
              for_range 0 id (fun i =>
                d <- RawMemory_plus new_data i ;;
                s <- RawMemory_index (data_ v) i ;;
                MoveConstruct d s)
            else
              for_range 0 id (fun i =>
                d <- RawMemory_plus new_data i ;;
                s <- RawMemory_index (data_ v) i ;;
                CopyConstruct d s))
           (q <- RawMemory_plus new_data id ;;
            Destroy q) ;;;
         try_catch
           (if nothrow_relocate then
              for_range id (size_ v) (fun i =>
                d <- RawMemory_plus new_data i ;;
                s <- RawMemory_index (data_ v) i ;;
                MoveConstruct (ptr_add d 1) s)
            else
              for_range id (size_ v) (fun i =>
                d <- RawMemory_plus new_data i ;;
                s <- RawMemory_index (data_ v) i ;;
                CopyConstruct (ptr_add d 1) s))
           (DestroyN (GetAddress new_data) (id + 1)) ;;;
         DestroyN (vbegin v) (size_ v) ;;;
         ret p) ;;
    let '(data, new_data') := RawMemory_Swap (data_ v) new_data in
    set_vec this (MkVec data (size_ v)) ;;;
    set_size this (S (size_ v)) ;;;
    RawMemory_dtor new_data' ;;;
    ret result_it.

(** [Insert(const_iterator pos, const T& value)] and
    [Insert(const_iterator pos, T&& value)] *)
Definition Insert (this : oid) (pos : ptr) (value : T) : M ptr :=
  Emplace this pos KCopy value.

Definition Insert_move (this : oid) (pos : ptr) (value : T) : M ptr :=
  Emplace this pos KMove value.

(** [operator[](size_t index)] *)
Definition Vector_index (this : oid) (index : nat) : M ptr :=
  v <- get_vec this ;;
  assert (index <? size_ v) ;;;
  RawMemory_index (data_ v) index.

End Code.

(** ** What a vector holds *)

Section Abstraction.

Context {T : Type} `{ET : Element T}.

Local Abbreviation M := (@M T).
Local Abbreviation machine := (@machine T).

(** [m] owns storage whose slots are [b]: a null buffer owns no slot,
    any other buffer is the start of a block of the free store that has
    not been released. *)
Definition owns (st : machine) (m : RawMemory) (b : block T) : Prop :=
  length b = capacity_ m ∧ off (buffer_ m) = 0 ∧
  match base (buffer_ m) with
  | None => b = []
  | Some a => heap st !! a = Some (Some b)
  end.

(** The slots of a vector that holds the elements [l] in a block of
    [cap] slots: [length l] live objects, then raw storage. *)
Definition layout (cap : nat) (l : list T) : block T :=
  (Some <$> l) ++ replicate (cap - length l) None.

(** The invariant of Vector<T>, with the elements named: [0 <= size_ <=
    capacity], slots [0, size_) hold the elements of [l] and slots
    [size_, capacity) hold no object. *)
Definition represents (st : machine) (v : Vector) (l : list T) : Prop :=
  size_ v = length l ∧ size_ v ≤ capacity_ (data_ v) ∧
  owns st (data_ v) (layout (capacity_ (data_ v)) l).

Definition invariant (st : machine) (v : Vector) : Prop :=
  ∃ l, represents st v l.

(** The slots of the storage of [m], read from the free store. *)
Definition storage (st : machine) (m : RawMemory) : option (block T) :=
  match base (buffer_ m) with
  | None => Some []
  | Some a => mjoin (heap st !! a)
  end.

(** The elements of [v], read from the free store: the objects in the
    first [size_] slots, when each of these slots holds one. *)
Definition elements (st : machine) (v : Vector) : option (list T) :=
  b ← storage st (data_ v);
  if decide (size_ v ≤ length b) then mapM id (take (size_ v) b) else None.

(** The vector object [this] of a state, as an observer sees it: size,
    capacity and elements. *)
Definition observe (st : machine) (this : oid) : option (nat * nat * list T) :=
  v ← objs st !! this;
  l ← elements st v;
  Some (Size v, Capacity v, l).

(** [n * sizeof(T)] is a value of [size_t]: the product that [Allocate(n)]
    computes does not wrap. *)
Definition fits (n : nat) : Prop :=
  (N.of_nat n * Npos sizeof < size_t_range)%N.

#[global] Instance fits_dec n : Decision (fits n).
Proof. unfold fits. apply _. Defined.

(** The number of slots of the block that [Allocate(n)] asks for. *)
Definition granted (n : nat) : nat := N.to_nat (byte_count n / Npos sizeof).


(** No operation of the element type and no allocation ever throws. *)
Definition quiet : Prop := ∀ k t, throws k t = false.

(** Some operation throws at some time. *)
Definition threw : Prop := ∃ k t, throws k t = true.

(** Some operation of kind [k] goes through at some time. *)
Definition succeeded (k : op_kind) : Prop := ∃ t, throws k t = false.

(** [wp m st Q R]: from [st], [m] has defined behaviour; when it returns
    [a] in state [s], [Q a s] holds, and when an exception leaves it in
    state [s], [R s] holds. *)
Definition wp {A} (m : M A) (st : machine)
    (Q : A → machine → Prop) (R : machine → Prop) : Prop :=
  match m st with
  | Ok a s => Q a s
  | Throw s => R s
  | Undef => False
  end.

(** The states that single steps lead to. *)
Definition ticked (st : machine) : machine :=
  Machine (heap st) (objs st) (S (clock st)).

Definition set_block (a : addr) (b : option (block T)) (st : machine) : machine :=
  Machine (<[a := b]> (heap st)) (objs st) (clock st).

Definition set_obj (this : oid) (v : Vector) (st : machine) : machine :=
  Machine (heap st) (<[this := v]> (objs st)) (clock st).

Definition allocated (n : nat) (st : machine) : machine :=
  Machine (heap st ++ [Some (replicate n None)]) (objs st) (S (clock st)).

(** [l] with [w] put in front of position [q]. *)
Definition insert_at (q : nat) (w : T) (l : list T) : list T :=
  take q l ++ w :: drop q l.

(** What [Emplace] at position [p] makes of the elements [l] of a vector
    with [cap] slots when nothing throws: on the in-place path of a
    non-empty vector the new value only arrives when [p + 1 < size];
    otherwise the last element is moved one slot up and its moved-from
    state stays behind. *)
Definition emplaced (cap : nat) (l : list T) (p : nat) (x : T) : list T :=
  if (length l <? cap) && (0 <? length l) && (length l <=? p + 1)
  then match last l with
       | Some y => insert_at (length l - 1) (moved_from y) l
       | None => l
       end
  else insert_at p x l.

(** A client that appends the values [xs] one after the other and
    records the capacity it sees after each append. *)
Fixpoint appends (this : oid) (xs : list (op_kind * T)) : M (list nat) :=
  match xs with
  | [] => ret []
  | (k, x) :: xs' =>
      EmplaceBack this k x ;;;
      v <- get_vec this ;;
      caps <- appends this xs' ;;
      ret (Capacity v :: caps)
  end.

(** An append as a client writes it: [PushBack(value)] with an lvalue,
    [PushBack(std::move(value))] or [EmplaceBack(args...)]. *)
Inductive append_call : Type :=
  | push_back (value : T)
  | push_back_move (value : T)
  | emplace_back (k : op_kind) (x : T).

(** The value that an append adds and the constructor that builds it. *)
Definition appended_value (c : append_call) : T :=
  match c with
  | push_back value | push_back_move value => value
  | emplace_back _ x => x
  end.

Definition constructor_of (c : append_call) : op_kind :=
  match c with
  | push_back _ => KCopy
  | push_back_move _ => KMove
  | emplace_back k _ => k
  end.

Definition run_append (this : oid) (c : append_call) : M unit :=
  match c with
  | push_back value => PushBack this value
  | push_back_move value => PushBack_move this value
  | emplace_back k x => EmplaceBack this k x ;;; ret tt
  end.

(** A client that makes the appends [cs] one after the other and records
    the capacity it sees after each of them. *)
Fixpoint append_all (this : oid) (cs : list append_call) : M (list nat) :=
  match cs with
  | [] => ret []
  | c :: cs' =>
      run_append this c ;;;
      v <- get_vec this ;;
      caps <- append_all this cs' ;;
      ret (Capacity v :: caps)
  end.

(** From [st] to [s] every storage outside the block [a] is as it was. *)
Definition frame (a : option addr) (st s : machine) : Prop :=
  ∀ m b, base (buffer_ m) ≠ a → owns st m b → owns s m b.

(** The vector object [this] of a state satisfies the invariant. *)
Definition keeps_invariant {A} (this : oid) : A → machine → Prop :=
  fun _ s => ∃ v', objs s !! this = Some v' ∧ invariant s v'.

(** The number of blocks of the free store that have not been released. *)
Definition live (st : machine) : nat := length (omap id (heap st)).

(** The number of blocks a RawMemory holds: none when its buffer is
    null, else one. *)
Definition held (m : RawMemory) : nat :=
  match base (buffer_ m) with Some _ => 1 | None => 0 end.

(** [post m st Q R]: when [m] returns [a] in state [s] from [st], [Q a s]
    holds, and when an exception leaves it in state [s], [R s] holds;
    nothing is said of a run without defined behaviour. *)
Definition post {A} (m : M A) (st : machine)
    (Q : A → machine → Prop) (R : machine → Prop) : Prop :=
  match m st with
  | Ok a s => Q a s
  | Throw s => R s
  | Undef => True
  end.

(** [m] obtains and releases no block and leaves the vector objects as
    they are, however it ends. *)
Definition steady {A} (m : M A) : Prop :=
  ∀ st, post m st (fun _ s => live s = live st ∧ objs s = objs st)
                  (fun s => live s = live st ∧ objs s = objs st).

(** Whenever [m] returns, it has run exactly [n] fallible operations:
    allocations and constructor or assignment calls of the element
    type. *)
Definition costs {A} (m : M A) (n : nat) : Prop :=
  ∀ st, post m st (fun _ s => clock s = clock st + n) (fun _ => True).

(** No exception ever leaves [m]. *)
Definition calm {A} (m : M A) : Prop :=
  ∀ st, post m st (fun _ _ => True) (fun _ => False).

(** From [st] to [s] the vector object [this], which was [v], is the only
    one that changed, and the number of live blocks changed as the
    number of blocks it holds. *)
Definition balanced (this : oid) (v : Vector) (st s : machine) : Prop :=
  ∃ v', objs s = <[this := v']> (objs st) ∧
        live s + held (data_ v) = live st + held (data_ v').

End Abstraction.

(** The growth law of the specification: [max(1, 2 x capacity)]. *)
Definition grow (cap : nat) : nat := Nat.max 1 (2 * cap).

(** The capacities the growth law predicts for [k] appends to a vector of
    [size] elements in [cap] slots: an append grows the storage only when
    it is full. *)
Fixpoint cap_trace (size cap k : nat) : list nat :=
  match k with
  | 0 => []
  | S k' =>
      let cap' := if size <? cap then cap else grow cap in
      cap' :: cap_trace (S size) cap' k'
  end.

(** ** Element types and programs of the examples *)

(** [int]: nothing throws, a move leaves the value in place. *)
Definition int_elem : Element nat :=
  {| sizeof := 4;
     default_value := 0;
     moved_from := fun x => x;
     nothrow_relocate := true;
     throws := fun k _ => false |}.

(** A copyable type whose move constructor may throw, so that relocation
    copies; its operations throw as the schedule [sched] says. *)
Definition fragile (sched : op_kind -> nat -> bool) : Element nat :=
  {| sizeof := 4;
     default_value := 0;
     moved_from := fun x => x;
     nothrow_relocate := false;
     throws := sched |}.

(** The state with one default-constructed vector, object 0. *)
Definition fresh_state : @machine nat :=
  Machine [] {[ 0 := Vector_default ]} 0.

(** Object 0 holds [[1; 2]] in a block of 4 slots. *)
Definition two_of_four : @machine nat :=
  Machine [Some [Some 1; Some 2; None; None]]
          {[ 0 := MkVec (MkRaw (Ptr (Some 0) 0) 4) 2 ]} 0.

(** Object 0 holds [[1; 2]] in a block of 2 slots. *)
Definition two_of_two : @machine nat :=
  Machine [Some [Some 1; Some 2]]
          {[ 0 := MkVec (MkRaw (Ptr (Some 0) 0) 2) 2 ]} 0.

(** Object 0 holds [[1; 2]] in a block of 2 slots and object 1 holds
    [[7]] in a block of 3 slots. *)
Definition two_vectors : @machine nat :=
  Machine [Some [Some 1; Some 2]; Some [Some 7; None; None]]
          {[ 0 := MkVec (MkRaw (Ptr (Some 0) 0) 2) 2;
             1 := MkVec (MkRaw (Ptr (Some 1) 0) 3) 1 ]} 0.

(** Object 0 is default-constructed and object 1 holds [[1; 2]] in a
    block of 2 slots. *)
Definition empty_and_two : @machine nat :=
  Machine [Some [Some 1; Some 2]]
          {[ 0 := Vector_default;
             1 := MkVec (MkRaw (Ptr (Some 0) 0) 2) 2 ]} 0.

(** Exception schedules: the copy constructor throws always, the copy
    constructor throws at time [t0], the default constructor throws at
    time [t0]. *)
Definition is_copy (k : op_kind) : bool :=
  match k with KCopy => true | _ => false end.

Definition is_default (k : op_kind) : bool :=
  match k with KDefault => true | _ => false end.

Definition copy_always_throws : op_kind -> nat -> bool :=
  fun k _ => is_copy k.

Definition copy_throws_at (t0 : nat) : op_kind -> nat -> bool :=
  fun k t => is_copy k && (t =? t0).

Definition default_throws_at (t0 : nat) : op_kind -> nat -> bool :=
  fun k t => is_default k && (t =? t0).

(** [RawMemory<T> a(1), b(1); a = std::move(b);] and then the end of the
    scope: [b] is destroyed, then [a]. *)
Definition move_assign_program `{ET : Element T} : @M T (ptr * ptr) :=
  a <- RawMemory_ctor 1 ;;
  b <- RawMemory_ctor 1 ;;
  let '(a', b') := RawMemory_move_assign a b in
  RawMemory_dtor b' ;;;
  RawMemory_dtor a' ;;;
  ret (buffer_ a, buffer_ b).

(** ** A program logic for the embedding *)

Section Logic.

Context {T : Type} `{ET : Element T}.

Local Abbreviation M := (@M T).
Local Abbreviation machine := (@machine T).

Implicit Types (st s : machine) (m : RawMemory) (b : block T) (v : Vector).
Implicit Types (l : list T) (i n : nat) (this : oid) (p : ptr).

Lemma wp_ret {A} (a : A) st Q R : Q a st → wp (ret a) st Q R.
Proof. done. Qed.

Lemma wp_bind {A B} (m : M A) (f : A → M B) st Q R :
  wp m st (fun a s => wp (f a) s Q R) R → wp (bind m f) st Q R.
Proof. unfold wp, bind. by destruct (m st). Qed.

Lemma wp_mono {A} (m : M A) st (Q Q' : A → machine → Prop) (R R' : machine → Prop) :
  wp m st Q R → (∀ a s, Q a s → Q' a s) → (∀ s, R s → R' s) → wp m st Q' R'.
Proof. unfold wp. destruct (m st); eauto. Qed.

Lemma wp_try_catch {A} (body handler : M A) st Q R :
  wp body st Q (fun s => wp handler s Q R) → wp (try_catch body handler) st Q R.
Proof. unfold wp, try_catch. by destruct (body st). Qed.

Lemma wp_on_unwind {A} (dtor : M unit) (body : M A) st Q R :
  wp body st Q (fun s => wp dtor s (fun _ s' => R s') R) →
  wp (on_unwind dtor body) st Q R.
Proof.
  intros Hb. apply wp_try_catch. eapply wp_mono; [exact Hb|done|].
  intros s Hs. apply wp_bind. eapply wp_mono; [exact Hs| |done]. done.
Qed.

Lemma wp_assert (b : bool) st Q R : b = true → Q tt st → wp (assert b) st Q R.
Proof. by intros ->. Qed.

Lemma wp_lift_opt {A} (o : option A) a st Q R :
  o = Some a → Q a st → wp (lift_opt o) st Q R.
Proof. by intros ->. Qed.

Lemma wp_tick k st (Q : unit → machine → Prop) (R : machine → Prop) :
  (throws k (clock st) = false → Q tt (ticked st)) →
  (throws k (clock st) = true → R (ticked st)) →
  wp (tick k) st Q R.
Proof. unfold wp, tick, ticked. destruct (throws k (clock st)); auto. Qed.

Lemma wp_for_each (I : nat → machine → Prop) body lo n st Q R :
  I lo st →
  (∀ i s, lo ≤ i < lo + n → I i s → wp (body i) s (fun _ s' => I (S i) s') R) →
  (∀ s, I (lo + n) s → Q tt s) →
  wp (for_each (seq lo n) body) st Q R.
Proof.
  revert lo st. induction n as [|n IH]; intros lo st HI Hstep HQ; simpl.
  - apply wp_ret, HQ. by rewrite Nat.add_0_r.
  - apply wp_bind. eapply wp_mono; [apply (Hstep lo st); [lia|done]| |done].
    intros u s Hs. apply IH; [done| |].
    + intros i s' Hi. apply Hstep. lia.
    + intros s' Hs'. apply HQ. by replace (lo + S n) with (S lo + n) by lia.
Qed.

Lemma wp_for_range (I : nat → machine → Prop) body lo hi st Q R :
  lo ≤ hi →
  I lo st →
  (∀ i s, lo ≤ i < hi → I i s → wp (body i) s (fun _ s' => I (S i) s') R) →
  (∀ s, I hi s → Q tt s) →
  wp (for_range lo hi body) st Q R.
Proof.
  intros Hle HI Hstep HQ. unfold for_range.
  apply (wp_for_each I); [done| |].
  - intros i s Hi. apply Hstep. lia.
  - intros s. replace (lo + (hi - lo)) with hi by lia. apply HQ.
Qed.

(** *** The free store *)

Lemma owns_inv st m b i :
  owns st m b → i < length b →
  ∃ a, buffer_ m = Ptr (Some a) 0 ∧ heap st !! a = Some (Some b).
Proof.
  intros (Hlen & Hoff & Hb) Hi. destruct m as [[ba o] c]; simpl in *. subst o.
  destruct ba as [a|]; [eauto|]. subst b. simpl in Hi. lia.
Qed.

Lemma owns_set_block_eq st m b a b' :
  owns st m b → base (buffer_ m) = Some a → length b' = length b →
  owns (set_block a (Some b') st) m b'.
Proof.
  intros (Hlen & Hoff & Hb) Ha Hl. split; [congruence|]. split; [done|].
  rewrite Ha in *. simpl. apply list_lookup_insert_eq. by eapply lookup_lt_Some.
Qed.

Lemma owns_set_block_ne st m b a (ob : option (block T)) :
  owns st m b → base (buffer_ m) ≠ Some a →
  owns (set_block a ob st) m b.
Proof.
  intros (Hlen & Hoff & Hb) Ha. split; [done|]. split; [done|].
  destruct (base (buffer_ m)) as [c|]; [|done]. simpl.
  rewrite list_lookup_insert_ne; [done|congruence].
Qed.

Lemma owns_ticked st m b : owns st m b → owns (ticked st) m b.
Proof. done. Qed.

Lemma wp_load st m b i x (Q : T → machine → Prop) R :
  owns st m b → b !! i = Some (Some x) → Q x st →
  wp (load (ptr_add (buffer_ m) i)) st Q R.
Proof.
  intros Ho Hx HQ. destruct (owns_inv st m b i Ho) as (a & Hm & Ha).
  { by eapply lookup_lt_Some. }
  unfold wp, load, block_at. rewrite Hm. simpl. rewrite Ha. simpl.
  by rewrite Hx.
Qed.

Lemma wp_write_slot st m b i (o : option T) (Q : unit → machine → Prop) R :
  owns st m b → i < length b →
  (∀ a, base (buffer_ m) = Some a → Q tt (set_block a (Some (<[i := o]> b)) st)) →
  wp (write_slot (ptr_add (buffer_ m) i) o) st Q R.
Proof.
  intros Ho Hi HQ. destruct (owns_inv st m b i Ho Hi) as (a & Hm & Ha).
  unfold wp, write_slot, block_at. rewrite Hm. simpl. rewrite Ha. simpl.
  rewrite decide_True by done. apply HQ. by rewrite Hm.
Qed.

Lemma wp_construct st m b i x (Q : unit → machine → Prop) R :
  owns st m b → i < length b →
  (∀ a, base (buffer_ m) = Some a → Q tt (set_block a (Some (<[i := Some x]> b)) st)) →
  wp (construct (ptr_add (buffer_ m) i) x) st Q R.
Proof. apply wp_write_slot. Qed.

Lemma wp_store st m b i x y (Q : unit → machine → Prop) R :
  owns st m b → b !! i = Some (Some y) →
  (∀ a, base (buffer_ m) = Some a → Q tt (set_block a (Some (<[i := Some x]> b)) st)) →
  wp (store (ptr_add (buffer_ m) i) x) st Q R.
Proof.
  intros Ho Hy HQ. apply wp_bind. eapply wp_load; [done..|].
  eapply wp_write_slot; [done| |done]. by eapply lookup_lt_Some.
Qed.

Lemma wp_Destroy st m b i y (Q : unit → machine → Prop) R :
  owns st m b → b !! i = Some (Some y) →
  (∀ a, base (buffer_ m) = Some a → Q tt (set_block a (Some (<[i := None]> b)) st)) →
  wp (Destroy (ptr_add (buffer_ m) i)) st Q R.
Proof.
  intros Ho Hy HQ. apply wp_bind. eapply wp_load; [done..|].
  eapply wp_write_slot; [done| |done]. by eapply lookup_lt_Some.
Qed.

Lemma wp_RawMemory_plus st m i (Q : ptr → machine → Prop) R :
  i ≤ capacity_ m → Q (ptr_add (buffer_ m) i) st →
  wp (RawMemory_plus m i) st Q R.
Proof.
  intros Hi HQ. apply wp_bind. apply wp_assert; [by apply Nat.leb_le|]. done.
Qed.

Lemma wp_RawMemory_index st m i (Q : ptr → machine → Prop) R :
  i < capacity_ m → Q (ptr_add (buffer_ m) i) st →
  wp (RawMemory_index m i) st Q R.
Proof.
  intros Hi HQ. apply wp_bind. apply wp_assert; [by apply Nat.ltb_lt|]. done.
Qed.

Lemma wp_get_vec st this v (Q : Vector → machine → Prop) R :
  objs st !! this = Some v → Q v st → wp (get_vec this) st Q R.
Proof. intros Hv HQ. unfold wp, get_vec. by rewrite Hv. Qed.

Lemma wp_set_vec st this v (Q : unit → machine → Prop) R :
  Q tt (set_obj this v st) → wp (set_vec this v) st Q R.
Proof. done. Qed.

Lemma owns_set_obj st this v m b : owns st m b → owns (set_obj this v st) m b.
Proof. done. Qed.

(** A block of the bytes of [n] objects has [n] slots. *)
Lemma operator_new_exact n :
  operator_new (N.of_nat n * Npos sizeof) = fresh_block n.
Proof.
  unfold operator_new. by rewrite N.div_mul, Nat2N.id.
Qed.


Lemma byte_count_fits n : fits n → byte_count n = (N.of_nat n * Npos sizeof)%N.
Proof. intros Hn. unfold byte_count. by apply N.mod_small. Qed.

Lemma granted_fits n : fits n → granted n = n.
Proof.
  intros Hn. unfold granted. by rewrite byte_count_fits, N.div_mul, Nat2N.id.
Qed.

(** When the product wraps, the block is too small for [n] objects. *)
Lemma granted_wraps n : ¬ fits n → granted n < n.
Proof.
  intros Hn. unfold granted, byte_count, fits in *.
  assert ((N.of_nat n * N.pos sizeof) `mod` size_t_range <
          N.of_nat n * N.pos sizeof)%N as Hlt.
  { apply N.lt_le_trans with size_t_range; [|by apply N.nlt_ge].
    apply N.mod_lt. by vm_compute. }
  rewrite (N.mul_comm (N.of_nat n)) in Hlt at 2.
  apply N.Div0.div_lt_upper_bound in Hlt. lia.
Qed.

(** Within the range of [size_t], [RawMemory(n)] obtains room for [n]
    objects. *)
Lemma RawMemory_ctor_fits n : fits n → RawMemory_ctor n = RawMemory_of_size n.
Proof.
  intros Hn. unfold RawMemory_ctor, RawMemory_of_size, Allocate, Allocate_of_size.
  by rewrite byte_count_fits.
Qed.

Lemma wp_RawMemory_of_size st n (Q : RawMemory → machine → Prop) (R : machine → Prop) :
  (n = 0 → Q (MkRaw nullptr 0) st) →
  (n ≠ 0 → throws KAlloc (clock st) = false →
     Q (MkRaw (Ptr (Some (length (heap st))) 0) n) (allocated n st)) →
  (n ≠ 0 → throws KAlloc (clock st) = true → R (ticked st)) →
  wp (RawMemory_of_size n) st Q R.
Proof.
  intros H0 Hok Hthrow. unfold RawMemory_of_size, Allocate_of_size.
  destruct (Nat.eqb_spec n 0) as [->|Hn]; simpl; [by apply H0|].
  apply wp_bind. rewrite operator_new_exact. unfold fresh_block.
  apply wp_bind, wp_tick; intros E.
  - by apply Hok.
  - by apply Hthrow.
Qed.

Lemma wp_RawMemory_ctor st n (Q : RawMemory → machine → Prop) (R : machine → Prop) :
  fits n →
  (n = 0 → Q (MkRaw nullptr 0) st) →
  (n ≠ 0 → throws KAlloc (clock st) = false →
     Q (MkRaw (Ptr (Some (length (heap st))) 0) n) (allocated n st)) →
  (n ≠ 0 → throws KAlloc (clock st) = true → R (ticked st)) →
  wp (RawMemory_ctor n) st Q R.
Proof. intros Hn. rewrite RawMemory_ctor_fits by done. apply wp_RawMemory_of_size. Qed.

(** [RawMemory(n)] for any [n]: the block has [granted n] slots. *)
Lemma wp_RawMemory_ctor_any st n (Q : RawMemory → machine → Prop) (R : machine → Prop) :
  (n = 0 → Q (MkRaw nullptr 0) st) →
  (n ≠ 0 → throws KAlloc (clock st) = false →
     Q (MkRaw (Ptr (Some (length (heap st))) 0) n) (allocated (granted n) st)) →
  (n ≠ 0 → throws KAlloc (clock st) = true → R (ticked st)) →
  wp (RawMemory_ctor n) st Q R.
Proof.
  intros H0 Hok Hthrow. unfold RawMemory_ctor, Allocate.
  destruct (Nat.eqb_spec n 0) as [->|Hn]; simpl; [by apply H0|].
  apply wp_bind. unfold operator_new, fresh_block.
  apply wp_bind, wp_tick; intros E.
  - by apply Hok.
  - by apply Hthrow.
Qed.

Lemma owns_allocated_new st n :
  owns (allocated n st) (MkRaw (Ptr (Some (length (heap st))) 0) n) (replicate n None).
Proof.
  split; [by rewrite length_replicate|]. split; [done|]. simpl.
  rewrite lookup_app_r by lia. by rewrite Nat.sub_diag.
Qed.

Lemma owns_allocated_old st n m b : owns st m b → owns (allocated n st) m b.
Proof.
  intros (Hl & Ho & Hb). split; [done|]. split; [done|].
  destruct (base (buffer_ m)) as [a|]; [|done]. simpl.
  rewrite lookup_app_l; [done|]. by eapply lookup_lt_Some.
Qed.

Lemma owns_fresh st m b :
  owns st m b → base (buffer_ m) ≠ Some (length (heap st)).
Proof.
  intros (Hl & Ho & Hb) E. rewrite E in Hb.
  apply lookup_lt_Some in Hb. lia.
Qed.

Lemma wp_RawMemory_dtor st m b (Q : unit → machine → Prop) R :
  owns st m b →
  (base (buffer_ m) = None → Q tt st) →
  (∀ a, base (buffer_ m) = Some a → Q tt (set_block a None st)) →
  wp (RawMemory_dtor m) st Q R.
Proof.
  intros (Hl & Ho & Hb) Hn Hs.
  unfold wp, RawMemory_dtor, Deallocate, operator_delete.
  destruct (base (buffer_ m)) as [a|]; [|by apply Hn].
  rewrite Hb. rewrite decide_True by done. by apply Hs.
Qed.

(** *** Loops that relocate elements *)

Lemma quiet_not_threw : quiet → threw → False.
Proof. intros Hq (k & t & E). rewrite Hq in E. done. Qed.

Lemma for_each_ext (xs : list nat) (f g : nat → M unit) st :
  (∀ i s, i ∈ xs → f i s = g i s) → for_each xs f st = for_each xs g st.
Proof.
  revert st. induction xs as [|i xs IH]; intros st Hfg; [done|].
  simpl. unfold bind. rewrite Hfg by set_solver.
  destruct (g i st); [|done..]. apply IH. intros; apply Hfg; set_solver.
Qed.

Lemma for_range_ext lo hi (f g : nat → M unit) st :
  (∀ i s, lo ≤ i < hi → f i s = g i s) →
  for_range lo hi f st = for_range lo hi g st.
Proof.
  intros Hfg. apply for_each_ext. intros i s Hi. apply Hfg.
  apply elem_of_seq in Hi. lia.
Qed.

Lemma ptr_add_0 (p : ptr) : ptr_add p 0 = p.
Proof. destruct p. unfold ptr_add. simpl. by rewrite Nat.add_0_r. Qed.

Lemma ptr_add_add (p : ptr) i j : ptr_add (ptr_add p i) j = ptr_add p (i + j).
Proof. unfold ptr_add. simpl. by rewrite Nat.add_assoc. Qed.

Lemma segment_lookup {A} (bo : list A) lo (ys : list A) j y :
  take (length ys) (drop lo bo) = ys → ys !! j = Some y → bo !! (lo + j) = Some y.
Proof.
  intros Hseg Hy. rewrite <- Hseg in Hy.
  apply lookup_take_Some in Hy as [Hy _]. by rewrite lookup_drop in Hy.
Qed.

Lemma list_inserts_snoc {A} (i : nat) (ks : list A) (y : A) (b : list A) :
  list_inserts i (ks ++ [y]) b = <[i + length ks := y]> (list_inserts i ks b).
Proof. rewrite list_inserts_app_l. simpl. by rewrite (Nat.add_comm i). Qed.

(** Copying the source slots [lo, lo + length xs), which hold [xs], to
    the destination slots shifted by [sh]. *)
Lemma wp_copy_range st old new bo bn (xs : list T) lo sh :
  base (buffer_ old) ≠ base (buffer_ new) →
  owns st old bo → owns st new bn →
  take (length xs) (drop lo bo) = Some <$> xs →
  lo + sh + length xs ≤ length bn →
  wp (for_range lo (lo + length xs) (fun i =>
        CopyConstruct (ptr_add (buffer_ new) (i + sh)) (ptr_add (buffer_ old) i))) st
     (fun _ s => owns s old bo ∧
                 owns s new (list_inserts (lo + sh) (Some <$> xs) bn) ∧
                 objs s = objs st ∧ (xs ≠ [] → succeeded KCopy))
     (fun s => threw ∧ owns s old bo ∧ (∃ b, owns s new b) ∧ objs s = objs st).
Proof.
  intros Hne Hold Hnew Hseg Hlen.
  apply (wp_for_range (fun i s =>
    owns s old bo ∧
    owns s new (list_inserts (lo + sh) (Some <$> take (i - lo) xs) bn) ∧
    objs s = objs st ∧ (lo < i → succeeded KCopy))); [lia| | |].
  - rewrite Nat.sub_diag, take_0. split; [done|]. split; [done|]. split; [done|lia].
  - intros i s Hi (Ho & Hn & Hobjs & _).
    destruct (lookup_lt_is_Some_2 xs (i - lo)) as [y Hy]; [lia|].
    assert (bo !! i = Some (Some y)) as Hsrc.
    { replace i with (lo + (i - lo)) by lia.
      apply (segment_lookup bo lo (Some <$> xs)); [by rewrite length_fmap|].
      by rewrite list_lookup_fmap, Hy. }
    unfold CopyConstruct. apply wp_bind. eapply wp_load; [done..|].
    apply wp_bind, wp_tick; intros E.
    + eapply wp_construct; [by apply owns_ticked| |].
      { rewrite length_inserts. lia. }
      intros a Ha. split; [|split; [|split; [done|by exists (clock s)]]].
      * apply owns_set_block_ne; [done|congruence].
      * replace (S i - lo) with (S (i - lo)) by lia.
        rewrite (take_S_r _ _ y) by done. rewrite fmap_app. simpl.
        rewrite list_inserts_snoc, length_fmap, length_take.
        replace (lo + sh + (i - lo) `min` length xs) with (i + sh) by lia.
        eapply owns_set_block_eq; [by apply owns_ticked|done|].
        by rewrite length_insert.
    + split; [by exists KCopy, (clock s)|]. eauto.
  - intros s (Ho & Hn & Hobjs & Hev).
    replace (lo + length xs - lo) with (length xs) in Hn by lia.
    rewrite firstn_all in Hn. split; [done|]. split; [done|]. split; [done|].
    intros Hxs. apply Hev. destruct xs; [done|simpl; lia].
Qed.

(** Moving the source slots [lo, lo + length xs), which hold [xs], to
    the destination slots shifted by [sh]; the sources are left in their
    moved-from state. *)
Lemma wp_move_range st old new bo bn (xs : list T) lo sh :
  base (buffer_ old) ≠ base (buffer_ new) →
  owns st old bo → owns st new bn →
  take (length xs) (drop lo bo) = Some <$> xs →
  lo + sh + length xs ≤ length bn →
  wp (for_range lo (lo + length xs) (fun i =>
        MoveConstruct (ptr_add (buffer_ new) (i + sh)) (ptr_add (buffer_ old) i))) st
     (fun _ s => owns s old (list_inserts lo (Some ∘ moved_from <$> xs) bo) ∧
                 owns s new (list_inserts (lo + sh) (Some <$> xs) bn) ∧
                 objs s = objs st)
     (fun s => threw ∧ (∃ b, owns s old b) ∧ (∃ b, owns s new b) ∧ objs s = objs st).
Proof.
  intros Hne Hold Hnew Hseg Hlen.
  apply (wp_for_range (fun i s =>
    owns s old (list_inserts lo (Some ∘ moved_from <$> take (i - lo) xs) bo) ∧
    owns s new (list_inserts (lo + sh) (Some <$> take (i - lo) xs) bn) ∧
    objs s = objs st)); [lia| | |].
  - rewrite Nat.sub_diag, take_0. done.
  - intros i s Hi (Ho & Hn & Hobjs).
    destruct (lookup_lt_is_Some_2 xs (i - lo)) as [y Hy]; [lia|].
    assert (bo !! i = Some (Some y)) as Hsrc.
    { replace i with (lo + (i - lo)) by lia.
      apply (segment_lookup bo lo (Some <$> xs)); [by rewrite length_fmap|].
      by rewrite list_lookup_fmap, Hy. }
    assert (list_inserts lo (Some ∘ moved_from <$> take (i - lo) xs) bo !! i
            = Some (Some y)) as Hsrc'.
    { rewrite list_lookup_inserts_ge; [done|].
      rewrite length_fmap, length_take. lia. }
    unfold MoveConstruct. apply wp_bind. eapply wp_load; [done..|].
    apply wp_bind, wp_tick; intros E.
    + apply wp_bind. eapply wp_construct; [by apply owns_ticked| |].
      { rewrite length_inserts. lia. }
      intros a' Ha'.
      eapply wp_store.
      { apply owns_set_block_ne; [by apply owns_ticked|congruence]. }
      { done. }
      intros a Ha. replace (S i - lo) with (S (i - lo)) by lia.
      rewrite (take_S_r _ _ y) by done. rewrite !fmap_app. simpl.
      rewrite !list_inserts_snoc, !length_fmap, !length_take.
      replace (lo + sh + (i - lo) `min` length xs) with (i + sh) by lia.
      replace (lo + (i - lo) `min` length xs) with i by lia.
      split; [|split; [|done]].
      * eapply owns_set_block_eq; [|done|by rewrite length_insert].
        apply owns_set_block_ne; [by apply owns_ticked|congruence].
      * apply owns_set_block_ne; [|congruence].
        eapply owns_set_block_eq; [by apply owns_ticked|done|].
        by rewrite length_insert.
    + split; [by exists KMove, (clock s)|]. eauto.
  - intros s (Ho & Hn & Hobjs).
    replace (lo + length xs - lo) with (length xs) in * by lia.
    by rewrite firstn_all in *.
Qed.

(** Destroying the objects in the slots [lo, hi) of the storage of [m];
    the storage of [other] is not touched. *)
Lemma wp_destroy_range st m b other b2 lo hi (R : machine → Prop) :
  lo ≤ hi →
  owns st m b → owns st other b2 →
  (lo < hi → base (buffer_ other) ≠ base (buffer_ m)) →
  (∀ i, lo ≤ i < hi → ∃ y, b !! i = Some (Some y)) →
  wp (for_range lo hi (fun i => Destroy (ptr_add (buffer_ m) i))) st
     (fun _ s => owns s m (list_inserts lo (replicate (hi - lo) None) b) ∧
                 owns s other b2 ∧ objs s = objs st ∧ clock s = clock st)
     R.
Proof.
  intros Hle Hm Hother Hne Hlive.
  apply (wp_for_range (fun i s =>
    owns s m (list_inserts lo (replicate (i - lo) None) b) ∧
    owns s other b2 ∧ objs s = objs st ∧ clock s = clock st)); [done| | |done].
  - by rewrite Nat.sub_diag.
  - intros i s Hi (Ho & Ho2 & Hobjs & Hclock).
    destruct (Hlive i Hi) as [y Hy].
    eapply (wp_Destroy _ _ _ _ y); [exact Ho| |].
    { rewrite list_lookup_inserts_ge; [done|]. rewrite length_replicate. lia. }
    intros a Ha. replace (S i - lo) with (S (i - lo)) by lia.
    rewrite replicate_S_end, list_inserts_snoc, length_replicate.
    replace (lo + (i - lo)) with i by lia.
    split; [|split; [|done]].
    + eapply owns_set_block_eq; [done..|]. by rewrite length_insert.
    + apply owns_set_block_ne; [done|]. rewrite <- Ha. apply Hne. lia.
Qed.

(** *** The layout of a vector's storage *)

Lemma length_layout cap l : length l ≤ cap → length (layout cap l) = cap.
Proof. intros. unfold layout. rewrite length_app, length_fmap, length_replicate. lia. Qed.

Lemma layout_lookup_lt cap l i y :
  l !! i = Some y → layout cap l !! i = Some (Some y).
Proof.
  intros Hy. unfold layout. rewrite lookup_app_l.
  - by rewrite list_lookup_fmap, Hy.
  - rewrite length_fmap. by eapply lookup_lt_Some.
Qed.

Lemma layout_lookup_ge cap l i :
  length l ≤ i → i < cap → layout cap l !! i = Some None.
Proof.
  intros. unfold layout. rewrite lookup_app_r; rewrite length_fmap; [|done].
  apply lookup_replicate_2. lia.
Qed.

Lemma layout_segment cap l lo n :
  lo + n ≤ length l →
  take n (drop lo (layout cap l)) = Some <$> take n (drop lo l).
Proof.
  intros. unfold layout. rewrite drop_app_le by (rewrite length_fmap; lia).
  rewrite take_app_le by (rewrite length_drop, length_fmap; lia).
  by rewrite fmap_take, fmap_drop.
Qed.

Lemma layout_snoc cap l x :
  length l < cap → <[length l := Some x]> (layout cap l) = layout cap (l ++ [x]).
Proof.
  intros. unfold layout. rewrite insert_app_r_alt; rewrite length_fmap; [|done].
  rewrite Nat.sub_diag, fmap_app, length_app. simpl.
  replace (cap - length l) with (S (cap - (length l + 1))) by lia.
  simpl. by rewrite <- app_assoc.
Qed.

Lemma list_inserts_prefix {A} (k b : list A) :
  length k ≤ length b → list_inserts 0 k b = k ++ drop (length k) b.
Proof.
  intros. rewrite <- (take_drop (length k) b) at 1.
  apply list_inserts_0_r. rewrite length_take. lia.
Qed.

(** The new block after a growth cycle of an append: the elements of [l]
    relocated to the front of a raw block in which slot [length l]
    holds [x]. *)
Lemma layout_relocated n l x :
  length l < n →
  list_inserts 0 (Some <$> l) (<[length l := Some x]> (replicate n None))
  = layout n (l ++ [x]).
Proof.
  intros. rewrite list_inserts_prefix
    by (rewrite length_fmap, length_insert, length_replicate; lia).
  rewrite length_fmap. unfold layout. rewrite fmap_app, <- app_assoc. f_equal.
  rewrite drop_insert_ge by lia. rewrite Nat.sub_diag, drop_replicate.
  rewrite length_app. simpl.
  replace (n - length l) with (S (n - (length l + 1))) by lia. done.
Qed.

(** *** Append *)

Lemma wp_for_range_ext lo hi (f g : nat → M unit) st Q R :
  (∀ i s, lo ≤ i < hi → f i s = g i s) →
  wp (for_range lo hi g) st Q R → wp (for_range lo hi f) st Q R.
Proof. intros Hfg. unfold wp. by rewrite (for_range_ext lo hi f g). Qed.

Lemma relocate_body_eq new old i s (c : ptr → ptr → M unit) :
  i ≤ capacity_ new → i < capacity_ old →
  (d <- RawMemory_plus new i ;; e <- RawMemory_index old i ;; c d e) s
  = c (ptr_add (buffer_ new) i) (ptr_add (buffer_ old) i) s.
Proof.
  intros Hn Ho. unfold bind, RawMemory_plus, RawMemory_index, assert, ret.
  apply Nat.leb_le in Hn. apply Nat.ltb_lt in Ho. by rewrite Hn, Ho.
Qed.

Lemma represents_owns st v l :
  represents st v l → owns st (data_ v) (layout (capacity_ (data_ v)) l).
Proof. by intros (_ & _ & ?). Qed.

Lemma wp_EmplaceBack st this v l k x :
  objs st !! this = Some v → represents st v l →
  wp (EmplaceBack this k x) st
     (fun p s => ∃ v', objs s = <[this := v']> (objs st) ∧
                   represents s v' (l ++ [x]) ∧
                   Capacity v' = (if Size v <? Capacity v then Capacity v
                                  else grow (Capacity v)) ∧
                   p = ptr_add (buffer_ (data_ v')) (length l) ∧
                   succeeded k ∧
                   (Size v = Capacity v → nothrow_relocate = false → l ≠ [] →
                    succeeded KCopy))
     (fun s => threw ∧
               (nothrow_relocate = false → objs s = objs st ∧ represents s v l)).
Proof.
  intros Hv Hrep. pose proof Hrep as (Hsize & Hcap & Hown).
  destruct v as [old n]. simpl in *. subst n.
  unfold EmplaceBack, Capacity, Size, RawMemory_Capacity. simpl.
  apply wp_bind. eapply wp_get_vec; [done|]. simpl.
  apply wp_bind.
  apply (wp_mono _ _
    (fun _ s => ∃ d, objs s = <[this := MkVec d (length l)]> (objs st) ∧
                     owns s d (layout (capacity_ d) (l ++ [x])) ∧
                     length l < capacity_ d ∧
                     capacity_ d = (if length l <? capacity_ old then capacity_ old
                                    else grow (capacity_ old)) ∧
                     succeeded k ∧
                     (length l = capacity_ old → nothrow_relocate = false → l ≠ [] →
                      succeeded KCopy))
    _
    (fun s => threw ∧
              (nothrow_relocate = false →
               objs s = objs st ∧ represents s (MkVec old (length l)) l))).
  - destruct (Nat.ltb_spec (length l) (capacity_ old)) as [Hlt|Hge].
    + (* room left *)
      apply wp_bind, wp_RawMemory_plus; [lia|].
      apply wp_bind, wp_tick; intros E.
      * eapply wp_construct; [by apply owns_ticked|by rewrite length_layout|].
        intros a Ha. exists old. split; [|split; [|split; [done|split; [done|]]]].
        { simpl. by rewrite insert_id. }
        2:{ split; [by exists (clock st)|]. lia. }
        rewrite layout_snoc by done.
        apply (owns_set_block_eq (ticked st) old (layout (capacity_ old) l));
          [done..|]. rewrite !length_layout; [done|lia|].
        rewrite length_app. simpl. lia.
      * split; [by exists k, (clock st)|]. done.
    + (* growth cycle *)
      assert (capacity_ old = length l) as Hfull by lia.
      set (n' := if length l =? 0 then 1 else length l * 2).
      assert (n' = grow (capacity_ old) ∧ length l < n') as [Hn' Hlt].
      { unfold n', grow. rewrite Hfull. destruct (Nat.eqb_spec (length l) 0); lia. }
      apply wp_bind, wp_RawMemory_of_size; [lia| |].
      2:{ intros _ E. split; [by exists KAlloc, (clock st)|]. done. }
      intros _ E. set (new := MkRaw (Ptr (Some (length (heap st))) 0) n').
      pose proof (owns_allocated_new st n') as Hnew. fold new in Hnew.
      pose proof (owns_allocated_old st n' _ _ Hown) as Hold.
      assert (base (buffer_ old) ≠ base (buffer_ new)) as Hne.
      { simpl. by eapply owns_fresh. }
      apply wp_bind.
      apply (wp_mono _ _
        (fun _ s => ∃ bo, owns s old bo ∧
                          owns s new (layout n' (l ++ [x])) ∧
                          objs s = objs st ∧ succeeded k ∧
                          (nothrow_relocate = false → l ≠ [] → succeeded KCopy))
        _
        (fun s => threw ∧
                  (nothrow_relocate = false →
                   objs s = objs st ∧ represents s (MkVec old (length l)) l))).
      * apply wp_on_unwind.
        apply (wp_mono _ _
          (fun _ s => ∃ bo, owns s old bo ∧
                            owns s new (layout n' (l ++ [x])) ∧
                            objs s = objs st ∧ succeeded k ∧
                            (nothrow_relocate = false → l ≠ [] → succeeded KCopy))
          _
          (fun s => threw ∧ (∃ b, owns s new b) ∧
                    (nothrow_relocate = false → owns s old (layout (capacity_ old) l)) ∧
                    objs s = objs st)).
        -- apply wp_bind, wp_RawMemory_plus; [simpl; lia|].
           apply wp_bind, wp_tick; intros Ek.
           2:{ split; [by exists k, (clock (allocated n' st))|]. eauto. }
           apply wp_bind.
           eapply wp_construct;
             [by apply owns_ticked|rewrite length_replicate; lia|].
           intros a' Ha'.
           set (s1 := set_block a' _ _).
           assert (owns s1 new (<[length l := Some x]> (replicate n' None))) as Hnew1.
           { eapply owns_set_block_eq; [by apply owns_ticked|done|].
             by rewrite length_insert. }
           assert (owns s1 old (layout (capacity_ old) l)) as Hold1.
           { apply owns_set_block_ne; [by apply owns_ticked|congruence]. }
           assert (take (length l) (drop 0 (layout (capacity_ old) l)) = Some <$> l)
             as Hseg.
           { rewrite layout_segment by lia. by rewrite drop_0, firstn_all. }
           destruct nothrow_relocate eqn:Hnr.
           ++ apply wp_bind.
              apply (wp_for_range_ext _ _ _ (fun i =>
                MoveConstruct (ptr_add (buffer_ new) (i + 0)) (ptr_add (buffer_ old) i))).
              { intros i s Hi. rewrite Nat.add_0_r.
                apply (relocate_body_eq new old i s MoveConstruct); simpl; lia. }
              eapply wp_mono;
                [apply (wp_move_range s1 old new _ _ l 0 0 Hne Hold1 Hnew1 Hseg)| |].
              { rewrite length_insert, length_replicate. lia. }
              ** intros _ s (Ho & Hn & Hobjs). simpl in Hn.
                 rewrite layout_relocated in Hn by done.
                 eapply wp_mono;
                   [apply (wp_destroy_range s _ _ new _ 0 (length l) (fun _ => False)
                             ltac:(lia) Ho Hn)| |done].
                 { intros _. congruence. }
                 { intros i Hi.
                   destruct (lookup_lt_is_Some_2 l i) as [y Hy]; [lia|].
                   exists (moved_from y). rewrite list_lookup_inserts.
                   - rewrite Nat.sub_0_r, list_lookup_fmap, Hy. done.
                   - rewrite length_fmap. lia.
                   - rewrite length_layout by lia. lia. }
                 intros _ s' (Ho' & Hnw' & Hobjs' & _). eexists. split; [done|].
                 split; [done|]. split; [by rewrite Hobjs', Hobjs|].
                 split; [by eexists|done].
              ** intros s (Ht & Ho & Hn & Hobjs). done.
           ++ apply wp_bind.
              apply (wp_for_range_ext _ _ _ (fun i =>
                CopyConstruct (ptr_add (buffer_ new) (i + 0)) (ptr_add (buffer_ old) i))).
              { intros i s Hi. rewrite Nat.add_0_r.
                apply (relocate_body_eq new old i s CopyConstruct); simpl; lia. }
              eapply wp_mono;
                [apply (wp_copy_range s1 old new _ _ l 0 0 Hne Hold1 Hnew1 Hseg)| |].
              { rewrite length_insert, length_replicate. lia. }
              ** intros _ s (Ho & Hn & Hobjs & Hev). simpl in Hn.
                 rewrite layout_relocated in Hn by done.
                 eapply wp_mono;
                   [apply (wp_destroy_range s _ _ new _ 0 (length l) (fun _ => False)
                             ltac:(lia) Ho Hn)| |done].
                 { intros _. congruence. }
                 { intros i Hi.
                   destruct (lookup_lt_is_Some_2 l i) as [y Hy]; [lia|].
                   exists y. by apply layout_lookup_lt. }
                 intros _ s' (Ho' & Hnw' & Hobjs' & _). eexists. split; [done|].
                 split; [done|]. split; [by rewrite Hobjs', Hobjs|].
                 split; [by eexists|auto].
              ** intros s (Ht & Ho & Hn & Hobjs). done.
        -- done.
        -- intros s (Ht & (b & Hb) & Ho & Hobjs).
           eapply wp_RawMemory_dtor; [exact Hb|done|].
           intros a' Ha'. split; [done|]. intros Hnr. split; [done|].
           split; [done|]. split; [simpl; lia|]. simpl.
           apply owns_set_block_ne; [by apply Ho|]. by rewrite <- Ha'.
      * intros _ s (bo & Ho & Hn & Hobjs & Hk & Hc). simpl.
        apply wp_bind, wp_set_vec.
        eapply wp_RawMemory_dtor; [by apply owns_set_obj| |].
        -- intros _. exists new. split; [simpl; by rewrite Hobjs|].
           split; [by apply owns_set_obj|]. split; [done|].
           simpl. rewrite Hn'. destruct (Nat.ltb_spec (length l) (capacity_ old)); [lia|auto].
        -- intros a Ha. exists new. split; [simpl; by rewrite Hobjs|].
           split; [apply owns_set_block_ne; [by apply owns_set_obj|]|].
           { simpl in Ha. intros E'. apply Hne. by rewrite Ha, E'. }
           split; [done|].
           simpl. rewrite Hn'. destruct (Nat.ltb_spec (length l) (capacity_ old)); [lia|auto].
      * done.
  - intros _ s (d & Hobjs & Hd & Hlt & Hcapd & Hk & Hc).
    apply wp_bind. eapply wp_get_vec; [by rewrite Hobjs, lookup_insert_eq|].
    simpl. apply wp_bind, wp_set_vec.
    apply wp_bind. eapply wp_get_vec; [simpl; by rewrite lookup_insert_eq|].
    simpl. apply wp_RawMemory_index; [lia|].
    exists (MkVec d (S (length l))). simpl.
    split; [by rewrite Hobjs, insert_insert_eq|].
    split; [|split; [done|split; [by rewrite Nat.sub_0_r|done]]].
    split; [rewrite length_app; simpl; lia|]. split; [simpl; lia|done].
  - done.
Qed.

Lemma wp_Ok {A} (m : M A) st Q R a s : wp m st Q R → m st = Ok a s → Q a s.
Proof. unfold wp. intros H E. by rewrite E in H. Qed.

Lemma wp_Throw {A} (m : M A) st Q R s : wp m st Q R → m st = Throw s → R s.
Proof. unfold wp. intros H E. by rewrite E in H. Qed.

Lemma wp_quiet {A} (m : M A) st Q (R : machine → Prop) :
  wp m st Q (fun s => threw ∧ R s) → quiet → ∃ a s, m st = Ok a s.
Proof.
  unfold wp. intros H Hq. destruct (m st) as [a s|s|]; [eauto| |done].
  destruct H as [H _]. by destruct (quiet_not_threw Hq H).
Qed.

Lemma storage_owns st m b : owns st m b → storage st m = Some b.
Proof.
  intros (_ & _ & Hb). unfold storage.
  destruct (base (buffer_ m)); [by rewrite Hb|by subst].
Qed.

Lemma elements_represents st v l : represents st v l → elements st v = Some l.
Proof.
  intros (Hs & Hc & Ho). unfold elements. rewrite (storage_owns _ _ _ Ho). simpl.
  rewrite length_layout by lia. rewrite decide_True by done.
  rewrite Hs. unfold layout. rewrite take_app_length' by (by rewrite length_fmap).
  by apply mapM_fmap_Some.
Qed.

Lemma observe_represents st this v l :
  objs st !! this = Some v → represents st v l →
  observe st this = Some (Size v, Capacity v, l).
Proof.
  intros Hv Hr. unfold observe. rewrite Hv. simpl.
  by rewrite (elements_represents _ _ _ Hr).
Qed.

(** *** Sequences of appends *)

Lemma wp_appends xs : ∀ st this v l,
  objs st !! this = Some v → represents st v l →
  wp (appends this xs) st
     (fun caps s => ∃ v', objs s = <[this := v']> (objs st) ∧
                      represents s v' (l ++ xs.*2) ∧
                      caps = cap_trace (Size v) (Capacity v) (length xs) ∧
                      last (Capacity v :: caps) = Some (Capacity v'))
     (fun s => threw ∧ True).
Proof.
  induction xs as [|[k x] xs IH]; intros st this v l Hv Hrep; simpl.
  - apply wp_ret. exists v. rewrite insert_id by done. by rewrite app_nil_r.
  - apply wp_bind.
    eapply wp_mono; [by apply wp_EmplaceBack| |by intros s [? _]].
    intros p s (v1 & Hobjs & Hrep1 & Hcap1 & _).
    assert (objs s !! this = Some v1) as Hv1 by (by rewrite Hobjs, lookup_insert_eq).
    apply wp_bind. eapply wp_get_vec; [done|].
    apply wp_bind. eapply wp_mono; [by apply IH| |done].
    intros caps s' (v' & Hobjs' & Hrep' & Hcaps & Hlast).
    exists v'. split; [by rewrite Hobjs', Hobjs, insert_insert_eq|].
    split; [by rewrite <- app_assoc in Hrep'|].
    assert (Size v1 = S (Size v)) as Hsz.
    { unfold Size. destruct Hrep1 as (E1 & _), Hrep as (E & _).
      rewrite E1, E, length_app. simpl. lia. }
    split; [by rewrite Hcaps, Hsz, Hcap1|].
    by rewrite last_cons_cons.
Qed.

(** Each of the three appends is [EmplaceBack] with the constructor it
    names, the returned reference dropped. *)
Lemma run_append_EmplaceBack this c st :
  run_append this c st =
  (EmplaceBack this (constructor_of c) (appended_value c) ;;; ret tt) st.
Proof. by destruct c. Qed.

Lemma append_all_appends this cs : ∀ st,
  append_all this cs st =
  appends this ((fun c => (constructor_of c, appended_value c)) <$> cs) st.
Proof.
  induction cs as [|c cs IH]; intros st; [reflexivity|].
  cbn [append_all appends fmap list_fmap]. unfold bind.
  rewrite run_append_EmplaceBack. unfold bind, ret.
  destruct (EmplaceBack this (constructor_of c) (appended_value c) st)
    as [p s|s|]; [|reflexivity..].
  destruct (get_vec this s) as [v s'|s'|]; [|reflexivity..].
  by rewrite IH.
Qed.

Lemma wp_run_append st this v l c :
  objs st !! this = Some v → represents st v l →
  wp (run_append this c) st
     (fun _ s => ∃ v', objs s = <[this := v']> (objs st) ∧
                  represents s v' (l ++ [appended_value c]) ∧
                  Capacity v' = (if Size v <? Capacity v then Capacity v
                                 else grow (Capacity v)))
     (fun s => threw ∧ True).
Proof.
  intros Hv Hrep. unfold wp. rewrite run_append_EmplaceBack.
  apply wp_bind.
  eapply wp_mono; [by apply wp_EmplaceBack| |by intros s [? _]].
  intros p s (v' & Hobjs & Hrep' & Hcap & _). apply wp_ret. eauto.
Qed.

Lemma wp_append_all cs st this v l :
  objs st !! this = Some v → represents st v l →
  wp (append_all this cs) st
     (fun caps s => ∃ v', objs s = <[this := v']> (objs st) ∧
                      represents s v' (l ++ (appended_value <$> cs)) ∧
                      caps = cap_trace (Size v) (Capacity v) (length cs) ∧
                      last (Capacity v :: caps) = Some (Capacity v'))
     (fun s => threw ∧ True).
Proof.
  intros Hv Hrep. unfold wp. rewrite append_all_appends.
  pose proof (wp_appends ((fun c => (constructor_of c, appended_value c)) <$> cs)
                st this v l Hv Hrep) as Hwp.
  unfold wp in Hwp. rewrite <- list_fmap_compose, length_fmap in Hwp. exact Hwp.
Qed.

Lemma cap_trace_lower k : ∀ size cap i c,
  size ≤ cap → cap_trace size cap k !! i = Some c → size + S i ≤ c.
Proof.
  induction k as [|k IH]; intros size cap i c Hle Hc; [done|].
  simpl in Hc.
  assert (S size ≤ (if size <? cap then cap else grow cap)) as Hle'.
  { unfold grow. destruct (Nat.ltb_spec size cap); lia. }
  destruct i as [|i]; simpl in Hc.
  - inversion Hc; subst. lia.
  - apply IH in Hc; [lia|done].
Qed.

Lemma represents_default st : represents st Vector_default [].
Proof. split; [done|]. split; [done|]. by split. Qed.

(** *** Rules for any pointer into the storage of a RawMemory *)

Lemma owns_inv_at st m b p :
  owns st m b → base p = base (buffer_ m) → off p < length b →
  ∃ a, base p = Some a ∧ base (buffer_ m) = Some a ∧ heap st !! a = Some (Some b).
Proof.
  intros Ho Hb Hi. destruct (owns_inv st m b (off p) Ho Hi) as (a & Hm & Ha).
  exists a. rewrite Hb, Hm. done.
Qed.

Lemma wp_load_at st m b p x (Q : T → machine → Prop) R :
  owns st m b → base p = base (buffer_ m) → b !! off p = Some (Some x) →
  Q x st → wp (load p) st Q R.
Proof.
  intros Ho Hb Hx HQ.
  destruct (owns_inv_at st m b p Ho Hb) as (a & Hp & _ & Ha).
  { by eapply lookup_lt_Some. }
  unfold wp, load, block_at. rewrite Hp. simpl. rewrite Ha. simpl.
  by rewrite Hx.
Qed.

Lemma wp_write_slot_at st m b p (o : option T) (Q : unit → machine → Prop) R :
  owns st m b → base p = base (buffer_ m) → off p < length b →
  (∀ a, base (buffer_ m) = Some a → Q tt (set_block a (Some (<[off p := o]> b)) st)) →
  wp (write_slot p o) st Q R.
Proof.
  intros Ho Hb Hi HQ.
  destruct (owns_inv_at st m b p Ho Hb Hi) as (a & Hp & Hm & Ha).
  unfold wp, write_slot, block_at. rewrite Hp. simpl. rewrite Ha. simpl.
  rewrite decide_True by done. by apply HQ.
Qed.

Lemma wp_Destroy_at st m b p y (Q : unit → machine → Prop) R :
  owns st m b → base p = base (buffer_ m) → b !! off p = Some (Some y) →
  (∀ a, base (buffer_ m) = Some a → Q tt (set_block a (Some (<[off p := None]> b)) st)) →
  wp (Destroy p) st Q R.
Proof.
  intros Ho Hb Hy HQ. apply wp_bind. eapply wp_load_at; [done..|].
  eapply wp_write_slot_at; [done..| |done]. by eapply lookup_lt_Some.
Qed.

Lemma wp_store_at st m b p x y (Q : unit → machine → Prop) R :
  owns st m b → base p = base (buffer_ m) → b !! off p = Some (Some y) →
  (∀ a, base (buffer_ m) = Some a → Q tt (set_block a (Some (<[off p := Some x]> b)) st)) →
  wp (store p x) st Q R.
Proof.
  intros Ho Hb Hy HQ. apply wp_bind. eapply wp_load_at; [done..|].
  eapply wp_write_slot_at; [done..| |done]. by eapply lookup_lt_Some.
Qed.

(** Destroying the objects [p0 + lo, p0 + hi) in the storage of [m]. *)
Lemma wp_destroy_at_range st m b other b2 p0 lo hi (R : machine → Prop) :
  lo ≤ hi →
  owns st m b → owns st other b2 →
  base p0 = base (buffer_ m) →
  (lo < hi → base (buffer_ other) ≠ base (buffer_ m)) →
  (∀ i, lo ≤ i < hi → ∃ y, b !! (off p0 + i) = Some (Some y)) →
  wp (for_range lo hi (fun i => Destroy (ptr_add p0 i))) st
     (fun _ s => owns s m (list_inserts (off p0 + lo) (replicate (hi - lo) None) b) ∧
                 owns s other b2 ∧ objs s = objs st ∧ clock s = clock st)
     R.
Proof.
  intros Hle Hm Hother Hp0 Hne Hlive.
  apply (wp_for_range (fun i s =>
    owns s m (list_inserts (off p0 + lo) (replicate (i - lo) None) b) ∧
    owns s other b2 ∧ objs s = objs st ∧ clock s = clock st)); [done| | |done].
  - by rewrite Nat.sub_diag.
  - intros i s Hi (Ho & Ho2 & Hobjs & Hclock).
    destruct (Hlive i Hi) as [y Hy].
    eapply (wp_Destroy_at _ _ _ _ y); [exact Ho|exact Hp0| |].
    { simpl. rewrite list_lookup_inserts_ge; [done|]. rewrite length_replicate. lia. }
    intros a Ha. replace (S i - lo) with (S (i - lo)) by lia.
    rewrite replicate_S_end, list_inserts_snoc, length_replicate. simpl.
    replace (off p0 + lo + (i - lo)) with (off p0 + i) by lia.
    split; [|split; [|done]].
    + eapply owns_set_block_eq; [done..|]. by rewrite length_insert.
    + apply owns_set_block_ne; [done|]. rewrite <- Ha. apply Hne. lia.
Qed.

(** *** Single relocation steps *)

Lemma wp_CopyConstruct st old new bo bn dst src y :
  base (buffer_ old) ≠ base (buffer_ new) →
  owns st old bo → owns st new bn →
  base src = base (buffer_ old) → base dst = base (buffer_ new) →
  bo !! off src = Some (Some y) → off dst < length bn →
  wp (CopyConstruct dst src) st
     (fun _ s => owns s old bo ∧ owns s new (<[off dst := Some y]> bn) ∧
                 objs s = objs st ∧ succeeded KCopy)
     (fun s => threw ∧ owns s old bo ∧ owns s new bn ∧ objs s = objs st).
Proof.
  intros Hne Ho Hn Hsrc Hdst Hy Hlt. unfold CopyConstruct.
  apply wp_bind. eapply (wp_load_at _ old bo); [done..|].
  apply wp_bind, wp_tick; intros E.
  - eapply (wp_write_slot_at _ new bn); [by apply owns_ticked|done..|].
    intros a Ha. split; [apply owns_set_block_ne; [done|congruence]|].
    split; [|split; [done|by exists (clock st)]].
    eapply owns_set_block_eq; [by apply owns_ticked|done|by rewrite length_insert].
  - split; [by exists KCopy, (clock st)|]. done.
Qed.

Lemma wp_MoveConstruct st old new bo bn dst src y :
  base (buffer_ old) ≠ base (buffer_ new) →
  owns st old bo → owns st new bn →
  base src = base (buffer_ old) → base dst = base (buffer_ new) →
  bo !! off src = Some (Some y) → off dst < length bn →
  wp (MoveConstruct dst src) st
     (fun _ s => owns s old (<[off src := Some (moved_from y)]> bo) ∧
                 owns s new (<[off dst := Some y]> bn) ∧
                 objs s = objs st)
     (fun s => threw ∧ owns s old bo ∧ owns s new bn ∧ objs s = objs st).
Proof.
  intros Hne Ho Hn Hsrc Hdst Hy Hlt. unfold MoveConstruct.
  apply wp_bind. eapply (wp_load_at _ old bo); [done..|].
  apply wp_bind, wp_tick; intros E.
  - apply wp_bind. eapply (wp_write_slot_at _ new bn); [by apply owns_ticked|done..|].
    intros a' Ha'.
    eapply (wp_store_at _ old bo).
    { apply owns_set_block_ne; [by apply owns_ticked|congruence]. }
    { done. }
    { done. }
    intros a Ha. split; [|split; [|done]].
    + eapply owns_set_block_eq; [|done|by rewrite length_insert].
      apply owns_set_block_ne; [by apply owns_ticked|congruence].
    + apply owns_set_block_ne; [|congruence].
      eapply owns_set_block_eq; [by apply owns_ticked|done|by rewrite length_insert].
  - split; [by exists KMove, (clock st)|]. done.
Qed.

Lemma wp_ValueConstruct st m b p :
  owns st m b → base p = base (buffer_ m) → off p < length b →
  wp (ValueConstruct p) st
     (fun _ s => owns s m (<[off p := Some default_value]> b) ∧ objs s = objs st)
     (fun s => threw ∧ owns s m b ∧ objs s = objs st).
Proof.
  intros Ho Hp Hlt. unfold ValueConstruct.
  apply wp_bind, wp_tick; intros E.
  - eapply wp_write_slot_at; [by apply owns_ticked|done..|].
    intros a Ha. split; [|done].
    eapply owns_set_block_eq; [by apply owns_ticked|done|by rewrite length_insert].
  - split; [by exists KDefault, (clock st)|]. done.
Qed.

(** *** The uninitialized-memory algorithms *)

Lemma wp_rethrow {A} st (Q : A → machine → Prop) (R : machine → Prop) :
  R st → wp rethrow st Q R.
Proof. done. Qed.

(** [BO d] and [BN d] are the slots of the source and of the destination
    storage when [d] objects have been constructed. *)
Lemma wp_uninitialized_loop (make : ptr → nat → M unit) p0 old new
    (BO BN : nat → block T) (o : gmap oid Vector) n :
  (0 < n → base (buffer_ old) ≠ base (buffer_ new)) →
  base p0 = base (buffer_ new) →
  (∀ d i, d ≤ n → i < d → ∃ y, BN d !! (off p0 + i) = Some (Some y)) →
  (∀ d s, d < n →
     owns s old (BO d) ∧ owns s new (BN d) ∧ objs s = o →
     wp (make (ptr_add p0 d) d) s
        (fun _ s' => owns s' old (BO (S d)) ∧ owns s' new (BN (S d)) ∧ objs s' = o)
        (fun s' => threw ∧ owns s' old (BO d) ∧ owns s' new (BN d) ∧ objs s' = o)) →
  ∀ k d st, d + k = n →
    owns st old (BO d) ∧ owns st new (BN d) ∧ objs st = o →
    wp (uninitialized_loop make p0 d k) st
       (fun _ s => owns s old (BO n) ∧ owns s new (BN n) ∧ objs s = o)
       (fun s => threw ∧ objs s = o ∧ (∃ bo, owns s old bo) ∧ (∃ bn, owns s new bn)).
Proof.
  intros Hne Hp0 Hlive Hstep. induction k as [|k IH]; intros d st Hd Hinv; simpl.
  - apply wp_ret. by replace n with d by lia.
  - apply wp_bind, wp_try_catch.
    eapply wp_mono; [apply (Hstep d st); [lia|done]| |].
    + intros [] s Hs. apply IH; [lia|done].
    + intros s (Ht & Ho & Hn & Hobjs). apply wp_bind.
      eapply wp_mono;
        [apply (wp_destroy_at_range s new (BN d) old (BO d) p0 0 d (fun _ => False));
         [lia|done|done|done| |]| |done].
      * intros Hd0 E. apply Hne; [lia|done].
      * intros i Hi. apply Hlive; lia.
      * intros [] s' (Hn' & Ho' & Hobjs' & _). apply wp_rethrow.
        split; [done|]. split; [congruence|]. eauto.
Qed.

Lemma wp_uninitialized_copy_n st old new bo bn (xs : list T) :
  (xs ≠ [] → base (buffer_ old) ≠ base (buffer_ new)) →
  owns st old bo → owns st new bn →
  take (length xs) bo = Some <$> xs → length xs ≤ length bn →
  wp (uninitialized_copy_n (buffer_ old) (length xs) (buffer_ new)) st
     (fun _ s => owns s old bo ∧ owns s new (list_inserts 0 (Some <$> xs) bn) ∧
                 objs s = objs st)
     (fun s => threw ∧ objs s = objs st ∧
               (∃ bo, owns s old bo) ∧ (∃ bn, owns s new bn)).
Proof.
  intros Hne Ho Hn Hseg Hlen. unfold uninitialized_copy_n.
  pose proof (proj2 (proj2 Hn)) as Hoffn. pose proof (proj1 (proj2 Hn)) as Hoff0.
  eapply wp_mono;
    [apply (wp_uninitialized_loop _ (buffer_ new) old new
              (fun _ => bo) (fun d => list_inserts 0 (Some <$> take d xs) bn)
              (objs st) (length xs)) with (d := 0)| |done].
  - intros Hpos. apply Hne. intros ->. simpl in Hpos. lia.
  - done.
  - intros d i Hd Hi. destruct (lookup_lt_is_Some_2 xs i) as [y Hy]; [lia|].
    exists y. rewrite Hoff0. simpl. rewrite list_lookup_inserts.
    + rewrite Nat.sub_0_r, list_lookup_fmap, lookup_take_lt by lia. by rewrite Hy.
    + rewrite length_fmap, length_take. lia.
    + lia.
  - intros d s Hd (Ho' & Hn' & Hobjs).
    destruct (lookup_lt_is_Some_2 xs d) as [y Hy]; [lia|].
    assert (xs ≠ []) as Hxs by (by destruct xs).
    eapply wp_mono;
      [apply (wp_CopyConstruct s old new _ _ _ _ y (Hne Hxs) Ho' Hn')| |].
    + done.
    + done.
    + simpl. rewrite (proj1 (proj2 Ho)). simpl.
      apply (segment_lookup bo 0 (Some <$> xs) d (Some y)).
      * by rewrite length_fmap, drop_0.
      * by rewrite list_lookup_fmap, Hy.
    + simpl. rewrite length_inserts. lia.
    + intros [] s' (Ho'' & Hn'' & Hobjs' & _). split; [done|]. split; [|congruence].
      simpl in Hn''. rewrite Hoff0 in Hn''. simpl in Hn''.
      rewrite (take_S_r _ _ y) by done. rewrite fmap_app. simpl.
      rewrite list_inserts_snoc, length_fmap, length_take.
      by replace (0 + d `min` length xs) with d by lia.
    + intros s' (Ht & Ho'' & Hn'' & Hobjs'). split; [done|]. split; [done|].
      split; [done|congruence].
  - lia.
  - simpl. done.
  - intros [] s (Ho' & Hn' & Hobjs). by rewrite firstn_all in Hn'.
Qed.

Lemma wp_uninitialized_move_n st old new bo bn (xs : list T) :
  (xs ≠ [] → base (buffer_ old) ≠ base (buffer_ new)) →
  owns st old bo → owns st new bn →
  take (length xs) bo = Some <$> xs → length xs ≤ length bn →
  wp (uninitialized_move_n (buffer_ old) (length xs) (buffer_ new)) st
     (fun _ s => owns s old (list_inserts 0 (Some ∘ moved_from <$> xs) bo) ∧
                 owns s new (list_inserts 0 (Some <$> xs) bn) ∧
                 objs s = objs st)
     (fun s => threw ∧ objs s = objs st ∧
               (∃ bo, owns s old bo) ∧ (∃ bn, owns s new bn)).
Proof.
  intros Hne Ho Hn Hseg Hlen. unfold uninitialized_move_n.
  pose proof (proj1 (proj2 Hn)) as Hoff0.
  eapply wp_mono;
    [apply (wp_uninitialized_loop _ (buffer_ new) old new
              (fun d => list_inserts 0 (Some ∘ moved_from <$> take d xs) bo)
              (fun d => list_inserts 0 (Some <$> take d xs) bn)
              (objs st) (length xs)) with (d := 0)| |done].
  - intros Hpos. apply Hne. intros ->. simpl in Hpos. lia.
  - done.
  - intros d i Hd Hi. destruct (lookup_lt_is_Some_2 xs i) as [y Hy]; [lia|].
    exists y. rewrite Hoff0. simpl. rewrite list_lookup_inserts.
    + rewrite Nat.sub_0_r, list_lookup_fmap, lookup_take_lt by lia. by rewrite Hy.
    + rewrite length_fmap, length_take. lia.
    + lia.
  - intros d s Hd (Ho' & Hn' & Hobjs).
    destruct (lookup_lt_is_Some_2 xs d) as [y Hy]; [lia|].
    assert (xs ≠ []) as Hxs by (by destruct xs).
    eapply wp_mono;
      [apply (wp_MoveConstruct s old new _ _ _ _ y (Hne Hxs) Ho' Hn')| |].
    + done.
    + done.
    + simpl. rewrite (proj1 (proj2 Ho)). simpl.
      rewrite list_lookup_inserts_ge by (rewrite length_fmap, length_take; lia).
      apply (segment_lookup bo 0 (Some <$> xs) d (Some y)).
      * by rewrite length_fmap, drop_0.
      * by rewrite list_lookup_fmap, Hy.
    + simpl. rewrite length_inserts. lia.
    + intros [] s' (Ho'' & Hn'' & Hobjs'). simpl in Ho'', Hn''.
      rewrite Hoff0 in Hn''. rewrite (proj1 (proj2 Ho)) in Ho''. simpl in Ho'', Hn''.
      rewrite (take_S_r _ _ y) by done. rewrite !fmap_app. simpl.
      rewrite !list_inserts_snoc, !length_fmap, !length_take.
      replace (0 + d `min` length xs) with d by lia.
      split; [done|]. split; [done|congruence].
    + intros s' (Ht & Ho'' & Hn'' & Hobjs'). split; [done|]. split; [done|].
      split; [done|congruence].
  - lia.
  - simpl. done.
  - intros [] s (Ho' & Hn' & Hobjs). by rewrite firstn_all in Ho', Hn'.
Qed.

Lemma owns_null st : owns st (MkRaw nullptr 0) [].
Proof. by split. Qed.

Lemma wp_uninitialized_value_construct_n st m b p0 n :
  owns st m b → base p0 = base (buffer_ m) → off p0 + n ≤ length b →
  wp (uninitialized_value_construct_n p0 n) st
     (fun _ s => owns s m (list_inserts (off p0) (replicate n (Some default_value)) b) ∧
                 objs s = objs st)
     (fun s => threw ∧ objs s = objs st ∧ ∃ b', owns s m b').
Proof.
  intros Ho Hp0 Hlen. unfold uninitialized_value_construct_n.
  eapply wp_mono;
    [apply (wp_uninitialized_loop _ p0 (MkRaw nullptr 0) m
              (fun _ => [])
              (fun d => list_inserts (off p0) (replicate d (Some default_value)) b)
              (objs st) n) with (d := 0)| |].
  - intros Hpos. simpl.
    destruct (owns_inv st m b 0 Ho) as (a & -> & _); [lia|done].
  - done.
  - intros d i Hd Hi. exists default_value. rewrite list_lookup_inserts.
    + apply lookup_replicate_2. lia.
    + rewrite length_replicate. lia.
    + lia.
  - intros d s Hd (_ & Hn' & Hobjs).
    eapply wp_mono; [apply (wp_ValueConstruct s m _ (ptr_add p0 d) Hn')| |].
    + done.
    + simpl. rewrite length_inserts. lia.
    + intros [] s' (Hn'' & Hobjs'). split; [apply owns_null|]. split; [|congruence].
      simpl in Hn''. by rewrite replicate_S_end, list_inserts_snoc, length_replicate.
    + intros s' (Ht & Hn'' & Hobjs'). split; [done|]. split; [apply owns_null|].
      split; [done|congruence].
  - lia.
  - split; [apply owns_null|]. done.
  - intros [] s (_ & Hn' & Hobjs). done.
  - intros s (Ht & Hobjs & _ & Hb). done.
Qed.

(** *** Reserve *)

Lemma layout_relocated_all n l :
  length l ≤ n →
  list_inserts 0 (Some <$> l) (replicate n None) = layout n l.
Proof.
  intros. rewrite list_inserts_prefix by (rewrite length_fmap, length_replicate; lia).
  unfold layout. by rewrite length_fmap, drop_replicate.
Qed.

Lemma wp_Reserve st this v l n :
  objs st !! this = Some v → represents st v l → (Capacity v < n → fits n) →
  wp (Reserve this n) st
     (fun _ s => if n <=? Capacity v then s = st
                 else ∃ v', objs s = <[this := v']> (objs st) ∧
                            represents s v' l ∧ Capacity v' = n ∧ Size v' = Size v)
     (fun s => threw ∧ objs s = objs st ∧ Capacity v < n).
Proof.
  intros Hv Hrep Hfit. pose proof Hrep as (Hsize & Hcap & Hown).
  destruct v as [old sz]. simpl in *. subst sz.
  unfold Reserve, Capacity, Size, RawMemory_Capacity, GetAddress in *. simpl in *.
  apply wp_bind. eapply wp_get_vec; [done|]. simpl.
  destruct (Nat.leb_spec n (capacity_ old)) as [Hle|Hlt]; [by apply wp_ret|].
  apply wp_bind, wp_RawMemory_ctor; [by apply Hfit|lia| |].
  2:{ intros _ E. split; [by exists KAlloc, (clock st)|]. done. }
  intros _ E. set (new := MkRaw (Ptr (Some (length (heap st))) 0) n).
  pose proof (owns_allocated_new st n) as Hnew. fold new in Hnew.
  pose proof (owns_allocated_old st n _ _ Hown) as Hold.
  assert (base (buffer_ old) ≠ base (buffer_ new)) as Hne.
  { simpl. by eapply owns_fresh. }
  assert (take (length l) (layout (capacity_ old) l) = Some <$> l) as Hseg.
  { rewrite <- (drop_0 (layout _ _)), layout_segment by lia.
    by rewrite drop_0, firstn_all. }
  apply wp_bind.
  apply (wp_mono _ _
    (fun _ s => ∃ bo, owns s old bo ∧ owns s new (layout n l) ∧ objs s = objs st)
    _
    (fun s => threw ∧ objs s = objs st ∧ capacity_ old < n)).
  - apply wp_on_unwind.
    apply (wp_mono _ _
      (fun _ s => ∃ bo, owns s old bo ∧ owns s new (layout n l) ∧ objs s = objs st)
      _
      (fun s => threw ∧ objs s = objs st ∧ (∃ b, owns s new b))).
    + apply wp_bind.
      destruct nothrow_relocate.
      * eapply wp_mono;
          [apply (wp_uninitialized_move_n _ old new _ _ l (fun _ => Hne) Hold Hnew Hseg)| |].
        { rewrite length_replicate. lia. }
        -- intros [] s (Ho & Hn & Hobjs). rewrite layout_relocated_all in Hn by lia.
           eapply wp_mono;
             [apply (wp_destroy_at_range s old _ new _ (buffer_ old) 0 (length l)
                       (fun _ => False) ltac:(lia) Ho Hn eq_refl)| |done].
           { intros _. congruence. }
           { intros i Hi. destruct (lookup_lt_is_Some_2 l i) as [y Hy]; [lia|].
             exists (moved_from y). rewrite (proj1 (proj2 Hown)). simpl.
             rewrite list_lookup_inserts.
             - by rewrite Nat.sub_0_r, list_lookup_fmap, Hy.
             - rewrite length_fmap. lia.
             - rewrite length_layout by lia. lia. }
           intros [] s' (Ho' & Hnw' & Hobjs' & _). eexists. split; [done|].
           split; [done|]. by rewrite Hobjs', Hobjs.
        -- intros s (Ht & Hobjs & _ & Hb). done.
      * eapply wp_mono;
          [apply (wp_uninitialized_copy_n _ old new _ _ l (fun _ => Hne) Hold Hnew Hseg)| |].
        { rewrite length_replicate. lia. }
        -- intros [] s (Ho & Hn & Hobjs). rewrite layout_relocated_all in Hn by lia.
           eapply wp_mono;
             [apply (wp_destroy_at_range s old _ new _ (buffer_ old) 0 (length l)
                       (fun _ => False) ltac:(lia) Ho Hn eq_refl)| |done].
           { intros _. congruence. }
           { intros i Hi. destruct (lookup_lt_is_Some_2 l i) as [y Hy]; [lia|].
             exists y. rewrite (proj1 (proj2 Hown)). simpl.
             by apply layout_lookup_lt. }
           intros [] s' (Ho' & Hnw' & Hobjs' & _). eexists. split; [done|].
           split; [done|]. by rewrite Hobjs', Hobjs.
        -- intros s (Ht & Hobjs & _ & Hb). done.
    + done.
    + intros s (Ht & Hobjs & b & Hb).
      eapply wp_RawMemory_dtor; [exact Hb|done|]. intros a' Ha'. done.
  - intros [] s (bo & Ho & Hn & Hobjs). simpl.
    apply wp_bind, wp_set_vec.
    assert (represents (set_obj this (MkVec new (length l)) s) (MkVec new (length l)) l)
      as Hrep'.
    { split; [done|]. split; [simpl; lia|]. by apply owns_set_obj. }
    eapply wp_RawMemory_dtor; [by apply owns_set_obj| |].
    + intros _. exists (MkVec new (length l)). split; [simpl; by rewrite Hobjs|]. done.
    + intros a Ha. exists (MkVec new (length l)). split; [simpl; by rewrite Hobjs|].
      split; [|done]. destruct Hrep' as (? & ? & Hown').
      split; [done|]. split; [done|].
      apply owns_set_block_ne; [done|].
      simpl in Ha. intros E'. apply Hne. rewrite Ha. symmetry. exact E'.
  - done.
Qed.

(** *** Resize *)

Lemma layout_truncate cap l n :
  n ≤ length l → length l ≤ cap →
  list_inserts n (replicate (length l - n) None) (layout cap l) = layout cap (take n l).
Proof.
  intros Hn Hcap. unfold layout.
  rewrite <- (take_drop n l) at 2. rewrite fmap_app, <- app_assoc.
  replace n with (length (Some <$> take n l) + 0) at 1
    by (rewrite length_fmap, length_take; lia).
  rewrite list_inserts_app_r. f_equal.
  rewrite list_inserts_0_r
    by (rewrite length_replicate, length_fmap, length_drop; lia).
  rewrite <- replicate_add, length_take. f_equal. lia.
Qed.

Lemma layout_extend cap l (k : nat) (d : T) :
  length l + k ≤ cap →
  list_inserts (length l) (replicate k (Some d)) (layout cap l)
  = layout cap (l ++ replicate k d).
Proof.
  intros Hcap. unfold layout.
  replace (length l) with (length (Some <$> l) + 0) at 1
    by (rewrite length_fmap; lia).
  rewrite list_inserts_app_r, fmap_app, <- app_assoc. f_equal.
  replace (cap - length l) with (k + (cap - length (l ++ replicate k d)))
    by (rewrite length_app, length_replicate; lia).
  rewrite replicate_add, list_inserts_0_r by (by rewrite !length_replicate).
  by rewrite fmap_replicate.
Qed.

Lemma wp_set_size st this v n (Q : unit → machine → Prop) R :
  objs st !! this = Some v →
  Q tt (set_obj this (MkVec (data_ v) n) st) →
  wp (set_size this n) st Q R.
Proof.
  intros Hv HQ. unfold set_size. apply wp_bind. eapply wp_get_vec; [done|].
  by apply wp_set_vec.
Qed.

Lemma wp_Resize st this v l n :
  objs st !! this = Some v → represents st v l → (Capacity v < n → fits n) →
  wp (Resize this n) st
     (fun _ s => ∃ v', objs s = <[this := v']> (objs st) ∧ Size v' = n ∧
                  (n ≤ Size v →
                     data_ v' = data_ v ∧ represents s v' (take n l) ∧
                     clock s = clock st) ∧
                  (Size v < n →
                     represents s v' (l ++ replicate (n - Size v) default_value)))
     (fun s => threw ∧ Size v < n ∧
               ∃ v', objs s !! this = Some v' ∧ Size v' = Size v).
Proof.
  intros Hv Hrep Hfit. pose proof Hrep as (Hsize & Hcap & Hown).
  unfold Resize, Size. apply wp_bind. eapply wp_get_vec; [done|].
  apply wp_bind.
  destruct (Nat.leb_spec n (size_ v)) as [Hle|Hlt].
  - (* shrink *)
    unfold GetAddress.
    eapply wp_mono;
      [apply (wp_destroy_at_range st (data_ v) _ (MkRaw nullptr 0) [] (buffer_ (data_ v))
                n (size_ v) (fun _ => False) Hle Hown (owns_null st) eq_refl)| |done].
    + intros Hlt. simpl. destruct (owns_inv st _ _ n Hown) as (a & -> & _); [|done].
      rewrite length_layout; lia.
    + intros i Hi. destruct (lookup_lt_is_Some_2 l i) as [y Hy]; [lia|].
      exists y. rewrite (proj1 (proj2 Hown)). by apply layout_lookup_lt.
    + intros [] s (Ho & _ & Hobjs & Hclock).
      eapply wp_set_size; [by rewrite Hobjs|].
      exists (MkVec (data_ v) n). simpl. split; [by rewrite Hobjs|]. split; [done|].
      split; [|lia]. intros _. split; [done|]. split; [|done].
      split; [simpl; rewrite length_take; lia|]. split; [simpl; lia|].
      apply owns_set_obj. simpl.
      rewrite (proj1 (proj2 Hown)), Hsize in Ho. simpl in Ho.
      rewrite layout_truncate in Ho by lia. done.
  - (* grow *)
    apply wp_bind.
    eapply wp_mono; [by apply wp_Reserve| |].
    2:{ intros s (Ht & Hobjs & _). split; [done|]. split; [done|].
        exists v. by rewrite Hobjs. }
    intros [] s Hs.
    assert (∃ v1, objs s = <[this := v1]> (objs st) ∧ represents s v1 l ∧
                  n ≤ capacity_ (data_ v1) ∧ size_ v1 = size_ v)
      as (v1 & Hobjs1 & Hrep1 & Hcap1 & Hsize1).
    { unfold Capacity, RawMemory_Capacity, Size in Hs.
      destruct (Nat.leb_spec n (capacity_ (data_ v))).
      - subst s. exists v. by rewrite insert_id.
      - destruct Hs as (v1 & ? & ? & ? & ?). exists v1. split; [done|]. split; [done|]. lia. }
    pose proof Hrep1 as (Hs1 & Hc1 & Hown1).
    apply wp_bind. eapply wp_get_vec; [by rewrite Hobjs1, lookup_insert_eq|].
    unfold uninitialized_value_construct, GetAddress, ptr_diff. simpl.
    rewrite decide_True by done. rewrite decide_True by lia.
    eapply wp_mono.
    { apply wp_bind, wp_ret.
      apply (wp_uninitialized_value_construct_n s (data_ v1) _
               (ptr_add (buffer_ (data_ v1)) (size_ v1)) _ Hown1 eq_refl).
      simpl. rewrite (proj1 (proj2 Hown1)), length_layout by lia. lia. }
    + intros [] s' (Ho' & Hobjs').
      eapply wp_set_size; [by rewrite Hobjs', Hobjs1, lookup_insert_eq|].
      exists (MkVec (data_ v1) n). simpl.
      split; [by rewrite Hobjs', Hobjs1, insert_insert_eq|]. split; [done|].
      split; [lia|]. intros _.
      split; [simpl; rewrite length_app, length_replicate; lia|]. split; [simpl; lia|].
      apply owns_set_obj. simpl in *.
      rewrite (proj1 (proj2 Hown1)) in Ho'. simpl in Ho'.
      replace (size_ v1 + n - (size_ v1 + size_ v1)) with (n - size_ v) in Ho' by lia.
      rewrite Hs1 in Ho' at 1. rewrite layout_extend in Ho' by lia. by rewrite <- Hsize1.
    + intros s' (Ht & Hobjs' & _). split; [done|]. split; [done|].
      exists v1. rewrite Hobjs', Hobjs1, lookup_insert_eq. done.
Qed.

Lemma wp_cases {A} (m : M A) st Q R :
  wp m st Q R →
  (∃ a s, m st = Ok a s ∧ Q a s) ∨ (∃ s, m st = Throw s ∧ R s).
Proof. unfold wp. destruct (m st); [eauto|eauto|done]. Qed.


(** *** Insertion *)


Lemma ptr_diff_add p i : ptr_diff (ptr_add p i) p = Some i.
Proof.
  unfold ptr_diff, ptr_add. simpl. rewrite decide_True by done.
  rewrite decide_True by lia. f_equal. lia.
Qed.

Lemma ptr_diff_add_add p i j :
  j ≤ i → ptr_diff (ptr_add p i) (ptr_add p j) = Some (i - j).
Proof.
  intros Hle. unfold ptr_diff, ptr_add. simpl. rewrite decide_True by done.
  rewrite decide_True by lia. f_equal. lia.
Qed.

Lemma layout_insert cap l i (w : T) :
  i < length l → <[i := Some w]> (layout cap l) = layout cap (<[i := w]> l).
Proof.
  intros Hi. unfold layout. rewrite insert_app_l by (by rewrite length_fmap).
  by rewrite list_fmap_insert, length_insert.
Qed.

(** Moving between two slots of one storage. *)
Lemma wp_MoveConstruct_same st m b dst src y :
  owns st m b →
  base src = base (buffer_ m) → base dst = base (buffer_ m) →
  b !! off src = Some (Some y) → off dst < length b → off dst ≠ off src →
  wp (MoveConstruct dst src) st
     (fun _ s => owns s m (<[off src := Some (moved_from y)]> (<[off dst := Some y]> b)) ∧
                 objs s = objs st)
     (fun s => threw ∧ owns s m b ∧ objs s = objs st).
Proof.
  intros Ho Hsrc Hdst Hy Hlt Hne. unfold MoveConstruct.
  apply wp_bind. eapply (wp_load_at _ m b); [done..|].
  apply wp_bind, wp_tick; intros E.
  - apply wp_bind. eapply (wp_write_slot_at _ m b); [by apply owns_ticked|done..|].
    intros a Ha.
    eapply (wp_store_at _ m (<[off dst := Some y]> b)).
    { eapply owns_set_block_eq; [by apply owns_ticked|done|by rewrite length_insert]. }
    { done. }
    { by rewrite list_lookup_insert_ne. }
    intros a' Ha'. split; [|done].
    eapply owns_set_block_eq; [|done|by rewrite length_insert].
    eapply owns_set_block_eq; [by apply owns_ticked|done|by rewrite length_insert].
  - split; [by exists KMove, (clock st)|]. done.
Qed.

Lemma wp_MoveAssign_same st m b dst src y w :
  owns st m b →
  base src = base (buffer_ m) → base dst = base (buffer_ m) →
  b !! off src = Some (Some y) → b !! off dst = Some (Some w) →
  off dst ≠ off src →
  wp (MoveAssign dst src) st
     (fun _ s => owns s m (<[off src := Some (moved_from y)]> (<[off dst := Some y]> b)) ∧
                 objs s = objs st)
     (fun s => threw ∧ owns s m b ∧ objs s = objs st).
Proof.
  intros Ho Hsrc Hdst Hy Hw Hne. unfold MoveAssign.
  apply wp_bind. eapply (wp_load_at _ m b); [done..|].
  apply wp_bind. eapply (wp_load_at _ m b); [done..|].
  apply wp_bind, wp_tick; intros E.
  - apply wp_bind. eapply (wp_store_at _ m b); [by apply owns_ticked|done..|].
    intros a Ha.
    eapply (wp_store_at _ m (<[off dst := Some y]> b)).
    { eapply owns_set_block_eq; [by apply owns_ticked|done|by rewrite length_insert]. }
    { done. }
    { by rewrite list_lookup_insert_ne. }
    intros a' Ha'. split; [|done].
    eapply owns_set_block_eq; [|done|by rewrite length_insert].
    eapply owns_set_block_eq; [by apply owns_ticked|done|by rewrite length_insert].
  - split; [by exists KMoveAssign, (clock st)|]. done.
Qed.

Lemma wp_MoveAssignLocal st m b dst x w :
  owns st m b → base dst = base (buffer_ m) →
  b !! off dst = Some (Some w) →
  wp (MoveAssignLocal dst x) st
     (fun _ s => owns s m (<[off dst := Some x]> b) ∧ objs s = objs st)
     (fun s => threw ∧ owns s m b ∧ objs s = objs st).
Proof.
  intros Ho Hdst Hw. unfold MoveAssignLocal.
  apply wp_bind. eapply (wp_load_at _ m b); [done..|].
  apply wp_bind, wp_tick; intros E.
  - eapply (wp_store_at _ m b); [by apply owns_ticked|done..|].
    intros a Ha. split; [|done].
    eapply owns_set_block_eq; [by apply owns_ticked|done|by rewrite length_insert].
  - split; [by exists KMoveAssign, (clock st)|]. done.
Qed.

Lemma length_insert_at q (w : T) l : length (insert_at q w l) = S (length l).
Proof.
  unfold insert_at. rewrite length_app. simpl. rewrite length_take, length_drop. lia.
Qed.

Lemma insert_at_lookup_lt q (w : T) l i :
  i < q → q ≤ length l → insert_at q w l !! i = l !! i.
Proof.
  intros Hi Hq. unfold insert_at.
  rewrite lookup_app_l by (rewrite length_take; lia). by rewrite lookup_take_lt.
Qed.

Lemma insert_at_lookup_eq q (w : T) l : q ≤ length l → insert_at q w l !! q = Some w.
Proof.
  intros Hq. unfold insert_at.
  rewrite lookup_app_r by (rewrite length_take; lia).
  rewrite length_take. by replace (q - q `min` length l) with 0 by lia.
Qed.

Lemma insert_at_set q (w x : T) l :
  q ≤ length l → <[q := x]> (insert_at q w l) = insert_at q x l.
Proof.
  intros Hq. unfold insert_at.
  rewrite insert_app_r_alt by (rewrite length_take; lia).
  rewrite length_take. by replace (q - q `min` length l) with 0 by lia.
Qed.

(** One step of the backward shift: the hole moves one slot down. *)
Lemma insert_at_shift q (w z f : T) l :
  l !! q = Some z →
  <[q := f]> (<[S q := z]> (insert_at (S q) w l)) = insert_at q f l.
Proof.
  intros Hz. assert (q < length l) as Hq by (by eapply lookup_lt_Some).
  unfold insert_at. rewrite (take_S_r _ _ z) by done.
  rewrite (drop_S l z q) by done.
  assert (length (take q l) = q) as Hlen by (rewrite length_take; lia).
  rewrite <- app_assoc. simpl.
  rewrite insert_app_r_alt by lia. rewrite Hlen.
  replace (S q - q) with 1 by lia. simpl.
  rewrite insert_app_r_alt by lia. rewrite Hlen.
  by replace (q - q) with 0 by lia.
Qed.

Lemma insert_at_end l (y : T) : insert_at (length l) y l = l ++ [y].
Proof. unfold insert_at. by rewrite firstn_all, drop_all. Qed.

(** [std::move_backward] inside one storage: the hole at position
    [p + j] travels down to position [p]. *)
Lemma wp_move_backward_n st0 m cap l (q0 j : nat) : ∀ st (last d_last : ptr) (w : T),
  owns st m (layout cap (insert_at (q0 + j) w l)) → objs st = objs st0 →
  q0 + j ≤ length l → length l < cap →
  base last = base (buffer_ m) → base d_last = base (buffer_ m) →
  off last = q0 + j → off d_last = S (q0 + j) →
  wp (move_backward_n j last d_last) st
     (fun _ s => ∃ w', owns s m (layout cap (insert_at q0 w' l)) ∧ objs s = objs st0)
     (fun _ => threw).
Proof.
  induction j as [|j IH]; intros st last d_last w Ho Hobjs Hle Hcap Hbl Hbd Hol Hod;
    simpl.
  - apply wp_ret. exists w. by rewrite Nat.add_0_r in Ho.
  - unfold ptr_sub. rewrite Hol, Hod. rewrite !decide_True by lia. simpl.
    apply wp_bind, wp_ret. apply wp_bind, wp_ret. apply wp_bind.
    replace (q0 + S j) with (S (q0 + j)) in * by lia.
    destruct (lookup_lt_is_Some_2 l (q0 + j)) as [z Hz]; [lia|].
    eapply wp_mono;
      [apply (wp_MoveAssign_same st m _ _ _ z w Ho)| |by intros s [? _]].
    + done.
    + done.
    + simpl. rewrite ?Nat.sub_0_r.
      apply layout_lookup_lt. by rewrite insert_at_lookup_lt by lia.
    + simpl. rewrite ?Nat.sub_0_r.
      apply layout_lookup_lt. rewrite insert_at_lookup_eq; [done|lia].
    + simpl. lia.
    + intros [] s (Ho' & Hobjs'). simpl in Ho'. rewrite ?Nat.sub_0_r in Ho'.
      rewrite !layout_insert in Ho'
        by (rewrite ?length_insert, length_insert_at; lia).
      rewrite (insert_at_shift _ _ z) in Ho' by done.
      eapply IH; [exact Ho'|congruence|lia|done|done|done|simpl; lia|simpl; lia].
Qed.

Lemma insert_at_last q (y f : T) l :
  l !! q = Some y → S q = length l → <[q := f]> (l ++ [y]) = insert_at q f l.
Proof.
  intros Hy Hq. rewrite <- (insert_at_shift q y y f l Hy). f_equal.
  rewrite Hq, insert_at_end. symmetry. apply list_insert_id.
  by rewrite lookup_app_r, Nat.sub_diag.
Qed.

Lemma drop_list_inserts_ge {A} lo (k b : list A) q :
  lo + length k ≤ q → drop q (list_inserts lo k b) = drop q b.
Proof.
  intros Hq. apply list_eq. intros i. rewrite !lookup_drop.
  apply list_lookup_inserts_ge. lia.
Qed.

(** The new block after a growth cycle of an insertion at position [q]. *)
Lemma layout_emplaced n' l q x :
  q ≤ length l → length l < n' →
  list_inserts (q + 1) (Some <$> drop q l)
    (list_inserts 0 (Some <$> take q l) (<[q := Some x]> (replicate n' None)))
  = layout n' (insert_at q x l).
Proof.
  intros Hq Hn.
  rewrite (list_inserts_prefix (Some <$> take q l))
    by (rewrite length_fmap, length_take, length_insert, length_replicate; lia).
  rewrite length_fmap, length_take. replace (q `min` length l) with q by lia.
  rewrite drop_insert_ge by lia. rewrite Nat.sub_diag, drop_replicate.
  replace (n' - q) with (S (n' - q - 1)) by lia. simpl.
  replace ((Some <$> take q l) ++ Some x :: replicate (n' - q - 1) None)
    with (((Some <$> take q l) ++ [Some x]) ++ replicate (n' - q - 1) None)
    by (by rewrite <- app_assoc).
  replace (q + 1) with (length ((Some <$> take q l) ++ [Some x]) + 0)
    by (rewrite length_app, length_fmap, length_take; simpl; lia).
  rewrite list_inserts_app_r.
  rewrite list_inserts_prefix
    by (rewrite length_fmap, length_drop, length_replicate; lia).
  rewrite length_fmap, length_drop, drop_replicate.
  unfold layout, insert_at. rewrite length_app. simpl.
  rewrite length_take, length_drop, fmap_app. simpl.
  rewrite <- !app_assoc. simpl. do 4 f_equal. lia.
Qed.

Lemma wp_tick_quiet k st (Q : unit → machine → Prop) (R : machine → Prop) :
  quiet → Q tt (ticked st) → wp (tick k) st Q R.
Proof. intros Hq HQ. apply wp_tick; [done|]. intros E. by rewrite Hq in E. Qed.

Lemma wp_copy_range_to st old new bo bn (xs : list T) lo hi sh :
  hi = lo + length xs →
  base (buffer_ old) ≠ base (buffer_ new) →
  owns st old bo → owns st new bn →
  take (length xs) (drop lo bo) = Some <$> xs →
  lo + sh + length xs ≤ length bn →
  wp (for_range lo hi (fun i =>
        CopyConstruct (ptr_add (buffer_ new) (i + sh)) (ptr_add (buffer_ old) i))) st
     (fun _ s => owns s old bo ∧
                 owns s new (list_inserts (lo + sh) (Some <$> xs) bn) ∧
                 objs s = objs st ∧ (xs ≠ [] → succeeded KCopy))
     (fun s => threw ∧ owns s old bo ∧ (∃ b, owns s new b) ∧ objs s = objs st).
Proof. intros ->. apply wp_copy_range. Qed.

Lemma wp_move_range_to st old new bo bn (xs : list T) lo hi sh :
  hi = lo + length xs →
  base (buffer_ old) ≠ base (buffer_ new) →
  owns st old bo → owns st new bn →
  take (length xs) (drop lo bo) = Some <$> xs →
  lo + sh + length xs ≤ length bn →
  wp (for_range lo hi (fun i =>
        MoveConstruct (ptr_add (buffer_ new) (i + sh)) (ptr_add (buffer_ old) i))) st
     (fun _ s => owns s old (list_inserts lo (Some ∘ moved_from <$> xs) bo) ∧
                 owns s new (list_inserts (lo + sh) (Some <$> xs) bn) ∧
                 objs s = objs st)
     (fun s => threw ∧ (∃ b, owns s old b) ∧ (∃ b, owns s new b) ∧ objs s = objs st).
Proof. intros ->. apply wp_move_range. Qed.

Lemma relocate_body_shift_eq new old i s (c : ptr → ptr → M unit) :
  i ≤ capacity_ new → i < capacity_ old →
  (d <- RawMemory_plus new i ;; e <- RawMemory_index old i ;; c (ptr_add d 1) e) s
  = c (ptr_add (buffer_ new) (i + 1)) (ptr_add (buffer_ old) i) s.
Proof.
  intros Hn Ho.
  rewrite (relocate_body_eq new old i s (fun d e => c (ptr_add d 1) e)) by done.
  by rewrite ptr_add_add.
Qed.

(** [Emplace] when nothing throws. *)
Lemma wp_Emplace st this v l k x q :
  quiet → objs st !! this = Some v → represents st v l → q ≤ length l →
  wp (Emplace this (ptr_add (vbegin v) q) k x) st
     (fun r s => ∃ v', objs s = <[this := v']> (objs st) ∧
                   represents s v' (emplaced (Capacity v) l q x) ∧
                   Capacity v' = (if Size v =? Capacity v then grow (Capacity v)
                                  else Capacity v) ∧
                   r = ptr_add (vbegin v') q)
     (fun _ => False).
Proof.
  intros Hq Hv Hrep Hle. pose proof Hrep as (Hsize & Hcap & Hown).
  destruct v as [old n]. simpl in *. subst n.
  pose proof (proj1 (proj2 Hown)) as Hoff.
  unfold Emplace, Capacity, Size, RawMemory_Capacity, vbegin, vend, GetAddress. simpl.
  apply wp_bind. eapply wp_get_vec; [done|]. simpl.
  rewrite ptr_diff_add. apply wp_bind, wp_ret.
  unfold emplaced.
  destruct (Nat.eqb_spec (length l) (capacity_ old)) as [Hfull|Hroom]; simpl.
  - (* growth cycle *)
    replace (length l <? capacity_ old) with false
      by (symmetry; apply Nat.ltb_ge; lia). simpl.
    set (n' := if length l =? 0 then 1 else length l * 2).
    assert (n' = grow (capacity_ old) ∧ length l < n') as [Hn' Hlt].
    { unfold n', grow. rewrite <- Hfull. destruct (Nat.eqb_spec (length l) 0); lia. }
    apply wp_bind, wp_RawMemory_of_size; [lia| |intros _ E; by rewrite Hq in E].
    intros _ _. set (new := MkRaw (Ptr (Some (length (heap st))) 0) n').
    pose proof (owns_allocated_new st n') as Hnew. fold new in Hnew.
    pose proof (owns_allocated_old st n' _ _ Hown) as Hold.
    assert (base (buffer_ old) ≠ base (buffer_ new)) as Hne.
    { simpl. by eapply owns_fresh. }
    apply wp_bind.
    apply (wp_mono _ _
      (fun r s => ∃ bo, owns s old bo ∧
                        owns s new (layout n' (insert_at q x l)) ∧
                        objs s = objs st ∧ r = ptr_add (buffer_ new) q)
      _ (fun _ => False)); [|
      |done].
    + apply wp_on_unwind.
      apply (wp_mono _ _
        (fun r s => ∃ bo, owns s old bo ∧
                          owns s new (layout n' (insert_at q x l)) ∧
                          objs s = objs st ∧ r = ptr_add (buffer_ new) q)
        _ (fun _ => False)); [| |done].
      2:{ done. }
      apply wp_bind, wp_RawMemory_plus; [simpl; lia|].
      apply wp_bind, wp_tick_quiet; [done|].
      apply wp_bind.
      eapply wp_construct; [by apply owns_ticked|rewrite length_replicate; lia|].
      intros a' Ha'. set (s1 := set_block a' _ _).
      assert (owns s1 new (<[q := Some x]> (replicate n' None))) as Hnew1.
      { eapply owns_set_block_eq; [by apply owns_ticked|done|].
        by rewrite length_insert. }
      assert (owns s1 old (layout (capacity_ old) l)) as Hold1.
      { apply owns_set_block_ne; [by apply owns_ticked|]. intros E. apply Hne.
        by rewrite E, Ha'. }
      assert (take (length (take q l)) (drop 0 (layout (capacity_ old) l))
              = Some <$> take q l) as Hseg1.
      { rewrite length_take. replace (q `min` length l) with q by lia.
        rewrite layout_segment by lia. by rewrite drop_0. }
      assert (take (length (drop q l)) (drop q (layout (capacity_ old) l))
              = Some <$> drop q l) as Hseg2.
      { rewrite length_drop, layout_segment by lia.
        by rewrite take_ge by (rewrite length_drop; lia). }
      destruct nothrow_relocate.
      * apply wp_bind, wp_try_catch.
        apply (wp_for_range_ext _ _ _ (fun i =>
          MoveConstruct (ptr_add (buffer_ new) (i + 0)) (ptr_add (buffer_ old) i))).
        { intros i s Hi. rewrite Nat.add_0_r.
          apply (relocate_body_eq new old i s MoveConstruct); simpl; lia. }
        eapply wp_mono;
          [eapply (wp_move_range_to s1 old new _ _ (take q l) 0 q 0)| |];
          [rewrite length_take; lia|done|exact Hold1|exact Hnew1|exact Hseg1
          |rewrite length_take, length_insert, length_replicate; lia| |].
        2:{ intros s (Ht & _). destruct (quiet_not_threw Hq Ht). }
        intros [] s2 (Ho2 & Hn2 & Hobjs2).
        apply wp_bind, wp_try_catch.
        apply (wp_for_range_ext _ _ _ (fun i =>
          MoveConstruct (ptr_add (buffer_ new) (i + 1)) (ptr_add (buffer_ old) i))).
        { intros i s Hi.
          apply (relocate_body_shift_eq new old i s MoveConstruct); simpl; lia. }
        eapply wp_mono;
          [eapply (wp_move_range_to s2 old new _ _ (drop q l) q (length l) 1)| |];
          [rewrite length_drop; lia|done|exact Ho2|exact Hn2|
          |rewrite length_drop, length_inserts, length_insert, length_replicate; lia| |].
        { rewrite drop_list_inserts_ge; [exact Hseg2|].
          rewrite length_fmap, length_take. lia. }
        2:{ intros s (Ht & _). destruct (quiet_not_threw Hq Ht). }
        intros [] s3 (Ho3 & Hn3 & Hobjs3). simpl in Hn3.
        rewrite layout_emplaced in Hn3 by lia.
        apply wp_bind.
        eapply wp_mono;
          [apply (wp_destroy_at_range s3 old _ new _ (buffer_ old) 0 (length l)
                    (fun _ => False) ltac:(lia) Ho3 Hn3 eq_refl)| |done].
        { intros _ E. apply Hne. by rewrite E. }
        { intros i Hi. rewrite Hoff. simpl.
          destruct (lookup_lt_is_Some_2 l i) as [y Hy]; [lia|].
          exists (moved_from y). destruct (decide (i < q)).
          - rewrite list_lookup_inserts_lt by done.
            rewrite list_lookup_inserts;
              [|rewrite length_fmap, length_take; lia|rewrite length_layout; lia].
            rewrite Nat.sub_0_r, list_lookup_fmap, lookup_take_lt by done.
            by rewrite Hy.
          - rewrite list_lookup_inserts;
              [|rewrite length_fmap, length_drop; lia
               |rewrite length_inserts, length_layout; lia].
            rewrite list_lookup_fmap, lookup_drop.
            replace (q + (i - q)) with i by lia. by rewrite Hy. }
        intros [] s4 (Ho4 & Hn4 & Hobjs4 & _). apply wp_ret.
        eexists. split; [done|]. split; [done|]. split; [|done].
        by rewrite Hobjs4, Hobjs3, Hobjs2.
      * apply wp_bind, wp_try_catch.
        apply (wp_for_range_ext _ _ _ (fun i =>
          CopyConstruct (ptr_add (buffer_ new) (i + 0)) (ptr_add (buffer_ old) i))).
        { intros i s Hi. rewrite Nat.add_0_r.
          apply (relocate_body_eq new old i s CopyConstruct); simpl; lia. }
        eapply wp_mono;
          [eapply (wp_copy_range_to s1 old new _ _ (take q l) 0 q 0)| |];
          [rewrite length_take; lia|done|exact Hold1|exact Hnew1|exact Hseg1
          |rewrite length_take, length_insert, length_replicate; lia| |].
        2:{ intros s (Ht & _). destruct (quiet_not_threw Hq Ht). }
        intros [] s2 (Ho2 & Hn2 & Hobjs2 & _).
        apply wp_bind, wp_try_catch.
        apply (wp_for_range_ext _ _ _ (fun i =>
          CopyConstruct (ptr_add (buffer_ new) (i + 1)) (ptr_add (buffer_ old) i))).
        { intros i s Hi.
          apply (relocate_body_shift_eq new old i s CopyConstruct); simpl; lia. }
        eapply wp_mono;
          [eapply (wp_copy_range_to s2 old new _ _ (drop q l) q (length l) 1)| |];
          [rewrite length_drop; lia|done|exact Ho2|exact Hn2|exact Hseg2
          |rewrite length_drop, length_inserts, length_insert, length_replicate; lia| |].
        2:{ intros s (Ht & _). destruct (quiet_not_threw Hq Ht). }
        intros [] s3 (Ho3 & Hn3 & Hobjs3 & _). simpl in Hn3.
        rewrite layout_emplaced in Hn3 by lia.
        apply wp_bind.
        eapply wp_mono;
          [apply (wp_destroy_at_range s3 old _ new _ (buffer_ old) 0 (length l)
                    (fun _ => False) ltac:(lia) Ho3 Hn3 eq_refl)| |done].
        { intros _ E. apply Hne. by rewrite E. }
        { intros i Hi. rewrite Hoff. simpl.
          destruct (lookup_lt_is_Some_2 l i) as [y Hy]; [lia|].
          exists y. by apply layout_lookup_lt. }
        intros [] s4 (Ho4 & Hn4 & Hobjs4 & _). apply wp_ret.
        eexists. split; [done|]. split; [done|]. split; [|done].
        by rewrite Hobjs4, Hobjs3, Hobjs2.
    + intros r s (bo & Ho & Hn & Hobjs & ->). simpl.
      apply wp_bind, wp_set_vec.
      apply wp_bind.
      eapply wp_set_size; [simpl; by rewrite lookup_insert_eq|]. simpl.
      set (v' := MkVec new (S (length l))).
      assert (∀ s', owns s' new (layout n' (insert_at q x l)) →
                represents s' v' (insert_at q x l)) as Hrep'.
      { intros s' Hs'. split; [by rewrite length_insert_at|]. split; [simpl; lia|done]. }
      apply wp_bind.
      eapply wp_RawMemory_dtor;
        [apply owns_set_obj, owns_set_obj; exact Ho| |].
      * intros _. apply wp_ret. exists v'.
        split; [simpl; by rewrite insert_insert_eq, Hobjs|].
        split; [by apply Hrep'|]. done.
      * intros a Ha. apply wp_ret. exists v'.
        split; [simpl; by rewrite insert_insert_eq, Hobjs|].
        split; [|done]. apply Hrep'.
        apply owns_set_block_ne; [done|]. simpl in Ha. intros E. apply Hne.
        rewrite Ha. symmetry. exact E.
  - (* room left *)
    assert (length l < capacity_ old) as Hlt by lia.
    replace (length l <? capacity_ old) with true
      by (symmetry; by apply Nat.ltb_lt).
    simpl. apply wp_bind.
    apply (wp_mono _ _
      (fun _ s => owns s old
                    (layout (capacity_ old)
                       (if (0 <? length l) && (length l <=? q + 1)
                        then match last l with
                             | Some y => insert_at (length l - 1) (moved_from y) l
                             | None => l
                             end
                        else insert_at q x l)) ∧
                  length (if (0 <? length l) && (length l <=? q + 1)
                          then match last l with
                               | Some y => insert_at (length l - 1) (moved_from y) l
                               | None => l
                               end
                          else insert_at q x l) = S (length l) ∧
                  objs s = objs st)
      _ (fun _ => False)); [| |done].
    + destruct (Nat.ltb_spec 0 (length l)) as [Hpos|Hzero]; simpl.
      * (* a non-empty vector *)
        apply wp_bind, wp_tick_quiet; [done|].
        apply wp_bind, wp_RawMemory_plus; [lia|].
        unfold ptr_sub. simpl. rewrite Hoff. simpl.
        rewrite decide_True by lia. apply wp_bind, wp_ret.
        destruct (lookup_lt_is_Some_2 l (length l - 1)) as [y Hy]; [lia|].
        assert (last l = Some y) as Hlast.
        { rewrite last_lookup. by replace (pred (length l)) with (length l - 1) by lia. }
        apply wp_bind.
        eapply wp_mono;
          [apply (wp_MoveConstruct_same (ticked st) old (layout (capacity_ old) l)
                    (ptr_add (buffer_ old) (length l))
                    (Ptr (base (buffer_ old)) (length l - 1)) y);
           [by apply owns_ticked|done|done| | |]| |].
        { simpl. by apply layout_lookup_lt. }
        { simpl. rewrite Hoff, length_layout; lia. }
        { simpl. rewrite Hoff. lia. }
        2:{ intros s (Ht & _). destruct (quiet_not_threw Hq Ht). }
        intros [] s1 (Ho1 & Hobjs1). simpl in Ho1. rewrite Hoff in Ho1.
        simpl in Ho1. rewrite layout_snoc in Ho1 by done.
        rewrite layout_insert in Ho1 by (rewrite length_app; simpl; lia).
        rewrite (insert_at_last (length l - 1) y) in Ho1 by (done || lia).
        destruct (Nat.ltb_spec (q + 1) (length l)) as [Hmid|Hend].
        -- replace (length l <=? q + 1) with false
             by (symmetry; apply Nat.leb_gt; lia).
           unfold move_backward, ptr_diff. simpl.
           rewrite decide_True by done. rewrite Hoff. simpl.
           rewrite decide_True by lia.
           apply wp_bind. apply wp_bind, wp_ret.
           eapply wp_mono;
             [eapply (wp_move_backward_n st old (capacity_ old) l q
                       (length l - 1 - q) s1 _ _ (moved_from y))|
             |intros s Ht; destruct (quiet_not_threw Hq Ht)].
           { by replace (q + (length l - 1 - q)) with (length l - 1) by lia. }
           { done. }
           { lia. }
           { done. }
           { done. }
           { done. }
           { simpl. lia. }
           { simpl. lia. }
           intros r s2 (w' & Ho2 & Hobjs2).
           apply wp_bind, wp_RawMemory_index; [lia|].
           eapply wp_mono;
             [eapply (wp_MoveAssignLocal s2 old _ _ x w' Ho2)| |].
           { done. }
           { simpl. rewrite Hoff. simpl. apply layout_lookup_lt.
             by apply insert_at_lookup_eq. }
           2:{ intros s (Ht & _). destruct (quiet_not_threw Hq Ht). }
           intros [] s3 (Ho3 & Hobjs3). simpl in Ho3. rewrite Hoff in Ho3.
           simpl in Ho3.
           rewrite layout_insert in Ho3 by (rewrite length_insert_at; lia).
           rewrite insert_at_set in Ho3 by done.
           split; [done|]. split; [by rewrite length_insert_at|congruence].
        -- replace (length l <=? q + 1) with true
             by (symmetry; apply Nat.leb_le; lia).
           rewrite Hlast. apply wp_ret.
           split; [done|]. split; [by rewrite length_insert_at|done].
      * (* an empty vector *)
        assert (l = []) as -> by (destruct l; [done|simpl in Hzero; lia]).
        assert (q = 0) as -> by (simpl in Hle; lia). simpl.
        apply wp_bind, wp_RawMemory_plus; [lia|].
        apply wp_bind, wp_tick_quiet; [done|].
        eapply wp_construct; [by apply owns_ticked|rewrite length_layout; simpl; lia|].
        intros a Ha. split; [|done].
        rewrite (layout_snoc _ [] x) by (simpl; lia).
        eapply owns_set_block_eq; [by apply owns_ticked|done|].
        rewrite !length_layout; simpl; lia.
    + intros [] s (Ho & Hlen & Hobjs).
      apply wp_bind.
      eapply wp_set_size; [by rewrite Hobjs|]. simpl.
      apply wp_ret. exists (MkVec old (S (length l))).
      split; [simpl; by rewrite Hobjs|]. split; [|done].
      split; [simpl; by rewrite Hlen|]. split; [simpl; lia|].
      by apply owns_set_obj.
Qed.

Lemma emplaced_inserted cap l q x :
  length l = cap ∨ l = [] ∨ q + 1 < length l →
  emplaced cap l q x = take q l ++ x :: drop q l.
Proof.
  intros H. unfold emplaced, insert_at.
  destruct (length l <? cap) eqn:E1, (0 <? length l) eqn:E2,
    (length l <=? q + 1) eqn:E3; simpl; try done.
  apply Nat.ltb_lt in E1, E2. apply Nat.leb_le in E3.
  destruct H as [H|[->|H]]; [lia|simpl in E2; lia|lia].
Qed.

Lemma emplaced_dropped cap l0 y q x :
  length (l0 ++ [y]) < cap → length (l0 ++ [y]) ≤ q + 1 →
  emplaced cap (l0 ++ [y]) q x = l0 ++ [moved_from y; y].
Proof.
  intros Hc Hq. unfold emplaced, insert_at.
  replace (length (l0 ++ [y]) <? cap) with true by (symmetry; by apply Nat.ltb_lt).
  replace (0 <? length (l0 ++ [y])) with true
    by (symmetry; apply Nat.ltb_lt; rewrite length_app; simpl; lia).
  replace (length (l0 ++ [y]) <=? q + 1) with true by (symmetry; by apply Nat.leb_le).
  simpl. rewrite last_snoc, length_app. simpl.
  replace (length l0 + 1 - 1) with (length l0) by lia.
  by rewrite take_app_length, drop_app_length.
Qed.

(** [PopBack] *)
Lemma wp_PopBack st this v l :
  objs st !! this = Some v → represents st v l → l ≠ [] →
  wp (PopBack this) st
     (fun _ s => objs s = <[this := MkVec (data_ v) (length l - 1)]> (objs st) ∧
                 represents s (MkVec (data_ v) (length l - 1)) (take (length l - 1) l) ∧
                 clock s = clock st)
     (fun _ => False).
Proof.
  intros Hv Hrep Hl. pose proof Hrep as (Hsize & Hcap & Hown).
  pose proof (proj1 (proj2 Hown)) as Hoff.
  assert (0 < length l) as Hpos by (destruct l; [done|simpl; lia]).
  unfold PopBack. apply wp_bind. eapply wp_get_vec; [done|].
  apply wp_bind, wp_RawMemory_plus; [done|].
  unfold ptr_sub. simpl. rewrite Hoff, Hsize. simpl.
  rewrite decide_True by lia. apply wp_bind, wp_ret. apply wp_bind.
  destruct (lookup_lt_is_Some_2 l (length l - 1)) as [y Hy]; [lia|].
  eapply (wp_Destroy_at _ (data_ v) _ _ y); [exact Hown|done| |].
  { simpl. by apply layout_lookup_lt. }
  intros a Ha. simpl.
  eapply wp_set_size; [done|].
  split; [done|]. split; [|done].
  split; [simpl; rewrite length_take; lia|]. split; [simpl; lia|].
  apply owns_set_obj. simpl.
  rewrite <- layout_truncate by lia.
  replace (length l - (length l - 1)) with 1 by lia. simpl.
  eapply owns_set_block_eq; [done..|]. by rewrite length_insert.
Qed.

(** *** Erase *)

(** One step of the forward shift: the hole moves one slot up. *)
Lemma insert_at_shift_up q (w z f : T) l :
  l !! q = Some z →
  <[S q := f]> (<[q := z]> (insert_at q w l)) = insert_at (S q) f l.
Proof.
  intros Hz. assert (q < length l) as Hq by (by eapply lookup_lt_Some).
  unfold insert_at. rewrite (take_S_r _ _ z) by done.
  rewrite (drop_S l z q) by done.
  assert (length (take q l) = q) as Hlen by (rewrite length_take; lia).
  rewrite insert_app_r_alt by lia. rewrite Hlen.
  replace (q - q) with 0 by lia. simpl.
  rewrite insert_app_r_alt by lia. rewrite Hlen.
  replace (S q - q) with 1 by lia. simpl.
  by rewrite <- app_assoc.
Qed.

Lemma insert_at_lookup_gt q (w : T) l i :
  q ≤ i → q ≤ length l → insert_at q w l !! S i = l !! i.
Proof.
  intros Hi Hq. unfold insert_at.
  rewrite lookup_app_r by (rewrite length_take; lia).
  rewrite length_take. replace (S i - q `min` length l) with (S (i - q)) by lia.
  simpl. rewrite lookup_drop. f_equal. lia.
Qed.

(** [std::move] inside one storage: the hole at position [q0] travels up
    to position [q0 + j]. *)
Lemma wp_move_n st0 m cap l (j : nat) : ∀ (q0 : nat) st (first d_first : ptr) (w : T),
  owns st m (layout cap (insert_at q0 w l)) → objs st = objs st0 →
  q0 + j ≤ length l → length l < cap →
  base first = base (buffer_ m) → base d_first = base (buffer_ m) →
  off first = S q0 → off d_first = q0 →
  wp (move_n j first d_first) st
     (fun r s => ∃ w', owns s m (layout cap (insert_at (q0 + j) w' l)) ∧
                   objs s = objs st0 ∧
                   base r = base (buffer_ m) ∧ off r = q0 + j)
     (fun _ => threw).
Proof.
  induction j as [|j IH]; intros q0 st first d_first w Ho Hobjs Hle Hcap Hbf Hbd Hof Hod;
    simpl.
  - apply wp_ret. exists w. rewrite Nat.add_0_r. done.
  - apply wp_bind.
    destruct (lookup_lt_is_Some_2 l q0) as [z Hz]; [lia|].
    eapply wp_mono;
      [apply (wp_MoveAssign_same st m _ d_first first z w Ho)| |by intros s [? _]].
    + done.
    + done.
    + rewrite Hof. apply layout_lookup_lt. by rewrite insert_at_lookup_gt by lia.
    + rewrite Hod. apply layout_lookup_lt. rewrite insert_at_lookup_eq; [done|lia].
    + lia.
    + intros [] s (Ho' & Hobjs'). rewrite Hof, Hod in Ho'.
      rewrite !layout_insert in Ho'
        by (rewrite ?length_insert, length_insert_at; lia).
      rewrite (insert_at_shift_up _ _ z) in Ho' by done.
      replace (q0 + S j) with (S q0 + j) by lia.
      eapply IH; [exact Ho'|congruence|lia|done|done|done|simpl; lia|simpl; lia].
Qed.

Lemma insert_at_delete q (y : T) l :
  l !! q = Some y → insert_at q y (take q l ++ drop (S q) l) = l.
Proof.
  intros Hy. assert (q < length l) as Hq by (by eapply lookup_lt_Some).
  unfold insert_at.
  rewrite take_app_length' by (rewrite length_take; lia).
  rewrite drop_app_length' by (rewrite length_take; lia).
  rewrite <- (drop_S l y q) by done. apply take_drop.
Qed.

Lemma wp_Erase st this v l q :
  objs st !! this = Some v → represents st v l → q < length l →
  wp (Erase this (ptr_add (vbegin v) q)) st
     (fun r s => objs s = <[this := MkVec (data_ v) (length l - 1)]> (objs st) ∧
                 represents s (MkVec (data_ v) (length l - 1))
                   (take q l ++ drop (S q) l) ∧
                 r = ptr_add (vbegin v) q)
     (fun _ => threw).
Proof.
  intros Hv Hrep Hlt. pose proof Hrep as (Hsize & Hcap & Hown).
  pose proof (proj1 (proj2 Hown)) as Hoff.
  set (l' := take q l ++ drop (S q) l).
  assert (length l' = length l - 1) as Hlen'.
  { unfold l'. rewrite length_app, length_take, length_drop. lia. }
  destruct (lookup_lt_is_Some_2 l q) as [y Hy]; [lia|].
  unfold Erase, vbegin, vend, GetAddress.
  apply wp_bind. eapply wp_get_vec; [done|].
  rewrite ptr_diff_add. apply wp_bind, wp_ret.
  apply wp_bind, wp_RawMemory_plus; [lia|].
  unfold std_move. rewrite ptr_add_add, ptr_diff_add_add, Hsize by lia.
  apply wp_bind. apply wp_bind, wp_ret.
  eapply wp_mono;
    [eapply (wp_move_n st (data_ v) (capacity_ (data_ v)) l' (length l - (q + 1)) q st
               _ _ y)| |done].
  { unfold l'. by rewrite insert_at_delete. }
  { done. }
  { lia. }
  { lia. }
  { done. }
  { done. }
  { simpl. rewrite Hoff. lia. }
  { simpl. rewrite Hoff. lia. }
  intros r s (w' & Ho & Hobjs & Hbr & Hor).
  replace (q + (length l - (q + 1))) with (length l') in Ho, Hor by lia.
  rewrite insert_at_end in Ho.
  apply wp_bind.
  eapply (wp_Destroy_at _ (data_ v) _ r w'); [exact Ho|done| |].
  { rewrite Hor. apply layout_lookup_lt. by rewrite lookup_app_r, Nat.sub_diag. }
  intros a Ha. apply wp_bind.
  eapply wp_set_size; [simpl; by rewrite Hobjs|].
  apply wp_bind, wp_ret.
  apply wp_RawMemory_plus; [lia|].
  split; [simpl; by rewrite Hobjs|]. split; [|done].
  split; [simpl; lia|]. split; [simpl; lia|].
  apply owns_set_obj. simpl.
  assert (<[off r := None]> (layout (capacity_ (data_ v)) (l' ++ [w']))
          = layout (capacity_ (data_ v)) l') as <-.
  { rewrite Hor. unfold layout.
    rewrite insert_app_l by (rewrite length_fmap, length_app; simpl; lia).
    rewrite fmap_app. simpl.
    rewrite insert_app_r_alt by (rewrite length_fmap; lia).
    rewrite length_fmap, Nat.sub_diag. simpl. rewrite <- app_assoc. simpl.
    rewrite length_app. simpl.
    by replace (capacity_ (data_ v) - length l')
      with (S (capacity_ (data_ v) - (length l' + 1))) by lia. }
  eapply owns_set_block_eq; [done..|]. by rewrite length_insert.
Qed.

(** *** Frames *)

Lemma frame_refl a st : frame a st st.
Proof. by intros m b _ H. Qed.

Lemma frame_trans a st s s' : frame a st s → frame a s s' → frame a st s'.
Proof. intros H1 H2 m b Hne Ho. by apply H2, H1. Qed.

Lemma wp_frame_all {A X} (P : X → Prop) (mm : M A) st
    (Q : X → A → machine → Prop) (R : machine → Prop) :
  wp mm st (fun _ _ => True) R →
  (∀ x, P x → wp mm st (Q x) R) →
  wp mm st (fun a s => ∀ x, P x → Q x a s) R.
Proof.
  unfold wp. intros H0 H. destruct (mm st) as [a s|s|]; [|done..].
  intros x Hx. by apply (H x Hx).
Qed.

Lemma wp_conj {A} (mm : M A) st (Q1 Q2 : A → machine → Prop) (R1 R2 : machine → Prop) :
  wp mm st Q1 R1 → wp mm st Q2 R2 →
  wp mm st (fun a s => Q1 a s ∧ Q2 a s) (fun s => R1 s ∧ R2 s).
Proof. unfold wp. destruct (mm st); done. Qed.

(** Destroying [p0 + lo, p0 + hi) touches the storage of [m] only. *)
Lemma wp_destroy_frame st m b p0 lo hi (R : machine → Prop) :
  lo ≤ hi →
  owns st m b →
  base p0 = base (buffer_ m) →
  (∀ i, lo ≤ i < hi → ∃ y, b !! (off p0 + i) = Some (Some y)) →
  wp (for_range lo hi (fun i => Destroy (ptr_add p0 i))) st
     (fun _ s => owns s m (list_inserts (off p0 + lo) (replicate (hi - lo) None) b) ∧
                 objs s = objs st ∧ clock s = clock st ∧
                 (lo < hi → frame (base (buffer_ m)) st s) ∧
                 (lo = hi → s = st))
     R.
Proof.
  intros Hle Hm Hp0 Hlive.
  assert (lo < hi → base (buffer_ (MkRaw nullptr 0)) ≠ base (buffer_ m)) as Hnull.
  { intros Hlt. simpl. destruct (Hlive lo) as [y Hy]; [lia|].
    destruct (owns_inv st m b (off p0 + lo) Hm) as (a & -> & _); [|done].
    by eapply lookup_lt_Some. }
  pose proof (wp_destroy_at_range st m b _ _ p0 lo hi R Hle Hm (owns_null st)
                Hp0 Hnull Hlive) as H0.
  assert (lo = hi → wp (for_range lo hi (fun i => Destroy (ptr_add p0 i))) st
                       (fun _ s => s = st) R) as Hsame.
  { intros ->. unfold for_range. rewrite Nat.sub_diag. by apply wp_ret. }
  unfold wp in *.
  destruct (for_range lo hi _ st) as [[] s|s|] eqn:E; [|done..].
  destruct H0 as (Ho & _ & Hobjs & Hclock).
  split; [done|]. split; [done|]. split; [done|]. split.
  - intros Hlt m3 b3 Hne Ho3.
    pose proof (wp_destroy_at_range st m b m3 b3 p0 lo hi R Hle Hm Ho3
                  Hp0 (fun _ => Hne) Hlive) as H3.
    unfold wp in H3. rewrite E in H3. by destruct H3 as (_ & ? & _).
  - intros Heq. by apply Hsame.
Qed.

Lemma frame_ticked a st : frame a st (ticked st).
Proof. by intros m b _ H. Qed.

Lemma frame_set_block a (ob : option (block T)) st : frame (Some a) st (set_block a ob st).
Proof. intros m b Hne Ho. by apply owns_set_block_ne. Qed.

Lemma frame_set_obj a this v st : frame a st (set_obj this v st).
Proof. by intros m b _ H. Qed.

Lemma frame_allocated a n st : frame a st (allocated n st).
Proof. intros m b _ Ho. by apply owns_allocated_old. Qed.

(** Copy construction, with the ownership of the source, of the
    destination and of everything else. *)
Lemma wp_CopyConstruct_frame st old new bo bn dst src y :
  owns st old bo → owns st new bn →
  base src = base (buffer_ old) → base dst = base (buffer_ new) →
  bo !! off src = Some (Some y) → off dst < length bn →
  wp (CopyConstruct dst src) st
     (fun _ s => owns s new (<[off dst := Some y]> bn) ∧
                 frame (base (buffer_ new)) st s ∧ objs s = objs st)
     (fun s => threw ∧ s = ticked st).
Proof.
  intros Ho Hn Hsrc Hdst Hy Hlt. unfold CopyConstruct.
  apply wp_bind. eapply (wp_load_at _ old bo); [done..|].
  apply wp_bind, wp_tick; intros E.
  - eapply (wp_write_slot_at _ new bn); [by apply owns_ticked|done..|].
    intros a Ha. split; [|split; [|done]].
    + eapply owns_set_block_eq; [by apply owns_ticked|done|by rewrite length_insert].
    + rewrite Ha. eapply frame_trans; [apply frame_ticked|apply frame_set_block].
  - split; [by exists KCopy, (clock st)|]. done.
Qed.

(** The loop of the uninitialized-memory algorithms under any invariant
    [I] that gives the destination storage [BN d] after [d] steps: when
    a step throws, the [d] objects constructed so far are destroyed and
    what [I] says about the rest of the store still holds. *)
Lemma wp_uninitialized_loop_gen (make : ptr → nat → M unit) p0 new
    (I : nat → machine → Prop) (BN : nat → block T) n (R : machine → Prop) :
  base p0 = base (buffer_ new) →
  (∀ d s, d ≤ n → I d s → owns s new (BN d)) →
  (∀ d i, d ≤ n → i < d → ∃ y, BN d !! (off p0 + i) = Some (Some y)) →
  (∀ d s, d < n → I d s →
     wp (make (ptr_add p0 d) d) s
        (fun _ s' => I (S d) s') (fun s' => threw ∧ I d s')) →
  (∀ d s s', d ≤ n → I d s →
     (s' = s ∨ frame (base (buffer_ new)) s s') → objs s' = objs s →
     (∃ b, owns s' new b) → R s') →
  ∀ k d st, d + k = n → I d st →
    wp (uninitialized_loop make p0 d k) st
       (fun _ s => I n s) (fun s => threw ∧ R s).
Proof.
  intros Hp0 Hnew Hlive Hstep HR. induction k as [|k IH]; intros d st Hd Hinv; simpl.
  - apply wp_ret. by replace n with d by lia.
  - apply wp_bind, wp_try_catch.
    eapply wp_mono; [apply (Hstep d st); [lia|done]| |].
    + intros [] s Hs. apply IH; [lia|done].
    + intros s (Ht & Hs). apply wp_bind.
      eapply wp_mono;
        [apply (wp_destroy_frame s new (BN d) p0 0 d (fun _ => False));
         [lia|apply Hnew; [lia|done]|done|]| |done].
      * intros i Hi. apply Hlive; lia.
      * intros [] s' (Hn' & Hobjs' & _ & Hf & Hsame). apply wp_rethrow.
        split; [done|]. apply (HR d s s'); [lia|done| |done|eauto].
        destruct (decide (d = 0)) as [->|]; [left; by apply Hsame|right; apply Hf; lia].
Qed.

(** *** Construction *)

Lemma represents_frame a st s v l :
  frame a st s → base (buffer_ (data_ v)) ≠ a →
  represents st v l → represents s v l.
Proof. intros Hf Hne (? & ? & Ho). split; [done|]. split; [done|]. by apply Hf. Qed.

Lemma wp_ValueConstruct_frame st m b p :
  owns st m b → base p = base (buffer_ m) → off p < length b →
  wp (ValueConstruct p) st
     (fun _ s => owns s m (<[off p := Some default_value]> b) ∧
                 frame (base (buffer_ m)) st s ∧ objs s = objs st)
     (fun s => threw ∧ s = ticked st).
Proof.
  intros Ho Hp Hlt. unfold ValueConstruct.
  apply wp_bind, wp_tick; intros E.
  - eapply (wp_write_slot_at _ m b); [by apply owns_ticked|done..|].
    intros a Ha. split; [|split; [|done]].
    + eapply owns_set_block_eq; [by apply owns_ticked|done|by rewrite length_insert].
    + rewrite Ha. eapply frame_trans; [apply frame_ticked|apply frame_set_block].
  - split; [by exists KDefault, (clock st)|]. done.
Qed.

Lemma wp_uninitialized_value_construct_n_frame st m b p0 n :
  owns st m b → base p0 = base (buffer_ m) → off p0 + n ≤ length b →
  wp (uninitialized_value_construct_n p0 n) st
     (fun _ s => owns s m (list_inserts (off p0) (replicate n (Some default_value)) b) ∧
                 frame (base (buffer_ m)) st s ∧ objs s = objs st)
     (fun s => threw ∧ frame (base (buffer_ m)) st s ∧ objs s = objs st ∧
               ∃ b', owns s m b').
Proof.
  intros Ho Hp0 Hlen. unfold uninitialized_value_construct_n.
  apply (wp_uninitialized_loop_gen _ p0 m
           (fun d s => owns s m (list_inserts (off p0)
                                   (replicate d (Some default_value)) b) ∧
                       frame (base (buffer_ m)) st s ∧ objs s = objs st)
           (fun d => list_inserts (off p0) (replicate d (Some default_value)) b)
           n _ Hp0) with (d := 0).
  - by intros d s _ (? & _).
  - intros d i Hd Hi. exists default_value. rewrite list_lookup_inserts.
    + apply lookup_replicate_2. lia.
    + rewrite length_replicate. lia.
    + lia.
  - intros d s Hd (Hn' & Hf & Hobjs).
    eapply wp_mono; [apply (wp_ValueConstruct_frame s m _ (ptr_add p0 d) Hn')| |].
    + done.
    + simpl. rewrite length_inserts. lia.
    + intros [] s' (Hn'' & Hf' & Hobjs'). simpl in Hn''.
      rewrite replicate_S_end, list_inserts_snoc, length_replicate.
      split; [done|]. split; [by eapply frame_trans|congruence].
    + intros s' (Ht & ->). split; [done|]. split; [by apply owns_ticked|].
      split; [|done]. eapply frame_trans; [done|apply frame_ticked].
  - intros d s s' Hd (Hn' & Hf & Hobjs) Hs' Hobjs' Hb.
    split; [|split; [congruence|done]].
    destruct Hs' as [->|Hs']; [done|by eapply frame_trans].
  - lia.
  - split; [done|]. split; [apply frame_refl|done].
Qed.

(** Copying the objects [xs] at [first ..] of the storage of [old] to
    [d_first ..] in the storage of [new]. *)
Lemma wp_uninitialized_copy_n_frame st old new bo bn (xs : list T) first d_first :
  (xs ≠ [] → base (buffer_ old) ≠ base (buffer_ new)) →
  owns st old bo → owns st new bn →
  base first = base (buffer_ old) → base d_first = base (buffer_ new) →
  take (length xs) (drop (off first) bo) = Some <$> xs →
  off d_first + length xs ≤ length bn →
  wp (uninitialized_copy_n first (length xs) d_first) st
     (fun _ s => owns s old bo ∧
                 owns s new (list_inserts (off d_first) (Some <$> xs) bn) ∧
                 (xs ≠ [] → frame (base (buffer_ new)) st s) ∧
                 (xs = [] → s = st) ∧ objs s = objs st)
     (fun s => threw ∧ owns s old bo ∧ frame (base (buffer_ new)) st s ∧
               objs s = objs st ∧ ∃ b', owns s new b').
Proof.
  intros Hne Ho Hn Hf Hd Hseg Hlen. unfold uninitialized_copy_n.
  destruct (decide (xs = [])) as [->|Hxs].
  { simpl. apply wp_ret. split; [done|]. split; [done|]. done. }
  specialize (Hne Hxs).
  eapply wp_mono;
    [apply (wp_uninitialized_loop_gen _ d_first new
              (fun d s => owns s new (list_inserts (off d_first) (Some <$> take d xs) bn) ∧
                          frame (base (buffer_ new)) st s ∧ objs s = objs st)
              (fun d => list_inserts (off d_first) (Some <$> take d xs) bn)
              (length xs)
              (fun s => owns s old bo ∧ frame (base (buffer_ new)) st s ∧
                        objs s = objs st ∧ ∃ b', owns s new b')
              Hd) with (d := 0)| |done].
  - by intros d s _ (? & _).
  - intros d i Hdn Hi. destruct (lookup_lt_is_Some_2 xs i) as [y Hy]; [lia|].
    exists y. rewrite list_lookup_inserts.
    + replace (off d_first + i - off d_first) with i by lia.
      rewrite list_lookup_fmap, lookup_take_lt by lia. by rewrite Hy.
    + rewrite length_fmap, length_take. lia.
    + lia.
  - intros d s Hdn (Hn' & Hfr & Hobjs).
    destruct (lookup_lt_is_Some_2 xs d) as [y Hy]; [lia|].
    eapply wp_mono;
      [apply (wp_CopyConstruct_frame s old new bo _ (ptr_add d_first d)
                (ptr_add first d) y (Hfr _ _ Hne Ho) Hn')| |].
    + done.
    + done.
    + simpl. apply (segment_lookup bo (off first) (Some <$> xs) d (Some y)).
      * by rewrite length_fmap.
      * by rewrite list_lookup_fmap, Hy.
    + simpl. rewrite length_inserts. lia.
    + intros [] s' (Hn'' & Hf' & Hobjs'). simpl in Hn''.
      rewrite (take_S_r _ _ y) by done. rewrite fmap_app. simpl.
      rewrite list_inserts_snoc, length_fmap, length_take.
      replace (off d_first + d `min` length xs) with (off d_first + d) by lia.
      split; [done|]. split; [by eapply frame_trans|congruence].
    + intros s' (Ht & ->). split; [done|]. split; [by apply owns_ticked|].
      split; [|done]. eapply frame_trans; [done|apply frame_ticked].
  - intros d s s' Hdn (Hn' & Hfr & Hobjs) Hs' Hobjs' Hb.
    assert (frame (base (buffer_ new)) st s') as Hfr'.
    { destruct Hs' as [->|Hs']; [done|by eapply frame_trans]. }
    split; [by apply Hfr'|]. split; [done|]. split; [congruence|done].
  - lia.
  - split; [done|]. split; [apply frame_refl|done].
  - intros [] s (Hn' & Hfr & Hobjs). rewrite firstn_all in Hn'.
    split; [by apply Hfr|]. done.
Qed.

Lemma layout_nil cap : layout cap ([] : list T) = replicate cap None.
Proof. unfold layout. simpl. by rewrite Nat.sub_0_r. Qed.

Lemma wp_Vector_ctor st n :
  fits n →
  wp (Vector_ctor n) st
     (fun v s => represents s v (replicate n default_value) ∧ Capacity v = n ∧
                 objs s = objs st ∧
                 (∀ m b, owns st m b → owns s m b) ∧
                 (∀ m b, owns st m b →
                    base (buffer_ m) = base (buffer_ (data_ v)) →
                    base (buffer_ m) = None))
     (fun s => threw ∧ objs s = objs st ∧ (∀ m b, owns st m b → owns s m b)).
Proof.
  intros Hfit. unfold Vector_ctor, GetAddress.
  apply wp_bind, wp_RawMemory_ctor; [done| | |].
  - intros ->. simpl. apply wp_bind, wp_ret, wp_ret.
    split; [apply represents_default|]. done.
  - intros Hn E. set (new := MkRaw (Ptr (Some (length (heap st))) 0) n).
    pose proof (owns_allocated_new st n) as Hnew. fold new in Hnew.
    assert (∀ m b, owns st m b → base (buffer_ m) ≠ base (buffer_ new)) as Hfresh.
    { intros m b Ho. simpl. by eapply owns_fresh. }
    apply wp_bind, wp_on_unwind.
    eapply wp_mono;
      [apply (wp_uninitialized_value_construct_n_frame (allocated n st) new _
                (buffer_ new) n Hnew eq_refl)| |].
    + rewrite length_replicate. simpl. lia.
    + intros [] s (Ho & Hf & Hobjs). apply wp_ret. simpl in Ho.
      rewrite <- layout_nil in Ho. rewrite (layout_extend n [] n) in Ho by (simpl; lia).
      split; [|split; [done|split; [done|split]]].
      * split; [simpl; by rewrite length_replicate|]. split; [simpl; lia|done].
      * intros m b Hm. apply Hf; [by eapply Hfresh|by apply owns_allocated_old].
      * intros m b Hm E'. by destruct (Hfresh m b Hm).
    + intros s (Ht & Hf & Hobjs & b' & Hb').
      eapply wp_RawMemory_dtor; [exact Hb'|done|].
      intros a Ha. split; [done|]. split; [done|].
      intros m b Hm. apply owns_set_block_ne.
      * apply Hf; [by eapply Hfresh|by apply owns_allocated_old].
      * rewrite <- Ha. by eapply Hfresh.
  - intros Hn E. split; [by exists KAlloc, (clock st)|]. done.
Qed.

Lemma wp_Vector_copy_ctor st other o lo :
  objs st !! other = Some o → represents st o lo →
  wp (Vector_copy_ctor other) st
     (fun v s => represents s v lo ∧ Capacity v = length lo ∧
                 objs s = objs st ∧
                 (∀ m b, owns st m b → owns s m b) ∧
                 (∀ m b, owns st m b →
                    base (buffer_ m) = base (buffer_ (data_ v)) →
                    base (buffer_ m) = None))
     (fun s => threw ∧ objs s = objs st ∧ (∀ m b, owns st m b → owns s m b)).
Proof.
  intros Hv Hrep. pose proof Hrep as (Hsize & Hcap & Hown).
  unfold Vector_copy_ctor, GetAddress.
  apply wp_bind. eapply wp_get_vec; [done|]. rewrite Hsize.
  apply wp_bind, wp_RawMemory_of_size.
  - intros Hn. assert (lo = []) as -> by (by destruct lo).
    simpl. apply wp_bind, wp_ret, wp_ret.
    split; [|done]. split; [done|]. split; [done|]. by split.
  - intros Hn E.
    set (new := MkRaw (Ptr (Some (length (heap st))) 0) (length lo)).
    pose proof (owns_allocated_new st (length lo)) as Hnew. fold new in Hnew.
    assert (∀ m b, owns st m b → base (buffer_ m) ≠ base (buffer_ new)) as Hfresh.
    { intros m b Ho. simpl. by eapply owns_fresh. }
    apply wp_bind, wp_on_unwind.
    eapply wp_mono;
      [apply (wp_uninitialized_copy_n_frame (allocated (length lo) st) (data_ o) new
                (layout (capacity_ (data_ o)) lo) (replicate (length lo) None) lo
                (buffer_ (data_ o)) (buffer_ new))| |].
    + intros _. by eapply Hfresh.
    + by apply owns_allocated_old.
    + exact Hnew.
    + done.
    + done.
    + rewrite (proj1 (proj2 Hown)), layout_segment by lia.
      by rewrite drop_0, firstn_all.
    + rewrite length_replicate. simpl. lia.
    + intros [] s (Ho & Hn' & Hf & _ & Hobjs). apply wp_ret. simpl in Hn'.
      rewrite layout_relocated_all in Hn' by lia.
      split; [|split; [done|split; [done|split]]].
      * split; [done|]. split; [simpl; lia|done].
      * intros m b Hm. apply Hf; [by destruct lo|by eapply Hfresh|].
        by apply owns_allocated_old.
      * intros m b Hm E'. by destruct (Hfresh m b Hm).
    + intros s (Ht & Ho & Hf & Hobjs & b' & Hb').
      eapply wp_RawMemory_dtor; [exact Hb'|done|].
      intros a Ha. split; [done|]. split; [done|].
      intros m b Hm. apply owns_set_block_ne.
      * apply Hf; [by eapply Hfresh|by apply owns_allocated_old].
      * rewrite <- Ha. by eapply Hfresh.
  - intros Hn E. split; [by exists KAlloc, (clock st)|]. done.
Qed.

Lemma wp_Vector_move_ctor st other o lo :
  objs st !! other = Some o → represents st o lo →
  wp (Vector_move_ctor other) st
     (fun v s => v = o ∧ represents s v lo ∧
                 objs s = <[other := Vector_default]> (objs st) ∧
                 represents s Vector_default [] ∧ heap s = heap st ∧
                 clock s = clock st)
     (fun _ => False).
Proof.
  intros Hv Hrep. unfold Vector_move_ctor.
  apply wp_bind. eapply wp_get_vec; [done|]. simpl.
  apply wp_bind, wp_set_vec, wp_ret. destruct o as [[po co] no]. simpl.
  split; [done|]. split; [done|]. split; [done|]. split; [|done].
  apply represents_default.
Qed.

(** *** Copy assignment *)

Lemma layout_overwrite cap l (xs : list T) :
  length xs ≤ length l →
  list_inserts 0 (Some <$> xs) (layout cap l) = layout cap (xs ++ drop (length xs) l).
Proof.
  intros Hle. unfold layout.
  rewrite list_inserts_prefix
    by (rewrite length_fmap, length_app, length_fmap; lia).
  rewrite length_fmap, drop_app_le by (rewrite length_fmap; lia).
  rewrite fmap_app, fmap_drop, <- app_assoc, length_app, length_drop.
  do 3 f_equal. lia.
Qed.

Lemma layout_append cap l (ys : list T) :
  length l + length ys ≤ cap →
  list_inserts (length l) (Some <$> ys) (layout cap l) = layout cap (l ++ ys).
Proof.
  intros Hcap. unfold layout.
  replace (length l) with (length (Some <$> l) + 0) at 1
    by (rewrite length_fmap; lia).
  rewrite list_inserts_app_r, fmap_app, <- app_assoc. f_equal.
  rewrite list_inserts_prefix by (rewrite length_fmap, length_replicate; lia).
  rewrite length_fmap, drop_replicate, length_app. do 2 f_equal. lia.
Qed.

Lemma wp_CopyAssign st msrc mdst bs bd dst src x w :
  base (buffer_ msrc) ≠ base (buffer_ mdst) →
  owns st msrc bs → owns st mdst bd →
  base src = base (buffer_ msrc) → base dst = base (buffer_ mdst) →
  bs !! off src = Some (Some x) → bd !! off dst = Some (Some w) →
  wp (CopyAssign dst src) st
     (fun _ s => owns s msrc bs ∧ owns s mdst (<[off dst := Some x]> bd) ∧
                 objs s = objs st)
     (fun _ => threw).
Proof.
  intros Hne Hs Hd Hsrc Hdst Hx Hw. unfold CopyAssign.
  apply wp_bind. eapply (wp_load_at _ msrc bs); [done..|].
  apply wp_bind. eapply (wp_load_at _ mdst bd); [done..|].
  apply wp_bind, wp_tick; intros E; [|by exists KCopyAssign, (clock st)].
  eapply (wp_store_at _ mdst bd); [by apply owns_ticked|done..|].
  intros a Ha. split; [|split; [|done]].
  - apply owns_set_block_ne; [by apply owns_ticked|congruence].
  - eapply owns_set_block_eq; [by apply owns_ticked|done|by rewrite length_insert].
Qed.

(** The element-wise copy assignment over the common prefix. *)
Lemma wp_copy_assign_range st msrc mdst bs bd (xs : list T) :
  (xs ≠ [] → base (buffer_ msrc) ≠ base (buffer_ mdst)) →
  owns st msrc bs → owns st mdst bd →
  take (length xs) bs = Some <$> xs →
  (∀ i, i < length xs → ∃ w, bd !! i = Some (Some w)) →
  wp (for_range 0 (length xs) (fun i =>
        d <- RawMemory_index mdst i ;;
        e <- RawMemory_index msrc i ;;
        CopyAssign d e)) st
     (fun _ s => owns s msrc bs ∧ owns s mdst (list_inserts 0 (Some <$> xs) bd) ∧
                 objs s = objs st)
     (fun _ => threw).
Proof.
  intros Hne Hs Hd Hseg Hlive.
  pose proof (proj1 Hs) as Hls. pose proof (proj1 Hd) as Hld.
  pose proof (proj1 (proj2 Hs)) as Hos. pose proof (proj1 (proj2 Hd)) as Hod.
  apply (wp_for_range (fun i s =>
    owns s msrc bs ∧
    owns s mdst (list_inserts 0 (Some <$> take i xs) bd) ∧
    objs s = objs st)); [lia|done| |].
  - intros i s Hi (Hs' & Hd' & Hobjs).
    destruct (lookup_lt_is_Some_2 xs i) as [x Hx]; [lia|].
    destruct (Hlive i) as [w Hw]; [lia|].
    assert (bs !! i = Some (Some x)) as Hbx.
    { apply (segment_lookup bs 0 (Some <$> xs) i (Some x)).
      - by rewrite length_fmap, drop_0.
      - by rewrite list_lookup_fmap, Hx. }
    assert (xs ≠ []) as Hxs by (by destruct xs).
    apply wp_bind, wp_RawMemory_index.
    { rewrite <- Hld. by eapply lookup_lt_Some. }
    apply wp_bind, wp_RawMemory_index.
    { rewrite <- Hls. by eapply lookup_lt_Some. }
    eapply wp_mono;
      [apply (wp_CopyAssign s msrc mdst bs _ _ _ x w (Hne Hxs) Hs' Hd')| |done].
    + done.
    + done.
    + simpl. by rewrite Hos.
    + simpl. rewrite Hod. simpl.
      rewrite list_lookup_inserts_ge; [done|].
      rewrite length_fmap, length_take. lia.
    + intros [] s' (Hs'' & Hd'' & Hobjs'). simpl in Hd''. rewrite Hod in Hd''.
      simpl in Hd''.
      rewrite (take_S_r _ _ x) by done. rewrite fmap_app. simpl.
      rewrite list_inserts_snoc, length_fmap, length_take.
      replace (0 + i `min` length xs) with i by lia.
      split; [done|]. split; [done|congruence].
  - intros s (Hs' & Hd' & Hobjs). by rewrite firstn_all in Hd'.
Qed.

Lemma owns_nonnull st m b : owns st m b → b ≠ [] → base (buffer_ m) ≠ None.
Proof.
  intros Ho Hb. destruct (owns_inv st m b 0 Ho) as (a & -> & _); [|done].
  destruct b; [done|simpl; lia].
Qed.

Lemma layout_nonnil cap l : l ≠ [] → layout cap l ≠ [].
Proof. by destruct l. Qed.

Lemma wp_copy_assign st this rhs v r l lr :
  this ≠ rhs →
  objs st !! this = Some v → objs st !! rhs = Some r →
  represents st v l → represents st r lr →
  (base (buffer_ (data_ v)) = base (buffer_ (data_ r)) →
   base (buffer_ (data_ v)) = None) →
  wp (copy_assign this rhs) st
     (fun _ s => ∃ v', objs s = <[this := v']> (objs st) ∧
                  represents s v' lr ∧ represents s r lr ∧
                  Capacity v' = (if length lr <=? Capacity v then Capacity v
                                 else length lr))
     (fun _ => threw).
Proof.
  intros Hneq Hv Hr Hrepv Hrepr Hdisj.
  pose proof Hrepv as (Hsv & Hcv & Hov). pose proof Hrepr as (Hsr & Hcr & Hor).
  pose proof (proj1 (proj2 Hov)) as Hoffv. pose proof (proj1 (proj2 Hor)) as Hoffr.
  assert (l ≠ [] → base (buffer_ (data_ r)) ≠ base (buffer_ (data_ v))) as Hne_v.
  { intros Hl E. apply (owns_nonnull _ _ _ Hov (layout_nonnil _ _ Hl)). by apply Hdisj. }
  assert (lr ≠ [] → base (buffer_ (data_ r)) ≠ base (buffer_ (data_ v))) as Hne_r.
  { intros Hl E. apply (owns_nonnull _ _ _ Hor (layout_nonnil _ _ Hl)).
    rewrite E. by apply Hdisj. }
  unfold copy_assign, Capacity, RawMemory_Capacity, GetAddress.
  rewrite decide_True by done.
  apply wp_bind. eapply wp_get_vec; [done|].
  apply wp_bind. eapply wp_get_vec; [done|].
  rewrite Hsv, Hsr.
  destruct (Nat.leb_spec (length lr) (capacity_ (data_ v))) as [Hfit|Hbig].
  - destruct (Nat.ltb_spec (length lr) (length l)) as [Hshrink|Hgrow].
    + (* fewer elements: assign, then destroy the surplus *)
      apply wp_bind.
      eapply wp_mono;
        [apply (wp_copy_assign_range st (data_ r) (data_ v) _ _ lr Hne_r Hor Hov)| |done].
      { rewrite <- (drop_0 (layout _ _)), layout_segment by lia.
        by rewrite drop_0, firstn_all. }
      { intros i Hi. destruct (lookup_lt_is_Some_2 l i) as [w Hw]; [lia|].
        exists w. by apply layout_lookup_lt. }
      intros [] s (Hs' & Hd' & Hobjs). rewrite layout_overwrite in Hd' by lia.
      assert (l ≠ []) as Hl by (destruct l; [simpl in Hshrink; lia|done]).
      assert (length (lr ++ drop (length lr) l) = length l) as Hlen.
      { rewrite length_app, length_drop. lia. }
      apply wp_bind.
      eapply wp_mono;
        [apply (wp_destroy_at_range s (data_ v) _ (data_ r) _ (buffer_ (data_ v))
                  (length lr) (length l) (fun _ => False) ltac:(lia) Hd' Hs'
                  eq_refl (fun _ => Hne_v Hl))| |done].
      { intros i Hi. rewrite Hoffv. simpl.
        destruct (lookup_lt_is_Some_2 (lr ++ drop (length lr) l) i) as [w Hw]; [lia|].
        exists w. by apply layout_lookup_lt. }
      intros [] s' (Hd'' & Hs'' & Hobjs' & _).
      eapply wp_set_size; [by rewrite Hobjs', Hobjs|].
      exists (MkVec (data_ v) (length lr)).
      split; [simpl; by rewrite Hobjs', Hobjs|]. split; [|split; [|done]].
      * split; [done|]. split; [done|]. apply owns_set_obj. simpl.
        rewrite Hoffv in Hd''. simpl in Hd''.
        replace (length l - length lr)
          with (length (lr ++ drop (length lr) l) - length lr) in Hd'' by lia.
        rewrite layout_truncate in Hd'' by (rewrite ?Hlen; lia).
        by rewrite take_app_length in Hd''.
      * split; [done|]. split; [done|]. by apply owns_set_obj.
    + (* at least as many elements: assign, then construct the rest *)
      apply wp_bind.
      assert (length (take (length l) lr) = length l) as Hlt
        by (rewrite length_take; lia).
      rewrite <- Hlt at 1.
      assert (take (length l) lr ≠ [] →
              base (buffer_ (data_ r)) ≠ base (buffer_ (data_ v))) as Hne_t.
      { intros Hx. apply Hne_r. intros ->. by rewrite take_nil in Hx. }
      assert (drop (length l) lr ≠ [] →
              base (buffer_ (data_ r)) ≠ base (buffer_ (data_ v))) as Hne_d.
      { intros Hx. apply Hne_r. intros ->. by rewrite drop_nil in Hx. }
      eapply wp_mono;
        [apply (wp_copy_assign_range st (data_ r) (data_ v) _ _ (take (length l) lr)
                  Hne_t Hor Hov)| |done].
      { rewrite Hlt, <- (drop_0 (layout _ _)), layout_segment by lia.
        by rewrite drop_0. }
      { intros i Hi. destruct (lookup_lt_is_Some_2 l i) as [w Hw]; [lia|].
        exists w. by apply layout_lookup_lt. }
      intros [] s (Hs' & Hd' & Hobjs). rewrite layout_overwrite in Hd' by lia.
      rewrite Hlt, drop_all, app_nil_r in Hd'.
      unfold uninitialized_copy. rewrite ptr_diff_add_add by lia.
      apply wp_bind. apply wp_bind, wp_ret.
      assert (length (drop (length l) lr) = length lr - length l) as Hld
        by (by rewrite length_drop).
      rewrite <- Hld.
      eapply wp_mono;
        [apply (wp_uninitialized_copy_n_frame s (data_ r) (data_ v) _ _
                  (drop (length l) lr)
                  (ptr_add (buffer_ (data_ r)) (length l))
                  (ptr_add (buffer_ (data_ v)) (length l)) Hne_d Hs' Hd')|
        |by intros s' [? _]].
      { done. }
      { done. }
      { simpl. rewrite Hoffr, Hld. simpl. rewrite layout_segment by lia.
        by rewrite take_ge by (rewrite length_drop; lia). }
      { simpl. rewrite Hoffv, length_layout by (rewrite length_take; lia). simpl. lia. }
      intros [] s' (Hs'' & Hd'' & _ & _ & Hobjs'). simpl in Hd''.
      rewrite Hoffv in Hd''. simpl in Hd''. rewrite <- Hlt in Hd'' at 1.
      rewrite layout_append in Hd'' by (rewrite length_take, length_drop; lia).
      rewrite take_drop in Hd''.
      eapply wp_set_size; [by rewrite Hobjs', Hobjs|].
      exists (MkVec (data_ v) (length lr)).
      split; [simpl; by rewrite Hobjs', Hobjs|]. split; [|split; [|done]].
      * split; [done|]. split; [done|]. by apply owns_set_obj.
      * split; [done|]. split; [done|]. by apply owns_set_obj.
  - (* copy and swap *)
    apply wp_bind.
    eapply wp_mono; [by apply (wp_Vector_copy_ctor st rhs r lr)| |by intros s [? _]].
    intros c s (Hrepc & Hcapc & Hobjs & Hkeep & Hfresh). simpl.
    destruct c as [[pc cc] nc]. destruct v as [[pv cv] nv]. simpl in *.
    apply wp_bind, wp_set_vec.
    unfold Vector_dtor, DestroyN, GetAddress. simpl.
    set (old := MkRaw pv cv) in *. set (new := MkRaw pc cc) in *.
    pose proof (Hkeep _ _ Hov) as Hov'. pose proof (Hkeep _ _ Hor) as Hor'.
    pose proof (proj2 (proj2 Hrepc)) as Hoc. simpl in Hoc. fold new in Hoc.
    apply wp_bind.
    eapply wp_mono;
      [apply (wp_destroy_frame _ old _ pv 0 nv (fun _ => False) ltac:(lia)
                (owns_set_obj _ this _ _ _ Hov') eq_refl)| |done].
    { intros i Hi. rewrite Hoffv. simpl.
      destruct (lookup_lt_is_Some_2 l i) as [w Hw]; [lia|].
      exists w. by apply layout_lookup_lt. }
    intros [] s' (Hold' & Hobjs' & _ & Hf & Hsame).
    assert (owns s' new (layout cc lr) ∧ owns s' (data_ r) (layout (capacity_ (data_ r)) lr))
      as [Hnew' Hr'].
    { destruct (decide (nv = 0)) as [Hz|Hnz].
      - rewrite (Hsame (eq_sym Hz)). split; by apply owns_set_obj.
      - assert (l ≠ []) as Hl by (intros ->; simpl in Hsv; lia).
        pose proof (owns_nonnull _ _ _ Hov (layout_nonnil _ _ Hl)) as Hnn.
        split; (apply Hf; [lia| |by apply owns_set_obj]); simpl.
        + intros E. apply Hnn. apply (Hfresh old _ Hov). by rewrite E.
        + intros E. by apply (Hne_v Hl). }
    eapply wp_RawMemory_dtor; [exact Hold'| |].
    + intros _. exists (MkVec new nc).
      split; [simpl in *; by rewrite Hobjs', Hobjs|].
      split; [|split; [|simpl; unfold Capacity, RawMemory_Capacity in *; simpl in *; lia]].
      * destruct Hrepc as (? & ? & _). done.
      * done.
    + intros a Ha. exists (MkVec new nc).
      split; [simpl in *; by rewrite Hobjs', Hobjs|].
      assert (base (buffer_ old) ≠ None) as Hnn by (rewrite Ha; done).
      split; [|split; [|simpl; unfold Capacity, RawMemory_Capacity in *; simpl in *; lia]].
      * destruct Hrepc as (? & ? & _). split; [done|]. split; [done|].
        apply owns_set_block_ne; [done|]. simpl. rewrite <- Ha. intros E.
        apply Hnn. apply (Hfresh old _ Hov). by rewrite E.
      * split; [done|]. split; [done|].
        apply owns_set_block_ne; [done|]. rewrite <- Ha. intros E.
        apply Hnn. by apply Hdisj.
Qed.

Lemma wp_Swap st this other (va vb : Vector) la lb :
  objs st !! this = Some va → objs st !! other = Some vb →
  represents st va la → represents st vb lb →
  wp (Swap this other) st
     (fun _ s => objs s = <[other := va]> (<[this := vb]> (objs st)) ∧
                 represents s va la ∧ represents s vb lb ∧
                 heap s = heap st ∧ clock s = clock st)
     (fun _ => False).
Proof.
  intros Ha Hb Hra Hrb. unfold Swap.
  apply wp_bind. eapply wp_get_vec; [done|].
  apply wp_bind. eapply wp_get_vec; [done|].
  destruct va as [[pa ca] na], vb as [[pb cb] nb]. simpl.
  apply wp_bind, wp_set_vec. apply wp_set_vec. done.
Qed.

Lemma wp_copy_assign_same st this (Q : unit → machine → Prop) R :
  Q tt st → wp (copy_assign this this) st Q R.
Proof. intros HQ. unfold copy_assign. by rewrite decide_False by (by intros H). Qed.

Lemma length_emplaced cap l q x : q ≤ length l → length (emplaced cap l q x) = S (length l).
Proof.
  intros Hq. unfold emplaced.
  destruct (_ && _ && _) eqn:E.
  - destruct (last l) as [y|] eqn:Hl.
    + by rewrite length_insert_at.
    + apply last_None in Hl. subst l. simpl in E. by rewrite andb_false_r in E.
  - by apply length_insert_at.
Qed.

End Logic.

(** ** The properties of the specification *)

Section Claims.

Context {T : Type} `{ET : Element T}.

Local Abbreviation M := (@M T).
Local Abbreviation machine := (@machine T).

Implicit Types (st s : machine) (m : RawMemory) (b : block T) (v : Vector).
Implicit Types (l : list T) (i n : nat) (this : oid) (p : ptr).

(** C4: an element type whose copy constructor always throws and whose
    relocation copies (the move constructor is not noexcept), and a vector
    whose size equals its capacity.  Whenever an exception leaves an
    append ([EmplaceBack], and so [PushBack]), the vector object and its
    storage, hence its size, capacity and elements, are as before the
    call.  And an append that has to copy -- the vector is not empty, or
    the new element itself is built by the copy constructor -- does end
    with the exception leaving it. *)
Theorem append_failure_leaves_vector_untouched this k x st v l :
  objs st !! this = Some v → represents st v l →
  Size v = Capacity v →
  nothrow_relocate = false → (∀ t, throws KCopy t = true) →
  (∀ st', EmplaceBack this k x st = Throw st' →
     objs st' = objs st ∧ represents st' v l ∧
     observe st' this = observe st this) ∧
  (k = KCopy ∨ l ≠ [] →
     ∃ st', EmplaceBack this k x st = Throw st' ∧
            (k = KCopy → PushBack this x st = Throw st') ∧
            (k = KMove → PushBack_move this x st = Throw st')).
Proof.
  intros Hv Hrep Hfull Hnr Hcopy.
  pose proof (wp_EmplaceBack st this v l k x Hv Hrep) as Hwp.
  split.
  - intros st' E. destruct (wp_Throw _ _ _ _ _ Hwp E) as (_ & Hs).
    destruct (Hs Hnr) as (Hobjs & Hrep'). split; [done|]. split; [done|].
    rewrite (observe_represents st this v l), (observe_represents st' this v l);
      [done| |done..]. by rewrite Hobjs.
  - intros Hk. unfold PushBack, PushBack_move, bind.
    destruct (wp_cases _ _ _ _ Hwp) as [(p & s & E & HQ)|(s & E & HR)].
    + destruct HQ as (v' & _ & _ & _ & _ & (t & Ht) & Hc).
      destruct Hk as [->|Hl].
      * by rewrite Hcopy in Ht.
      * destruct (Hc Hfull Hnr Hl) as (t' & Ht'). by rewrite Hcopy in Ht'.
    + exists s. split; [done|]. split; intros ->; by rewrite E.
Qed.

(** C5: [k] appends, each of them [PushBack] of an lvalue, [PushBack] of
    an rvalue or [EmplaceBack], made one after the other to a
    default-constructed vector and each returning normally: the size is
    [k], the elements are the appended values in order, every capacity
    seen is at least the number of elements appended so far, an append
    changes the capacity only when the vector is full, and then to
    [max 1 (2 * capacity)]; the capacities seen are those of the doubling
    law from an empty vector, which for three appends are 1, 2 and 4.
    When nothing throws, every append returns normally. *)
Theorem appends_from_empty this (cs : list append_call) st :
  objs st !! this = Some Vector_default →
  (quiet → ∃ caps st', append_all this cs st = Ok caps st') ∧
  (∀ caps st', append_all this cs st = Ok caps st' →
     ∃ v', objs st' !! this = Some v' ∧
           Size v' = length cs ∧ length cs ≤ Capacity v' ∧
           represents st' v' (appended_value <$> cs) ∧
           caps = cap_trace 0 0 (length cs) ∧
           ∀ i c, caps !! i = Some c → S i ≤ c) ∧
  (∀ c s v l,
     objs s !! this = Some v → represents s v l →
     (quiet → ∃ s', run_append this c s = Ok tt s') ∧
     (∀ s', run_append this c s = Ok tt s' →
        ∃ v', objs s' !! this = Some v' ∧ Size v' = S (Size v) ∧
              represents s' v' (l ++ [appended_value c]) ∧
              Capacity v' = if Size v <? Capacity v then Capacity v
                            else Nat.max 1 (2 * Capacity v))) ∧
  cap_trace 0 0 3 = [1; 2; 4].
Proof.
  intros Hv.
  pose proof (wp_append_all cs st this _ [] Hv (represents_default st)) as Hwp.
  split; [|split; [|split; [|done]]].
  - intros Hq. by apply (wp_quiet _ _ _ _ Hwp).
  - intros caps st' E.
    destruct (wp_Ok _ _ _ _ _ _ Hwp E) as (v' & Hobjs & Hrep & Hcaps & _).
    exists v'. split; [by rewrite Hobjs, lookup_insert_eq|]. simpl in Hrep.
    pose proof Hrep as (Hs & Hc & _). unfold Size, Capacity, RawMemory_Capacity.
    rewrite length_fmap in Hs. split; [done|]. split; [lia|]. split; [done|].
    split; [done|]. intros i c Hi. rewrite Hcaps in Hi.
    apply cap_trace_lower in Hi; [lia|done].
  - intros c s v l Hs Hrep.
    pose proof (wp_run_append s this v l c Hs Hrep) as Hw. split.
    + intros Hq. destruct (wp_quiet _ _ _ _ Hw Hq) as ([] & s' & E). eauto.
    + intros s' E. destruct (wp_Ok _ _ _ _ _ _ Hw E) as (v' & Hobjs & Hrep' & Hcap).
      exists v'. split; [by rewrite Hobjs, lookup_insert_eq|].
      split; [|split; [done|done]].
      destruct Hrep' as (E1 & _), Hrep as (E2 & _). unfold Size.
      rewrite E1, E2, length_app. simpl. lia.
Qed.


(** C9: move assignment [a = std::move(b)] always returns; it exchanges
    the two vector objects (buffer, capacity and size) and nothing else:
    the free store and the clock are as before, so no element is
    touched, [a] holds what [b] held and [b] holds what [a] held. *)
Theorem move_assign_swaps this rhs st (va vb : Vector) :
  objs st !! this = Some va → objs st !! rhs = Some vb →
  ∃ st', move_assign this rhs st = Ok tt st' ∧
         st' = set_obj rhs va (set_obj this vb st) ∧
         heap st' = heap st ∧ clock st' = clock st ∧
         observe st' this = observe st rhs ∧
         observe st' rhs = observe st this.
Proof.
  intros Ha Hb. unfold move_assign, Swap, bind, get_vec. rewrite Ha, Hb.
  destruct va as [[pa ca] na], vb as [[pb cb] nb]. simpl.
  eexists. split; [reflexivity|]. split; [done|]. split; [done|]. split; [done|].
  unfold observe, set_obj, elements, storage. simpl.
  rewrite lookup_insert_eq, Ha, Hb. simpl.
  destruct (decide (this = rhs)) as [->|Hne].
  - rewrite lookup_insert_eq. rewrite Ha in Hb. by inversion Hb.
  - rewrite lookup_insert_ne by done. by rewrite lookup_insert_eq.
Qed.

(** C10: copy assignment of a vector to itself returns and leaves the
    whole state as it is: the vector object, the free store and the
    clock, so that no element is copied, assigned or destroyed. *)
Theorem copy_assign_self this st : copy_assign this this st = Ok tt st.
Proof. unfold copy_assign. by rewrite decide_False by (intros H; by apply H). Qed.

(** X22: when nothing throws, [Emplace] at any position [q <= size]
    returns an iterator to position [q], with the size one larger.  The
    new value is at index [q], between the old elements, whenever the
    storage is grown, the vector is empty or [q + 1 < size]; on the
    in-place path with [size <= q + 1] the new value is dropped and the
    result ends with the moved-from last element followed by the last
    element. *)
Theorem Emplace_when_nothing_throws this st v l k x q :
  quiet → objs st !! this = Some v → represents st v l → q ≤ length l →
  ∃ r st' v' l',
    Emplace this (ptr_add (vbegin v) q) k x st = Ok r st' ∧
    objs st' = <[this := v']> (objs st) ∧
    represents st' v' l' ∧ Size v' = S (Size v) ∧
    r = ptr_add (vbegin v') q ∧
    (Size v = Capacity v ∨ l = [] ∨ q + 1 < length l →
       l' = take q l ++ x :: drop q l) ∧
    (∀ l0 y, l = l0 ++ [y] → Size v < Capacity v → length l ≤ q + 1 →
       l' = l0 ++ [moved_from y; y]).
Proof.
  intros Hq Hv Hrep Hle.
  pose proof (wp_Emplace st this v l k x q Hq Hv Hrep Hle) as Hwp.
  destruct (wp_cases _ _ _ _ Hwp) as [(r & s & Hrun & v' & Hobjs & Hrep' & Hcap & Hr)|
                                      (s & _ & [])].
  pose proof Hrep as (Hsz & _ & _). pose proof Hrep' as (Hsz' & _ & _).
  exists r, s, v', (emplaced (Capacity v) l q x).
  split; [done|]. split; [done|]. split; [done|].
  split; [unfold Size; by rewrite Hsz', Hsz, length_emplaced|].
  split; [done|]. split.
  - intros Hcase. apply emplaced_inserted. unfold Size in Hcase.
    rewrite Hsz in Hcase. destruct Hcase as [?|[?|?]]; auto.
  - intros l0 y -> Hlt Hlast. apply emplaced_dropped; [|done].
    unfold Size in Hlt. by rewrite <- Hsz.
Qed.

(** X23: every public operation other than [Emplace] and [Insert], started on
    a vector that satisfies the invariant, has defined behaviour and ends
    on a vector that satisfies the invariant when it returns; so do
    [Emplace] and [Insert] when nothing throws.  For [Reserve(n)] and
    [Resize(n)] that have to allocate, and for [Vector(n)], the number of
    bytes of [n] elements has to be a value of [size_t]. *)
Theorem invariant_kept this st v :
  objs st !! this = Some v → invariant st v →
  (∀ n, (Capacity v < n → fits n) →
     wp (Reserve this n) st (keeps_invariant this) (fun _ => True)) ∧
  (∀ n, (Capacity v < n → fits n) →
     wp (Resize this n) st (keeps_invariant this) (fun _ => True)) ∧
  (∀ k x, wp (EmplaceBack this k x) st (keeps_invariant this) (fun _ => True)) ∧
  (∀ x, wp (PushBack this x) st (keeps_invariant this) (fun _ => True)) ∧
  (∀ x, wp (PushBack_move this x) st (keeps_invariant this) (fun _ => True)) ∧
  (Size v ≠ 0 → wp (PopBack this) st (keeps_invariant this) (fun _ => True)) ∧
  (∀ q, q < Size v →
     wp (Erase this (ptr_add (vbegin v) q)) st (keeps_invariant this) (fun _ => True)) ∧
  (∀ other o, objs st !! other = Some o → invariant st o →
     wp (Swap this other) st
        (fun a s => keeps_invariant this a s ∧ keeps_invariant other a s)
        (fun _ => True)) ∧
  (∀ other o, objs st !! other = Some o → invariant st o →
     wp (move_assign this other) st
        (fun a s => keeps_invariant this a s ∧ keeps_invariant other a s)
        (fun _ => True)) ∧
  (∀ other o, objs st !! other = Some o → invariant st o →
     (this ≠ other → base (buffer_ (data_ v)) = base (buffer_ (data_ o)) →
      base (buffer_ (data_ v)) = None) →
     wp (copy_assign this other) st
        (fun a s => keeps_invariant this a s ∧ keeps_invariant other a s)
        (fun _ => True)) ∧
  (∀ n, fits n →
     wp (Vector_ctor n) st
        (fun w s => invariant s w ∧ keeps_invariant this w s) (fun _ => True)) ∧
  wp (Vector_copy_ctor this) st
     (fun w s => invariant s w ∧ keeps_invariant this w s) (fun _ => True) ∧
  wp (Vector_move_ctor this) st
     (fun w s => invariant s w ∧ keeps_invariant this w s) (fun _ => True) ∧
  (quiet → ∀ q k x, q ≤ Size v →
     wp (Emplace this (ptr_add (vbegin v) q) k x) st
        (keeps_invariant this) (fun _ => True)) ∧
  (quiet → ∀ q x, q ≤ Size v →
     wp (Insert this (ptr_add (vbegin v) q) x) st
        (keeps_invariant this) (fun _ => True)) ∧
  (quiet → ∀ q x, q ≤ Size v →
     wp (Insert_move this (ptr_add (vbegin v) q) x) st
        (keeps_invariant this) (fun _ => True)).
Proof.
  intros Hv [l Hrep]. pose proof Hrep as (Hsz & Hcap & Hown).
  assert (∀ A (a : A) s v' l', objs s = <[this := v']> (objs st) →
            represents s v' l' → keeps_invariant this a s) as Hkeep.
  { intros A a s v' l' Hobjs Hr. exists v'. rewrite Hobjs, lookup_insert_eq.
    split; [done|by exists l']. }
  assert (∀ k x, wp (EmplaceBack this k x) st (keeps_invariant this) (fun _ => True))
    as HEB.
  { intros k x. eapply wp_mono; [by apply (wp_EmplaceBack st this v l)| |done].
    intros p s (v' & Hobjs & Hr & _). by eapply Hkeep. }
  assert (quiet → ∀ q k x, q ≤ Size v →
     wp (Emplace this (ptr_add (vbegin v) q) k x) st
        (keeps_invariant this) (fun _ => True)) as HE.
  { intros Hq q k x Hle.
    eapply wp_mono; [apply (wp_Emplace st this v l k x q Hq Hv Hrep)| |done].
    - unfold Size in Hle. lia.
    - intros r s (v' & Hobjs & Hr & _). by eapply Hkeep. }
  repeat split.
  - intros n Hfit. eapply wp_mono; [by apply (wp_Reserve st this v l)| |done].
    intros [] s Hs. destruct (n <=? Capacity v).
    + subst s. exists v. split; [done|by exists l].
    + destruct Hs as (v' & Hobjs & Hr & _). by eapply Hkeep.
  - intros n Hfit. eapply wp_mono; [by apply (wp_Resize st this v l)| |done].
    intros [] s (v' & Hobjs & Hn & Hshrink & Hgrow).
    destruct (decide (n ≤ Size v)) as [Hle|Hgt].
    + destruct (Hshrink Hle) as (_ & Hr & _). by eapply Hkeep.
    + eapply Hkeep; [done|]. apply Hgrow. lia.
  - exact HEB.
  - intros x. unfold PushBack. apply wp_bind.
    eapply wp_mono; [apply HEB| |done]. intros p s Hs. by apply wp_ret.
  - intros x. unfold PushBack_move. apply wp_bind.
    eapply wp_mono; [apply HEB| |done]. intros p s Hs. by apply wp_ret.
  - intros Hne. eapply wp_mono; [apply (wp_PopBack st this v l Hv Hrep)| |done].
    + intros ->. by apply Hne.
    + intros [] s (Hobjs & Hr & _). by eapply Hkeep.
  - intros q Hq.
    eapply wp_mono; [apply (wp_Erase st this v l q Hv Hrep)| |done].
    + unfold Size in Hq. lia.
    + intros r s (Hobjs & Hr & _). by eapply Hkeep.
  - intros other o Ho [lo Hro].
    eapply wp_mono; [apply (wp_Swap st this other v o l lo Hv Ho Hrep Hro)| |done].
    intros [] s (Hobjs & Hr1 & Hr2 & _). split.
    + destruct (decide (this = other)) as [->|Hne].
      * exists v. rewrite Hobjs, lookup_insert_eq. split; [done|by exists l].
      * exists o. rewrite Hobjs, lookup_insert_ne, lookup_insert_eq by done.
        split; [done|by exists lo].
    + exists v. rewrite Hobjs, lookup_insert_eq. split; [done|by exists l].
  - intros other o Ho [lo Hro]. unfold move_assign.
    eapply wp_mono; [apply (wp_Swap st this other v o l lo Hv Ho Hrep Hro)| |done].
    intros [] s (Hobjs & Hr1 & Hr2 & _). split.
    + destruct (decide (this = other)) as [->|Hne].
      * exists v. rewrite Hobjs, lookup_insert_eq. split; [done|by exists l].
      * exists o. rewrite Hobjs, lookup_insert_ne, lookup_insert_eq by done.
        split; [done|by exists lo].
    + exists v. rewrite Hobjs, lookup_insert_eq. split; [done|by exists l].
  - intros other o Ho [lo Hro] Hdisj.
    destruct (decide (this = other)) as [<-|Hne].
    + apply wp_copy_assign_same.
      split; (exists v; split; [done|by exists l]).
    + eapply wp_mono;
        [apply (wp_copy_assign st this other v o l lo Hne Hv Ho Hrep Hro (Hdisj Hne))|
        |done].
      intros [] s (v' & Hobjs & Hr1 & Hr2 & _). split; [by eapply Hkeep|].
      exists o. rewrite Hobjs, lookup_insert_ne by done. split; [done|by exists lo].
  - intros n Hfit. eapply wp_mono; [by apply (wp_Vector_ctor st n)| |done].
    intros w s (Hw & _ & Hobjs & Hf & _). split; [by eexists|].
    exists v. rewrite Hobjs. split; [done|]. exists l.
    split; [done|]. split; [done|]. by apply Hf.
  - eapply wp_mono; [apply (wp_Vector_copy_ctor st this v l Hv Hrep)| |done].
    intros w s (Hw & _ & Hobjs & Hf & _). split; [by eexists|].
    exists v. rewrite Hobjs. split; [done|]. exists l.
    split; [done|]. split; [done|]. by apply Hf.
  - eapply wp_mono; [apply (wp_Vector_move_ctor st this v l Hv Hrep)| |done].
    intros w s (-> & Hw & Hobjs & Hd & _). split; [by eexists|].
    exists Vector_default. rewrite Hobjs, lookup_insert_eq. split; [done|by eexists].
  - exact HE.
  - intros Hq q x Hle. by apply HE.
  - intros Hq q x Hle. by apply HE.
Qed.

End Claims.

(** ** Blocks, costs and the behaviour of the operations *)

Create HintDb steady.
Create HintDb costs.

Section Accounting.

Context {T : Type} `{ET : Element T}.

Local Abbreviation M := (@M T).
Local Abbreviation machine := (@machine T).

Implicit Types (st s : machine) (m : RawMemory) (b : block T) (v : Vector).
Implicit Types (l : list T) (i n : nat) (this : oid) (p : ptr).

(** *** The rules of [post] *)

Lemma post_wp {A} (mm : M A) st Q R : wp mm st Q R → post mm st Q R.
Proof. unfold wp, post. by destruct (mm st). Qed.

Lemma post_ret {A} (a : A) st (Q : A → machine → Prop) R : Q a st → post (ret a) st Q R.
Proof. done. Qed.

Lemma post_bind {A B} (mm : M A) (f : A → M B) st Q R :
  post mm st (fun a s => post (f a) s Q R) R → post (bind mm f) st Q R.
Proof. unfold post, bind. by destruct (mm st). Qed.

Lemma post_mono {A} (mm : M A) st (Q Q' : A → machine → Prop) (R R' : machine → Prop) :
  post mm st Q R → (∀ a s, Q a s → Q' a s) → (∀ s, R s → R' s) → post mm st Q' R'.
Proof. unfold post. destruct (mm st); auto. Qed.

Lemma post_try_catch {A} (body handler : M A) st Q R :
  post body st Q (fun s => post handler s Q R) → post (try_catch body handler) st Q R.
Proof. unfold post, try_catch. by destruct (body st). Qed.

Lemma post_on_unwind {A} (dtor : M unit) (body : M A) st Q R :
  post body st Q (fun s => post dtor s (fun _ => R) R) →
  post (on_unwind dtor body) st Q R.
Proof.
  intros H. apply post_try_catch. eapply post_mono; [exact H|done|].
  intros s Hs. apply post_bind. eapply post_mono; [exact Hs| |done]. by intros [] s'.
Qed.

Lemma post_get_vec st this v (Q : Vector → machine → Prop) R :
  objs st !! this = Some v → Q v st → post (get_vec this) st Q R.
Proof. intros Hv HQ. unfold post, get_vec. by rewrite Hv. Qed.

Lemma post_Ok {A} (mm : M A) st Q R a s : post mm st Q R → mm st = Ok a s → Q a s.
Proof. unfold post. intros H E. by rewrite E in H. Qed.

Lemma post_Throw {A} (mm : M A) st Q R s : post mm st Q R → mm st = Throw s → R s.
Proof. unfold post. intros H E. by rewrite E in H. Qed.

(** *** Counting live blocks *)

Lemma live_insert_Some (h : list (option (block T))) a b b' :
  h !! a = Some (Some b) →
  length (omap id (<[a := Some b']> h)) = length (omap id h).
Proof.
  revert a. induction h as [|o h IH]; intros [|a] E; simpl in *; try done.
  - by inversion E.
  - destruct o; simpl; by rewrite IH.
Qed.

Lemma live_insert_None (h : list (option (block T))) a b :
  h !! a = Some (Some b) →
  S (length (omap id (<[a := None]> h))) = length (omap id h).
Proof.
  revert a. induction h as [|o h IH]; intros [|a] E; simpl in *; try done.
  - by inversion E.
  - pose proof (IH a E) as IH'. unfold omap in *. destruct o; cbn in *; lia.
Qed.

Lemma live_app (h : list (option (block T))) b :
  length (omap id (h ++ [Some b])) = S (length (omap id h)).
Proof. rewrite omap_app, length_app. simpl. lia. Qed.

(** *** Steady computations *)

Lemma steady_ret {A} (a : A) : steady (ret a : M A).
Proof. by intros st. Qed.

Lemma steady_undef {A} : steady (undef : M A).
Proof. by intros st. Qed.

Lemma steady_rethrow {A} : steady (rethrow : M A).
Proof. by intros st. Qed.

Lemma steady_bind {A B} (mm : M A) (f : A → M B) :
  steady mm → (∀ a, steady (f a)) → steady (bind mm f).
Proof.
  intros Hm Hf st. apply post_bind. eapply post_mono; [apply Hm| |done].
  intros a s [E1 E2]. eapply post_mono; [apply Hf| |]; simpl.
  - intros _ s' [? ?]. split; congruence.
  - intros s' [? ?]. split; congruence.
Qed.

Lemma steady_try_catch {A} (body handler : M A) :
  steady body → steady handler → steady (try_catch body handler).
Proof.
  intros Hb Hh st. apply post_try_catch. eapply post_mono; [apply Hb|done|].
  intros s [E1 E2]. eapply post_mono; [apply Hh| |]; simpl.
  - intros _ s' [? ?]. split; congruence.
  - intros s' [? ?]. split; congruence.
Qed.

Lemma steady_lift_opt {A} (o : option A) : steady (lift_opt o : M A).
Proof. destruct o; [apply steady_ret|apply steady_undef]. Qed.

Lemma steady_assert (c : bool) : steady (assert c : M unit).
Proof. destruct c; [apply steady_ret|apply steady_undef]. Qed.

Lemma steady_tick k : steady (tick k).
Proof. intros st. unfold post, tick. by destruct (throws k (clock st)). Qed.

Lemma steady_load p : steady (load p : M T).
Proof. intros st. unfold post, load. by destruct (_ ≫= _). Qed.

Lemma steady_write_slot p (o : option T) : steady (write_slot p o).
Proof.
  intros st. unfold post, write_slot, block_at.
  destruct (base p) as [a|]; [|done]. simpl.
  destruct (heap st !! a) as [[b|]|] eqn:E; simpl; try done.
  destruct (decide _); [|done]. split; [|done].
  unfold live. simpl. by eapply live_insert_Some.
Qed.

Lemma steady_for_each (body : nat → M unit) (js : list nat) :
  (∀ i, steady (body i)) → steady (for_each js body).
Proof.
  intros Hb. induction js as [|j js IH]; simpl; [apply steady_ret|].
  apply steady_bind; [apply Hb|]. by intros _.
Qed.

Lemma steady_for_range lo hi (body : nat → M unit) :
  (∀ i, steady (body i)) → steady (for_range lo hi body).
Proof. apply steady_for_each. Qed.

End Accounting.

#[export] Hint Resolve steady_ret steady_undef steady_rethrow steady_lift_opt
  steady_assert steady_tick steady_load steady_write_slot : steady.

Ltac steady :=
  repeat first
    [ progress intros
    | apply steady_bind
    | apply steady_try_catch
    | apply steady_for_range
    | apply steady_for_each
    | solve [eauto with steady]
    | match goal with
      | |- steady (if ?c then _ else _) => destruct c
      | |- steady (match ?o with _ => _ end) => destruct o
      end ].

Section Accounting2.

Context {T : Type} `{ET : Element T}.

Local Abbreviation M := (@M T).
Local Abbreviation machine := (@machine T).

Implicit Types (st s : machine) (m : RawMemory) (b : block T) (v : Vector).
Implicit Types (l : list T) (i n : nat) (this : oid) (p : ptr).

Lemma steady_construct p (x : T) : steady (construct p x).
Proof. apply steady_write_slot. Qed.

Lemma steady_store p (x : T) : steady (store p x).
Proof. unfold store. steady. Qed.

Lemma steady_Destroy p : steady (Destroy p : M unit).
Proof. unfold Destroy. steady. Qed.

Lemma steady_CopyConstruct p q : steady (CopyConstruct p q : M unit).
Proof. unfold CopyConstruct, construct. steady. Qed.

Lemma steady_MoveConstruct p q : steady (MoveConstruct p q : M unit).
Proof. unfold MoveConstruct, construct, store. steady. Qed.

Lemma steady_CopyAssign p q : steady (CopyAssign p q : M unit).
Proof. unfold CopyAssign, store. steady. Qed.

Lemma steady_MoveAssign p q : steady (MoveAssign p q : M unit).
Proof. unfold MoveAssign, store. steady. Qed.

Lemma steady_MoveAssignLocal p (x : T) : steady (MoveAssignLocal p x).
Proof. unfold MoveAssignLocal, store. steady. Qed.

Lemma steady_ValueConstruct p : steady (ValueConstruct p : M unit).
Proof. unfold ValueConstruct, construct. steady. Qed.

Lemma steady_RawMemory_plus m i : steady (RawMemory_plus m i : M ptr).
Proof. unfold RawMemory_plus. steady. Qed.

Lemma steady_RawMemory_index m i : steady (RawMemory_index m i : M ptr).
Proof. unfold RawMemory_index. steady. Qed.

Lemma steady_DestroyN p n : steady (DestroyN p n : M unit).
Proof. unfold DestroyN. steady. Qed.

Lemma steady_destroy_n p n : steady (destroy_n p n : M unit).
Proof. apply steady_DestroyN. Qed.

Lemma steady_uninitialized_loop (make : ptr → nat → M unit) d n :
  (∀ q i, steady (make q i)) → ∀ done, steady (uninitialized_loop make d done n).
Proof.
  intros Hm. induction n as [|n IH]; intros done; simpl; [apply steady_ret|].
  apply steady_bind; [|by intros _].
  apply steady_try_catch; [apply Hm|].
  apply steady_bind; [|intros _; apply steady_rethrow].
  apply steady_for_range. intros i. apply steady_Destroy.
Qed.

Lemma steady_move_n n : ∀ p q, steady (move_n n p q : M ptr).
Proof.
  induction n as [|n IH]; intros p q; simpl; [apply steady_ret|].
  apply steady_bind; [apply steady_MoveAssign|]. by intros _.
Qed.

Lemma steady_move_backward_n n : ∀ p q, steady (move_backward_n n p q : M ptr).
Proof.
  induction n as [|n IH]; intros p q; simpl; [apply steady_ret|].
  apply steady_bind; [apply steady_lift_opt|]. intros p'.
  apply steady_bind; [apply steady_lift_opt|]. intros q'.
  apply steady_bind; [apply steady_MoveAssign|]. by intros _.
Qed.

End Accounting2.

#[export] Hint Resolve steady_construct steady_store steady_Destroy steady_CopyConstruct
  steady_MoveConstruct steady_CopyAssign steady_MoveAssign steady_MoveAssignLocal
  steady_ValueConstruct steady_RawMemory_plus steady_RawMemory_index
  steady_DestroyN steady_destroy_n steady_move_n steady_move_backward_n : steady.

Section Accounting3.

Context {T : Type} `{ET : Element T}.

Local Abbreviation M := (@M T).
Local Abbreviation machine := (@machine T).

Implicit Types (st s : machine) (m : RawMemory) (b : block T) (v : Vector).
Implicit Types (l : list T) (i n : nat) (this : oid) (p : ptr).

Lemma steady_uninitialized_copy_n p n q : steady (uninitialized_copy_n p n q : M unit).
Proof. apply steady_uninitialized_loop. intros. apply steady_CopyConstruct. Qed.

Lemma steady_uninitialized_move_n p n q : steady (uninitialized_move_n p n q : M unit).
Proof. apply steady_uninitialized_loop. intros. apply steady_MoveConstruct. Qed.

Lemma steady_uninitialized_value_construct_n p n :
  steady (uninitialized_value_construct_n p n : M unit).
Proof. apply steady_uninitialized_loop. intros. apply steady_ValueConstruct. Qed.

Lemma steady_uninitialized_copy p q r : steady (uninitialized_copy p q r : M unit).
Proof.
  unfold uninitialized_copy. apply steady_bind; [apply steady_lift_opt|].
  intros n. apply steady_uninitialized_copy_n.
Qed.

Lemma steady_uninitialized_value_construct p q :
  steady (uninitialized_value_construct p q : M unit).
Proof.
  unfold uninitialized_value_construct. apply steady_bind; [apply steady_lift_opt|].
  intros n. apply steady_uninitialized_value_construct_n.
Qed.

Lemma steady_std_move p q r : steady (std_move p q r : M ptr).
Proof.
  unfold std_move. apply steady_bind; [apply steady_lift_opt|].
  intros n. apply steady_move_n.
Qed.

Lemma steady_move_backward p q r : steady (move_backward p q r : M ptr).
Proof.
  unfold move_backward. apply steady_bind; [apply steady_lift_opt|].
  intros n. apply steady_move_backward_n.
Qed.

Lemma steady_vend v : steady (vend v : M ptr).
Proof. apply steady_RawMemory_plus. Qed.

Lemma steady_get_vec this : steady (get_vec this : M Vector).
Proof. intros st. unfold post, get_vec. by destruct (_ !! _). Qed.

End Accounting3.

#[export] Hint Resolve steady_uninitialized_copy_n steady_uninitialized_move_n
  steady_uninitialized_value_construct_n steady_uninitialized_copy
  steady_uninitialized_value_construct steady_std_move steady_move_backward
  steady_vend steady_get_vec : steady.

Section Accounting4.

Context {T : Type} `{ET : Element T}.

Local Abbreviation M := (@M T).
Local Abbreviation machine := (@machine T).

Implicit Types (st s : machine) (m : RawMemory) (b : block T) (v : Vector).
Implicit Types (l : list T) (i n : nat) (this : oid) (p : ptr).

Lemma post_set_vec st this v (Q : unit → machine → Prop) R :
  Q tt (set_obj this v st) → post (set_vec this v) st Q R.
Proof. done. Qed.

Lemma post_steady {A} (mm : M A) st (Q : A → machine → Prop) (R : machine → Prop) :
  steady mm →
  (∀ a s, live s = live st → objs s = objs st → Q a s) →
  (∀ s, live s = live st → objs s = objs st → R s) →
  post mm st Q R.
Proof.
  intros Hm HQ HR. eapply post_mono; [apply Hm| |].
  - intros a s [? ?]. by apply HQ.
  - intros s [? ?]. by apply HR.
Qed.

(** [RawMemory(capacity)] obtains one block, none for capacity 0 or when
    the allocation throws. *)
Lemma post_RawMemory_ctor n st :
  post (RawMemory_ctor n) st
       (fun m s => live s = live st + held m ∧ objs s = objs st ∧
                   (n = 0 → held m = 0) ∧ (n ≠ 0 → held m = 1))
       (fun s => live s = live st ∧ objs s = objs st).
Proof.
  unfold post, RawMemory_ctor, Allocate, operator_new, fresh_block, bind, tick.
  destruct n as [|n]; simpl.
  { split; [unfold held; simpl; lia|]. split; [done|]. split; [done|]. by intros []. }
  destruct (throws KAlloc (clock st)); simpl; [done|].
  split; [|done]. unfold live, held. simpl. rewrite live_app. lia.
Qed.

Lemma post_RawMemory_of_size n st :
  post (RawMemory_of_size n) st
       (fun m s => live s = live st + held m ∧ objs s = objs st ∧
                   (n = 0 → held m = 0) ∧ (n ≠ 0 → held m = 1))
       (fun s => live s = live st ∧ objs s = objs st).
Proof.
  unfold post, RawMemory_of_size, Allocate_of_size, operator_new, fresh_block, bind, tick.
  destruct n as [|n]; simpl.
  { split; [unfold held; simpl; lia|]. split; [done|]. split; [done|]. by intros []. }
  destruct (throws KAlloc (clock st)); simpl; [done|].
  split; [|done]. unfold live, held. simpl. rewrite live_app. lia.
Qed.

(** [~RawMemory()] releases the block the object holds. *)
Lemma post_RawMemory_dtor m st :
  post (RawMemory_dtor m) st
       (fun _ s => live s + held m = live st ∧ objs s = objs st)
       (fun _ => False).
Proof.
  unfold post, RawMemory_dtor, Deallocate, operator_delete, held.
  destruct (base (buffer_ m)) as [a|]; simpl; [|split; [lia|done]].
  destruct (heap st !! a) as [[b|]|] eqn:E; try done.
  destruct (decide _); [|done]. split; [|done].
  unfold live. simpl. rewrite <- (live_insert_None _ a b E). lia.
Qed.

Lemma balanced_refl this v st : objs st !! this = Some v → balanced this v st st.
Proof. intros Hv. exists v. by rewrite insert_id. Qed.

Lemma balanced_same this v st s :
  objs st !! this = Some v → live s = live st → objs s = objs st →
  balanced this v st s.
Proof. intros Hv Hl Ho. exists v. rewrite insert_id by done. split; [done|lia]. Qed.

Lemma balanced_step this v st s s' :
  balanced this v st s → live s' = live s → objs s' = objs s → balanced this v st s'.
Proof. intros (v' & Ho & Hl) Hl' Ho'. exists v'. split; [congruence|lia]. Qed.

Lemma balanced_lookup this v st s :
  balanced this v st s → ∃ v', objs s !! this = Some v' ∧
    objs s = <[this := v']> (objs st) ∧
    live s + held (data_ v) = live st + held (data_ v').
Proof.
  intros (v' & Ho & Hl). exists v'. by rewrite Ho, lookup_insert_eq.
Qed.

Lemma balanced_set_size this v st s n :
  balanced this v st s → post (set_size this n) s (fun _ => balanced this v st) (fun _ => False).
Proof.
  intros Hb. destruct (balanced_lookup _ _ _ _ Hb) as (v' & Hv' & Ho & Hl).
  unfold set_size. apply post_bind. eapply post_get_vec; [done|].
  apply post_set_vec. exists (MkVec (data_ v') n). simpl.
  by rewrite Ho, insert_insert_eq.
Qed.

(** A new block that is filled by steady code under the protection of
    its destructor, as in the growth paths: one more live block when the
    filling returns, none when an exception leaves it. *)
Lemma post_filled {A} new st0 st (body : M A) (Q : A → machine → Prop)
    (R : machine → Prop) :
  steady body →
  live st = live st0 + held new → objs st = objs st0 →
  (∀ a s, live s = live st0 + held new → objs s = objs st0 → Q a s) →
  (∀ s, live s = live st0 → objs s = objs st0 → R s) →
  post (on_unwind (RawMemory_dtor new) body) st Q R.
Proof.
  intros Hb Hl Ho HQ HR. apply post_on_unwind. apply post_steady; [done| |].
  - intros a s Hl1 Ho1. apply HQ; congruence.
  - intros s Hl1 Ho1. eapply post_mono; [apply post_RawMemory_dtor| |done]. simpl.
    intros [] s2 [Hl2 Ho2]. apply HR; [lia|congruence].
Qed.

(** The end of a growth path: the vector takes the new block and the
    old one is released. *)
Lemma post_swap_release this v new size st0 s :
  live s = live st0 + held new → objs s = objs st0 →
  post (set_vec this (MkVec (MkRaw (buffer_ new) (capacity_ new)) size) ;;;
        RawMemory_dtor (MkRaw (buffer_ (data_ v)) (capacity_ (data_ v)))) s
       (fun _ => balanced this v st0) (balanced this v st0).
Proof.
  intros Hl Ho. apply post_bind, post_set_vec.
  eapply post_mono; [apply post_RawMemory_dtor| |done]. simpl.
  intros [] s2 [Hl2 Ho2].
  exists (MkVec (MkRaw (buffer_ new) (capacity_ new)) size).
  split; [rewrite Ho2; simpl; by rewrite Ho|].
  unfold held, live in *. simpl in *. lia.
Qed.

Lemma post_Reserve this n st v :
  objs st !! this = Some v →
  post (Reserve this n) st (fun _ => balanced this v st) (balanced this v st).
Proof.
  intros Hv. unfold Reserve. apply post_bind. eapply post_get_vec; [done|].
  destruct (n <=? _); [by apply post_ret, balanced_refl|].
  apply post_bind.
  eapply post_mono; [apply post_RawMemory_ctor| |]; simpl.
  2: { intros s [? ?]. by apply balanced_same. }
  intros new s (Hl & Ho & _). apply post_bind.
  apply (post_filled new st); [steady|done|done| |].
  - intros [] s1 Hl1 Ho1. unfold RawMemory_Swap. by apply post_swap_release.
  - intros s1 Hl1 Ho1. by apply balanced_same.
Qed.

Lemma post_balanced_then {A} this v st s (mm : M A) (Q : A → machine → Prop) R :
  balanced this v st s → steady mm →
  (∀ a s', balanced this v st s' → Q a s') →
  (∀ s', balanced this v st s' → R s') →
  post mm s Q R.
Proof.
  intros Hb Hm HQ HR. apply post_steady; [done| |].
  - intros a s' ? ?. apply HQ. by eapply balanced_step.
  - intros s' ? ?. apply HR. by eapply balanced_step.
Qed.

Lemma post_EmplaceBack this k x st v :
  objs st !! this = Some v →
  post (EmplaceBack this k x) st (fun _ => balanced this v st) (balanced this v st).
Proof.
  intros Hv. unfold EmplaceBack. apply post_bind. eapply post_get_vec; [done|].
  apply post_bind.
  eapply post_mono with (Q := fun _ => balanced this v st) (R := balanced this v st);
    [| |done].
  { destruct (size_ v <? Capacity v).
    - apply post_steady; [steady| |]; intros; by apply balanced_same.
    - apply post_bind.
      eapply post_mono; [apply post_RawMemory_of_size| |]; simpl.
      2: { intros s [? ?]. by apply balanced_same. }
      intros new s (Hl & Ho & _). apply post_bind.
      apply (post_filled new st); [steady|done|done| |].
      + intros [] s1 Hl1 Ho1. unfold RawMemory_Swap. by apply post_swap_release.
      + intros s1 Hl1 Ho1. by apply balanced_same. }
  simpl. intros u s Hb.
  destruct (balanced_lookup _ _ _ _ Hb) as (v' & Hv' & Ho & Hl).
  apply post_bind. eapply post_get_vec; [done|].
  apply post_bind, post_set_vec.
  assert (balanced this v st (set_obj this (MkVec (data_ v') (S (size_ v'))) s)) as Hb'.
  { exists (MkVec (data_ v') (S (size_ v'))). simpl. by rewrite Ho, insert_insert_eq. }
  eapply post_balanced_then; [exact Hb'|steady|auto|auto].
Qed.

Lemma post_Emplace this pos k x st v :
  objs st !! this = Some v →
  post (Emplace this pos k x) st (fun _ => balanced this v st) (balanced this v st).
Proof.
  intros Hv. unfold Emplace. apply post_bind. eapply post_get_vec; [done|].
  apply post_bind. apply post_steady; [steady| |].
  2: { intros; by apply balanced_same. }
  intros id s Hl Ho. assert (objs s !! this = Some v) as Hv' by (by rewrite Ho).
  assert (balanced this v st s) as Hb0 by (by apply balanced_same).
  destruct (negb _).
  - apply post_bind.
    eapply post_mono with (Q := fun _ => balanced this v st) (R := balanced this v st);
      [| |done].
    { eapply post_balanced_then; [exact Hb0|steady|auto|auto]. }
    simpl. intros u s1 Hb1. apply post_bind.
    eapply post_mono; [by apply balanced_set_size| |done]. simpl.
    intros u' s2 Hb2. by apply post_ret.
  - apply post_bind.
    eapply post_mono; [apply post_RawMemory_of_size| |]; simpl.
    2: { intros s1 [? ?]. apply balanced_same; [done|lia|congruence]. }
    intros new s1 (Hl1 & Ho1 & _). apply post_bind.
    apply (post_filled new st); [steady|lia|congruence| |].
    2: { intros s2 ? ?. by apply balanced_same. }
    intros r s2 Hl2 Ho2. unfold RawMemory_Swap. apply post_bind, post_set_vec.
    apply post_bind. unfold set_size. apply post_bind.
    eapply post_get_vec; [simpl; apply lookup_insert_eq|].
    apply post_set_vec. apply post_bind.
    eapply post_mono; [apply post_RawMemory_dtor| |done]. simpl.
    intros u' s4 [Hl4 Ho4]. apply post_ret.
    exists (MkVec (MkRaw (buffer_ new) (capacity_ new)) (S (size_ v))).
    split; [rewrite Ho4; simpl; by rewrite insert_insert_eq, Ho2|].
    unfold held, live in *. simpl in *. lia.
Qed.

Lemma post_Resize this n st v :
  objs st !! this = Some v →
  post (Resize this n) st (fun _ => balanced this v st) (balanced this v st).
Proof.
  intros Hv. unfold Resize. apply post_bind. eapply post_get_vec; [done|].
  apply post_bind.
  eapply post_mono with (Q := fun _ => balanced this v st) (R := balanced this v st);
    [| |done].
  { destruct (n <=? size_ v).
    - apply post_steady; [steady| |]; intros; by apply balanced_same.
    - apply post_bind. eapply post_mono; [by apply post_Reserve| |done]. simpl.
      intros u s Hb. eapply post_balanced_then; [exact Hb|steady|auto|auto]. }
  simpl. intros u s Hb. eapply post_mono; [by apply balanced_set_size|done|done].
Qed.

Lemma post_PopBack this st v :
  objs st !! this = Some v →
  post (PopBack this) st (fun _ => balanced this v st) (balanced this v st).
Proof.
  intros Hv. unfold PopBack. apply post_bind. eapply post_get_vec; [done|].
  apply post_bind. apply post_steady; [steady| |].
  2: { intros; by apply balanced_same. }
  intros e s Hl Ho. apply post_bind. apply post_steady; [steady| |].
  2: { intros; apply balanced_same; [done|lia|congruence]. }
  intros p s1 Hl1 Ho1. apply post_bind. apply post_steady; [steady| |].
  2: { intros; apply balanced_same; [done|lia|congruence]. }
  intros u s2 Hl2 Ho2.
  eapply post_mono; [apply (balanced_set_size this v st)|done|done].
  apply balanced_same; [done|lia|congruence].
Qed.

Lemma post_Erase this pos st v :
  objs st !! this = Some v →
  post (Erase this pos) st (fun _ => balanced this v st) (balanced this v st).
Proof.
  intros Hv. unfold Erase. apply post_bind. eapply post_get_vec; [done|].
  do 4 (apply post_bind; apply post_steady;
        [steady| |intros; apply balanced_same; [done|lia|congruence]];
        intros ? ? ? ?).
  apply post_bind.
  eapply post_mono; [apply (balanced_set_size this v st)| |done].
  { apply balanced_same; [done|lia|congruence]. }
  simpl. intros u s' Hb. eapply post_balanced_then; [exact Hb|steady|auto|auto].
Qed.


Lemma post_Vector_copy_ctor other st :
  post (Vector_copy_ctor other) st
       (fun v s => live s = live st + held (data_ v) ∧ objs s = objs st)
       (fun s => live s = live st ∧ objs s = objs st).
Proof.
  unfold Vector_copy_ctor. apply post_bind.
  apply post_steady; [steady| |done].
  intros o s0 Hl0 Ho0. apply post_bind.
  eapply post_mono; [apply post_RawMemory_of_size| |]; simpl.
  2: { intros s [? ?]. split; congruence. }
  intros new s (Hl & Ho & _). apply post_bind.
  apply (post_filled new st); [steady|lia|congruence| |done].
  intros u s1 Hl1 Ho1. by apply post_ret.
Qed.

Lemma calm_bind {A B} (mm : M A) (f : A → M B) :
  calm mm → (∀ a, calm (f a)) → calm (bind mm f).
Proof.
  intros Hm Hf st. apply post_bind. eapply post_mono; [apply Hm| |done].
  intros a s _. apply Hf.
Qed.

Lemma calm_Destroy p : calm (Destroy p : M unit).
Proof.
  intros st. unfold post, Destroy, bind, load, write_slot.
  destruct (_ ≫= _); [|done]. destruct (base p); [|done].
  destruct (block_at st p); [|done]. by destruct (decide _).
Qed.

Lemma calm_for_each (body : nat → M unit) (js : list nat) :
  (∀ i, calm (body i)) → calm (for_each js body).
Proof.
  intros Hb. induction js as [|j js IH]; simpl; [done|].
  apply calm_bind; [apply Hb|]. by intros _.
Qed.

Lemma calm_DestroyN p n : calm (DestroyN p n : M unit).
Proof. apply calm_for_each. intros i. apply calm_Destroy. Qed.

Lemma post_conj {A} (mm : M A) st (Q1 Q2 : A → machine → Prop) (R1 R2 : machine → Prop) :
  post mm st Q1 R1 → post mm st Q2 R2 →
  post mm st (fun a s => Q1 a s ∧ Q2 a s) (fun s => R1 s ∧ R2 s).
Proof. unfold post. by destruct (mm st). Qed.

Lemma post_Vector_dtor v st :
  post (Vector_dtor v) st
       (fun _ s => live s + held (data_ v) = live st ∧ objs s = objs st)
       (fun _ => False).
Proof.
  unfold Vector_dtor. apply post_bind.
  eapply post_mono;
    [apply (post_conj _ _ _ _ _ _ (steady_DestroyN _ _ st) (calm_DestroyN _ _ st))| |].
  2: { by intros s [_ []]. }
  simpl. intros u s [[Hl Ho] _].
  eapply post_mono; [apply post_RawMemory_dtor| |done]. simpl.
  intros u' s' [? ?]. split; [lia|congruence].
Qed.

Lemma post_copy_assign this rhs st v :
  objs st !! this = Some v →
  post (copy_assign this rhs) st (fun _ => balanced this v st) (balanced this v st).
Proof.
  intros Hv. unfold copy_assign. destruct (decide _); [|by apply post_ret, balanced_refl].
  apply post_bind. eapply post_get_vec; [done|].
  apply post_bind. apply post_steady; [steady| |].
  2: { intros; by apply balanced_same. }
  intros r s Hl Ho. assert (balanced this v st s) as Hb by (by apply balanced_same).
  destruct (_ <=? _).
  - assert (∀ (mm : M unit) n', steady mm →
              post (mm ;;; set_size this n') s
                   (fun _ => balanced this v st) (balanced this v st)) as Hin.
    { intros mm n' Hm. apply post_bind.
      eapply post_balanced_then; [exact Hb|done| |auto].
      intros u s1 Hb1. eapply post_mono; [by apply balanced_set_size|done|done]. }
    destruct (_ <? _).
    + pose proof (Hin (for_range 0 (size_ r) (fun i =>
          d <- RawMemory_index (data_ v) i ;;
          s <- RawMemory_index (data_ r) i ;;
          CopyAssign d s) ;;;
        for_range (size_ r) (size_ v) (fun i =>
          Destroy (ptr_add (GetAddress (data_ v)) i))) (size_ r) ltac:(steady)) as H1.
      revert H1. unfold post, bind.
      destruct (for_range 0 (size_ r) _ s); [|done..].
      by destruct (for_range (size_ r) (size_ v) _ _).
    + pose proof (Hin (for_range 0 (size_ v) (fun i =>
          d <- RawMemory_index (data_ v) i ;;
          s <- RawMemory_index (data_ r) i ;;
          CopyAssign d s) ;;;
        uninitialized_copy (ptr_add (GetAddress (data_ r)) (size_ v))
                           (ptr_add (GetAddress (data_ r)) (size_ r))
                           (ptr_add (GetAddress (data_ v)) (size_ v)))
        (size_ r) ltac:(steady)) as H1.
      revert H1. unfold post, bind.
      destruct (for_range 0 (size_ v) _ s); [|done..].
      by destruct (uninitialized_copy _ _ _ _).
  - apply post_bind.
    eapply post_mono; [apply post_Vector_copy_ctor| |]; simpl.
    2: { intros s1 [? ?]. apply balanced_same; [done|lia|congruence]. }
    intros c s1 [Hl1 Ho1]. destruct c as [[pc cc] nc], v as [[pv cv] nv]. simpl in *.
    apply post_bind, post_set_vec.
    eapply post_mono; [apply post_Vector_dtor| |]; simpl.
    + intros u s2 [Hl2 Ho2]. exists (MkVec (MkRaw pc cc) nc).
      split; [rewrite Ho2; simpl; by rewrite Ho1, Ho|].
      unfold held, live in *. simpl in *. lia.
    + by intros s2 [].
Qed.

End Accounting4.

Section Cost.

Context {T : Type} `{ET : Element T}.

Local Abbreviation M := (@M T).
Local Abbreviation machine := (@machine T).

Implicit Types (st s : machine) (m : RawMemory) (b : block T) (v : Vector).
Implicit Types (l : list T) (i n : nat) (this : oid) (p : ptr).

Lemma costs_ret {A} (a : A) : costs (ret a : M A) 0.
Proof. intros st. unfold post, ret. lia. Qed.

Lemma costs_undef {A} : costs (undef : M A) 0.
Proof. by intros st. Qed.

Lemma costs_bind {A B} (mm : M A) (f : A → M B) n1 n2 :
  costs mm n1 → (∀ a, costs (f a) n2) → costs (bind mm f) (n1 + n2).
Proof.
  intros Hm Hf st. apply post_bind. eapply post_mono; [apply Hm| |done].
  intros a s E. eapply post_mono; [apply Hf| |done]. intros b s' E'. simpl in *. lia.
Qed.

Lemma costs_eq {A} (mm : M A) n n' : costs mm n → n = n' → costs mm n'.
Proof. by intros H <-. Qed.

Lemma costs_lift_opt {A} (o : option A) : costs (lift_opt o : M A) 0.
Proof. destruct o; [apply costs_ret|apply costs_undef]. Qed.

Lemma costs_assert (c : bool) : costs (assert c : M unit) 0.
Proof. destruct c; [apply costs_ret|apply costs_undef]. Qed.

Lemma costs_tick k : costs (tick k) 1.
Proof. intros st. unfold post, tick. destruct (throws k (clock st)); simpl; lia. Qed.

Lemma costs_load p : costs (load p : M T) 0.
Proof. intros st. unfold post, load. destruct (_ ≫= _); simpl; lia. Qed.

Lemma costs_write_slot p (o : option T) : costs (write_slot p o) 0.
Proof.
  intros st. unfold post, write_slot.
  destruct (base p); [|done]. destruct (block_at st p); [|done].
  destruct (decide _); simpl; lia.
Qed.

Lemma costs_get_vec this : costs (get_vec this : M Vector) 0.
Proof. intros st. unfold post, get_vec. destruct (_ !! _); simpl; lia. Qed.

Lemma costs_set_vec this v : costs (set_vec this v : M unit) 0.
Proof. intros st. unfold post, set_vec. simpl. lia. Qed.

Lemma costs_for_each (body : nat → M unit) (js : list nat) c :
  (∀ i, costs (body i) c) → costs (for_each js body) (length js * c).
Proof.
  intros Hb. induction js as [|j js IH]; simpl; [apply costs_ret|].
  apply costs_bind; [apply Hb|]. by intros _.
Qed.

Lemma costs_for_range lo hi (body : nat → M unit) c :
  (∀ i, costs (body i) c) → costs (for_range lo hi body) ((hi - lo) * c).
Proof.
  intros Hb. unfold for_range.
  eapply costs_eq; [by apply costs_for_each|]. by rewrite length_seq.
Qed.

(** With a destructor that runs during unwinding the exception goes on:
    the protected code returns only when its body returns. *)
Lemma costs_on_unwind {A} (dtor : M unit) (body : M A) n :
  costs body n → costs (on_unwind dtor body) n.
Proof.
  intros Hb st. pose proof (Hb st) as H. revert H.
  unfold post, on_unwind, try_catch, bind, rethrow.
  destruct (body st) as [a s|s|]; [done| |done]. intros _. by destruct (dtor s).
Qed.

Lemma costs_uninitialized_loop (make : ptr → nat → M unit) d n c :
  (∀ q i, costs (make q i) c) →
  ∀ done, costs (uninitialized_loop make d done n) (n * c).
Proof.
  intros Hm. induction n as [|n IH]; intros done; simpl; [apply costs_ret|].
  apply costs_bind; [|by intros _].
  intros st. pose proof (Hm (ptr_add d done) done st) as H. revert H.
  unfold post, try_catch, bind, rethrow.
  destruct (make _ _ st) as [a s|s|]; [done| |done]. intros _.
  by destruct (for_range _ _ _ s).
Qed.

End Cost.

#[export] Hint Resolve costs_ret costs_undef costs_lift_opt costs_assert costs_tick
  costs_load costs_write_slot costs_get_vec costs_set_vec : costs.

(** [costs m n] for code built from binds: the parts are added up and
    the sum is compared with [n]. *)
Ltac costs :=
  eapply costs_eq;
  [ repeat first
      [ progress intros
      | solve [eauto with costs]
      | apply costs_bind
      | apply costs_on_unwind
      | apply costs_for_range ]
  | try (simpl; lia) ].

(** A goal on the outcome of [m] that is the cost [n] of [m]. *)
Ltac by_costs n :=
  match goal with
  | |- post ?mm ?st _ _ =>
      let H := fresh in assert (costs mm n) as H; [|exact (H st)]
  end.

Section Cost2.

Context {T : Type} `{ET : Element T}.

Local Abbreviation M := (@M T).
Local Abbreviation machine := (@machine T).

Implicit Types (st s : machine) (m : RawMemory) (b : block T) (v : Vector).
Implicit Types (l : list T) (i n : nat) (this : oid) (p : ptr).

Lemma costs_construct p (x : T) : costs (construct p x) 0.
Proof. apply costs_write_slot. Qed.

Lemma costs_store p (x : T) : costs (store p x) 0.
Proof. unfold store. costs. Qed.

Lemma costs_Destroy p : costs (Destroy p : M unit) 0.
Proof. unfold Destroy. costs. Qed.

Lemma costs_DestroyN p n : costs (DestroyN p n : M unit) 0.
Proof.
  unfold DestroyN. eapply costs_eq; [apply costs_for_range|].
  - intros i. apply costs_Destroy.
  - lia.
Qed.

Lemma costs_CopyConstruct p q : costs (CopyConstruct p q : M unit) 1.
Proof. unfold CopyConstruct, construct. costs. Qed.

Lemma costs_MoveConstruct p q : costs (MoveConstruct p q : M unit) 1.
Proof. unfold MoveConstruct, construct, store. costs. Qed.

Lemma costs_MoveAssign p q : costs (MoveAssign p q : M unit) 1.
Proof. unfold MoveAssign, store. costs. Qed.

Lemma costs_RawMemory_plus m i : costs (RawMemory_plus m i : M ptr) 0.
Proof. unfold RawMemory_plus. costs. Qed.

Lemma costs_RawMemory_index m i : costs (RawMemory_index m i : M ptr) 0.
Proof. unfold RawMemory_index. costs. Qed.

Lemma costs_RawMemory_ctor n : costs (RawMemory_ctor n : M RawMemory) (if n =? 0 then 0 else 1).
Proof.
  intros st. unfold post, RawMemory_ctor, Allocate, operator_new, fresh_block, bind, tick.
  destruct n; simpl; [lia|]. destruct (throws KAlloc (clock st)); simpl; lia.
Qed.

Lemma costs_RawMemory_of_size n :
  costs (RawMemory_of_size n : M RawMemory) (if n =? 0 then 0 else 1).
Proof.
  intros st.
  unfold post, RawMemory_of_size, Allocate_of_size, operator_new, fresh_block, bind, tick.
  destruct n; simpl; [lia|]. destruct (throws KAlloc (clock st)); simpl; lia.
Qed.

Lemma costs_RawMemory_dtor m : costs (RawMemory_dtor m : M unit) 0.
Proof.
  intros st. unfold post, RawMemory_dtor, Deallocate, operator_delete.
  destruct (base (buffer_ m)) as [a|]; simpl; [|lia].
  destruct (heap st !! a) as [[b|]|]; try done. destruct (decide _); simpl; lia.
Qed.

Lemma costs_move_n n : ∀ p q, costs (move_n n p q : M ptr) n.
Proof.
  induction n as [|n IH]; intros p q; simpl; [apply costs_ret|].
  eapply costs_eq; [apply costs_bind; [apply costs_MoveAssign|intros _; apply IH]|lia].
Qed.

End Cost2.

#[export] Hint Resolve costs_construct costs_store costs_Destroy costs_DestroyN
  costs_CopyConstruct costs_MoveConstruct costs_MoveAssign costs_RawMemory_plus
  costs_RawMemory_index costs_RawMemory_ctor costs_RawMemory_of_size
  costs_RawMemory_dtor : costs.

Section Cost3.

Context {T : Type} `{ET : Element T}.

Local Abbreviation M := (@M T).
Local Abbreviation machine := (@machine T).

Implicit Types (st s : machine) (m : RawMemory) (b : block T) (v : Vector).
Implicit Types (l : list T) (i n : nat) (this : oid) (p : ptr).

(** An append that returns has run one constructor when there was room,
    and else one allocation, one constructor and one relocation for
    each element. *)
Lemma post_cost_EmplaceBack this k x st v :
  objs st !! this = Some v →
  post (EmplaceBack this k x) st
       (fun _ s => clock s = clock st +
                     (if size_ v <? Capacity v then 1 else size_ v + 2))
       (fun _ => True).
Proof.
  intros Hv. unfold EmplaceBack. apply post_bind. eapply post_get_vec; [done|].
  destruct (size_ v <? Capacity v).
  - by_costs 1. costs.
  - unfold RawMemory_Swap. destruct nothrow_relocate.
    + by_costs (size_ v + 2). costs. destruct (size_ v); simpl; lia.
    + by_costs (size_ v + 2). costs. destruct (size_ v); simpl; lia.
Qed.

Lemma appends_cons_inv this k x (xs : list (op_kind * T)) st caps st' :
  appends this ((k, x) :: xs) st = Ok caps st' →
  ∃ p s1 v1 caps', EmplaceBack this k x st = Ok p s1 ∧ objs s1 !! this = Some v1 ∧
                   appends this xs s1 = Ok caps' st'.
Proof.
  intros E. cbn [appends] in E. unfold bind, get_vec in E.
  destruct (EmplaceBack this k x st) as [p s1|s1|]; [|done..].
  destruct (objs s1 !! this) as [v1|] eqn:Hv1; [|done].
  destruct (appends this xs s1) as [caps' s2|s2|] eqn:E2; [|done..].
  inversion E. subst. by exists p, s1, v1, caps'.
Qed.

(** The cost of a run of appends, with the potential [2 * size -
    capacity]: each append costs at most 4 operations more than the
    potential it adds, and at least one. *)
Lemma appends_cost (xs : list (op_kind * T)) : ∀ this st v l caps st',
  objs st !! this = Some v → represents st v l → Capacity v ≤ 2 * Size v →
  appends this xs st = Ok caps st' →
  ∃ v', objs st' !! this = Some v' ∧ Capacity v' ≤ 2 * Size v' ∧
        Size v' = Size v + length xs ∧
        clock st' + 2 * Size v' + Capacity v
          ≤ clock st + 2 * Size v + Capacity v' + 4 * length xs ∧
        clock st + length xs ≤ clock st'.
Proof.
  induction xs as [|[k x] xs IH]; intros this st v l caps st' Hv Hrep Hcap E.
  - inversion E. subst. exists v. simpl. split; [done|]. split; [done|]. lia.
  - destruct (appends_cons_inv _ _ _ _ _ _ _ E) as (p & s1 & v1 & caps' & E1 & Hv1 & E2).
    destruct (wp_Ok _ _ _ _ _ _ (wp_EmplaceBack st this v l k x Hv Hrep) E1)
      as (v1' & Ho1 & Hrep1 & Hcap1 & _).
    assert (v1' = v1) as -> by (rewrite Ho1, lookup_insert_eq in Hv1; by inversion Hv1).
    pose proof (post_Ok _ _ _ _ _ _ (post_cost_EmplaceBack this k x st v Hv) E1) as Hc1.
    simpl in Hc1.
    pose proof Hrep as (Hs & Hle & _). pose proof Hrep1 as (Hs1 & _).
    rewrite length_app in Hs1. simpl in Hs1.
    unfold Size, Capacity, RawMemory_Capacity, grow in *.
    assert (capacity_ (data_ v1) ≤ 2 * size_ v1) as Hcap1'.
    { destruct (Nat.ltb_spec (size_ v) (capacity_ (data_ v))); lia. }
    destruct (IH this s1 v1 _ caps' st' Hv1 Hrep1 Hcap1' E2)
      as (v' & Hv' & Hcap' & Hsz' & Hpot & Hlow).
    exists v'. split; [done|]. split; [done|]. simpl.
    destruct (Nat.ltb_spec (size_ v) (capacity_ (data_ v))); lia.
Qed.

End Cost3.

Section Reading.

Context {T : Type} `{ET : Element T}.

Local Abbreviation M := (@M T).
Local Abbreviation machine := (@machine T).

Implicit Types (st s : machine) (m : RawMemory) (b : block T) (v : Vector).
Implicit Types (l : list T) (i n : nat) (this : oid) (p : ptr).

Lemma wp_run {A} (mm : M A) st (a0 : A) s0 :
  wp mm st (fun a s => a = a0 ∧ s = s0) (fun _ => False) → mm st = Ok a0 s0.
Proof. unfold wp. destruct (mm st) as [a s|s|]; [|done..]. by intros [-> ->]. Qed.

Lemma wp_returns {A} (mm : M A) st (Q : A → machine → Prop) :
  wp mm st Q (fun _ => False) → ∃ a s, mm st = Ok a s ∧ Q a s.
Proof. intros H. by destruct (wp_cases _ _ _ _ H) as [?|(s & _ & [])]. Qed.

Lemma load_element st v l i x :
  represents st v l → l !! i = Some x → load (ptr_add (vbegin v) i) st = Ok x st.
Proof.
  intros (_ & _ & Ho) Hx. apply wp_run.
  eapply wp_load; [exact Ho|by apply layout_lookup_lt|done].
Qed.

Lemma load_beyond st v l i :
  represents st v l → length l ≤ i → load (ptr_add (vbegin v) i) st = Undef.
Proof.
  intros (_ & Hc & Hlen & Hoff & Hb) Hi.
  unfold load, block_at, vbegin, GetAddress. simpl. rewrite Hoff. simpl.
  destruct (base (buffer_ (data_ v))) as [a|]; [|done]. simpl. rewrite Hb. simpl.
  destruct (decide (i < capacity_ (data_ v))) as [Hlt|Hge].
  - by rewrite layout_lookup_ge.
  - rewrite lookup_ge_None_2; [done|]. lia.
Qed.

Lemma Vector_index_at this st v l i x :
  objs st !! this = Some v → represents st v l → l !! i = Some x →
  Vector_index this i st = Ok (ptr_add (vbegin v) i) st.
Proof.
  intros Hv (Hs & Hc & _) Hx. pose proof (lookup_lt_Some _ _ _ Hx) as Hi.
  unfold Vector_index, bind, get_vec. rewrite Hv.
  destruct (Nat.ltb_spec i (size_ v)) as [_|]; [|lia]. simpl.
  unfold RawMemory_index, bind.
  by destruct (Nat.ltb_spec i (capacity_ (data_ v))) as [_|]; [|lia].
Qed.

Lemma wp_throws {A} (mm : M A) st s0 :
  wp mm st (fun _ _ => False) (fun s => s = s0) → mm st = Throw s0.
Proof. unfold wp. destruct (mm st) as [a s|s|]; [done| |done]. by intros ->. Qed.

Lemma balanced_unchanged this v st s :
  objs st !! this = Some v → balanced this v st s → objs s = objs st →
  live s = live st.
Proof.
  intros Hv (v' & Ho & Hl) E. rewrite E in Ho.
  apply (f_equal (fun o => o !! this)) in Ho.
  rewrite Hv, lookup_insert_eq in Ho. inversion Ho. subst v'. lia.
Qed.

Lemma EmplaceBack_room_Throw this k x st v l :
  objs st !! this = Some v → represents st v l → Size v < Capacity v →
  throws k (clock st) = true → EmplaceBack this k x st = Throw (ticked st).
Proof.
  intros Hv (Hs & Hc & Hown) Hroom E.
  unfold Size, Capacity, RawMemory_Capacity in *.
  assert ((size_ v <? capacity_ (data_ v)) = true) as Hlt by (by apply Nat.ltb_lt).
  apply wp_throws. unfold EmplaceBack, Capacity, RawMemory_Capacity.
  apply wp_bind. eapply wp_get_vec; [done|]. rewrite Hlt.
  apply wp_bind, wp_bind, wp_RawMemory_plus; [lia|].
  apply wp_bind, wp_tick; [by rewrite E|done].
Qed.

Lemma wp_EmplaceBack_room this k x st v l :
  objs st !! this = Some v → represents st v l → Size v < Capacity v →
  throws k (clock st) = false →
  wp (EmplaceBack this k x) st
     (fun p s => p = ptr_add (vbegin v) (size_ v) ∧
        objs s = <[this := MkVec (data_ v) (S (size_ v))]> (objs st) ∧
        clock s = S (clock st) ∧
        represents s (MkVec (data_ v) (S (size_ v))) (l ++ [x]))
     (fun _ => False).
Proof.
  intros Hv (Hs & Hc & Hown) Hroom E.
  unfold Size, Capacity, RawMemory_Capacity in *.
  assert ((size_ v <? capacity_ (data_ v)) = true) as Hlt by (by apply Nat.ltb_lt).
  unfold EmplaceBack, Capacity, RawMemory_Capacity.
  apply wp_bind. eapply wp_get_vec; [done|]. rewrite Hlt.
  apply wp_bind, wp_bind, wp_RawMemory_plus; [lia|].
  apply wp_bind, wp_tick; [|by rewrite E]. intros _.
  eapply wp_construct; [by apply owns_ticked|rewrite length_layout; lia|].
  intros a Ha.
  apply wp_bind. eapply wp_get_vec; [done|].
  apply wp_bind, wp_set_vec.
  apply wp_bind. eapply wp_get_vec; [simpl; apply lookup_insert_eq|].
  simpl. apply wp_RawMemory_index; [lia|].
  rewrite Nat.sub_0_r. split; [done|]. split; [done|]. split; [done|].
  split; [simpl; rewrite length_app; simpl; lia|]. split; [simpl; lia|].
  apply owns_set_obj. simpl. rewrite Hs, layout_snoc by lia.
  eapply owns_set_block_eq; [by apply owns_ticked, Hown|done|].
  rewrite !length_layout; [done|lia|]. rewrite length_app. simpl. lia.
Qed.

(** Appends that fit in the capacity: the storage stays and each append
    runs one constructor. *)
Lemma appends_room (xs : list (op_kind * T)) : ∀ this st v l caps st',
  objs st !! this = Some v → represents st v l →
  length l + length xs ≤ Capacity v →
  appends this xs st = Ok caps st' →
  ∃ v', objs st' !! this = Some v' ∧ data_ v' = data_ v ∧
        represents st' v' (l ++ xs.*2) ∧ clock st' = clock st + length xs.
Proof.
  induction xs as [|[k x] xs IH]; intros this st v l caps st' Hv Hrep Hroom E.
  - inversion E. subst. exists v. simpl. rewrite app_nil_r.
    split; [done|]. split; [done|]. split; [done|]. lia.
  - destruct (appends_cons_inv _ _ _ _ _ _ _ E) as (p & s1 & v1 & caps' & E1 & Hv1 & E2).
    pose proof Hrep as (Hs & _). simpl in Hroom.
    assert (Size v < Capacity v) as Hlt by (unfold Size; lia).
    destruct (throws k (clock st)) eqn:Ek.
    { by rewrite (EmplaceBack_room_Throw this k x st v l Hv Hrep Hlt Ek) in E1. }
    destruct (wp_Ok _ _ _ _ _ _ (wp_EmplaceBack_room this k x st v l Hv Hrep Hlt Ek) E1)
      as (_ & Ho1 & Hc1 & Hrep1).
    rewrite Ho1, lookup_insert_eq in Hv1. inversion Hv1. subst v1.
    assert (objs s1 !! this = Some (MkVec (data_ v) (S (size_ v)))) as Hv1'
      by (by rewrite Ho1, lookup_insert_eq).
    destruct (IH this s1 _ _ caps' st' Hv1' Hrep1) as (v' & Hv' & Hd & Hrep' & Hc'); [|done|].
    { rewrite length_app. simpl. unfold Capacity, RawMemory_Capacity in *. simpl. lia. }
    exists v'. split; [done|]. split; [done|]. split.
    + simpl. by rewrite <- app_assoc in Hrep'.
    + simpl. lia.
Qed.

End Reading.

(** ** Storage that is too small

    What the loops of the class do on a block with fewer slots than the
    capacity that the RawMemory records, as [Allocate(n)] leaves it when
    [n * sizeof(T)] wraps. *)

Section Wrapped.

Context {T : Type} `{ET : Element T}.

Local Abbreviation M := (@M T).
Local Abbreviation machine := (@machine T).

Implicit Types (st s : machine) (m : RawMemory) (b : block T) (v : Vector).
Implicit Types (l : list T) (i n : nat) (this : oid) (p : ptr).

(** Writing behind the last slot of a block has no defined behaviour. *)
Lemma write_slot_beyond st m b p (o : option T) :
  owns st m b → base p = base (buffer_ m) → length b ≤ off p →
  write_slot p o st = Undef.
Proof.
  intros (Hlen & Hoff & Hb) Hp Hle. unfold write_slot, block_at.
  rewrite Hp. destruct (base (buffer_ m)) as [a|]; [|done]. simpl.
  rewrite Hb. simpl. by rewrite decide_False by lia.
Qed.

Lemma post_tick k st (Q : unit → machine → Prop) (R : machine → Prop) :
  (throws k (clock st) = false → Q tt (ticked st)) →
  (throws k (clock st) = true → R (ticked st)) →
  post (tick k) st Q R.
Proof. intros. by apply post_wp, wp_tick. Qed.

(** Copy construction into a block that may be too small: it returns
    only when the slot exists. *)
Lemma post_CopyConstruct_frame st old new bo bn dst src y :
  owns st old bo → owns st new bn →
  base src = base (buffer_ old) → base dst = base (buffer_ new) →
  bo !! off src = Some (Some y) →
  post (CopyConstruct dst src) st
     (fun _ s => off dst < length bn ∧
                 owns s new (<[off dst := Some y]> bn) ∧
                 frame (base (buffer_ new)) st s ∧ objs s = objs st)
     (fun s => threw ∧ s = ticked st).
Proof.
  intros Ho Hn Hsrc Hdst Hy.
  destruct (decide (off dst < length bn)) as [Hlt|Hge].
  - eapply post_mono;
      [apply post_wp, (wp_CopyConstruct_frame st old new bo bn dst src y); done| |done].
    by intros [] s ?.
  - unfold CopyConstruct. apply post_bind, post_wp.
    eapply (wp_load_at _ old bo); [done..|].
    apply post_bind, post_tick; intros E.
    + unfold post, construct.
      rewrite (write_slot_beyond (ticked st) new bn); [done| |done|lia].
      by apply owns_ticked.
    + split; [by exists KCopy, (clock st)|done].
Qed.


(** The loop of the uninitialized-memory algorithms on a destination
    that may be too small, under an invariant [I] that gives the
    destination storage [BN d] after [d] steps. *)
Lemma post_uninitialized_loop_gen (make : ptr → nat → M unit) p0 new
    (I : nat → machine → Prop) (BN : nat → block T) n (R : machine → Prop) :
  base p0 = base (buffer_ new) →
  (∀ d s, d ≤ n → I d s → owns s new (BN d)) →
  (∀ d s i, d ≤ n → I d s → i < d → ∃ y, BN d !! (off p0 + i) = Some (Some y)) →
  (∀ d s, d < n → I d s →
     post (make (ptr_add p0 d) d) s
        (fun _ s' => I (S d) s') (fun s' => threw ∧ I d s')) →
  (∀ d s s', d ≤ n → I d s →
     (s' = s ∨ frame (base (buffer_ new)) s s') → objs s' = objs s →
     (∃ b, owns s' new b) → R s') →
  ∀ k d st, d + k = n → I d st →
    post (uninitialized_loop make p0 d k) st
       (fun _ s => I n s) (fun s => threw ∧ R s).
Proof.
  intros Hp0 Hnew Hlive Hstep HR. induction k as [|k IH]; intros d st Hd Hinv; simpl.
  - apply post_ret. by replace n with d by lia.
  - apply post_bind, post_try_catch.
    eapply post_mono; [apply (Hstep d st); [lia|done]| |].
    + intros [] s Hs. apply IH; [lia|done].
    + intros s (Ht & Hs). apply post_bind, post_wp.
      eapply wp_mono;
        [apply (wp_destroy_frame s new (BN d) p0 0 d (fun _ => False));
         [lia|apply Hnew; [lia|done]|done|]| |done].
      * intros i Hi. apply (Hlive d s); [lia|done|lia].
      * intros [] s' (Hn' & Hobjs' & _ & Hf & Hsame). unfold post, rethrow.
        split; [done|]. apply (HR d s s'); [lia|done| |done|eauto].
        destruct (decide (d = 0)) as [->|]; [left; by apply Hsame|right; apply Hf; lia].
Qed.

(** Copying the objects [xs] to [d_first ..] in a storage that may be
    too small: the copy returns only when there is room for them, and
    when an exception leaves it the destination holds no object. *)
Lemma post_uninitialized_copy_n_frame st old new bo bn (xs : list T) first d_first :
  (xs ≠ [] → base (buffer_ old) ≠ base (buffer_ new)) →
  owns st old bo → owns st new bn →
  base first = base (buffer_ old) → base d_first = base (buffer_ new) →
  take (length xs) (drop (off first) bo) = Some <$> xs →
  post (uninitialized_copy_n first (length xs) d_first) st
     (fun _ s => (xs ≠ [] → off d_first + length xs ≤ length bn) ∧
                 owns s old bo ∧
                 owns s new (list_inserts (off d_first) (Some <$> xs) bn) ∧
                 objs s = objs st)
     (fun s => threw ∧ owns s old bo ∧ frame (base (buffer_ new)) st s ∧
               objs s = objs st ∧ ∃ b', owns s new b').
Proof.
  intros Hne Ho Hn Hf Hd Hseg. unfold uninitialized_copy_n.
  destruct (decide (xs = [])) as [->|Hxs].
  { simpl. apply post_ret. split; [done|]. split; [done|]. done. }
  specialize (Hne Hxs).
  eapply post_mono;
    [apply (post_uninitialized_loop_gen _ d_first new
              (fun d s => (d ≠ 0 → off d_first + d ≤ length bn) ∧
                          owns s new (list_inserts (off d_first) (Some <$> take d xs) bn) ∧
                          frame (base (buffer_ new)) st s ∧ objs s = objs st)
              (fun d => list_inserts (off d_first) (Some <$> take d xs) bn)
              (length xs)
              (fun s => owns s old bo ∧ frame (base (buffer_ new)) st s ∧
                        objs s = objs st ∧ ∃ b', owns s new b')
              Hd) with (d := 0)| |done].
  - by intros d s _ (_ & ? & _).
  - intros d s i Hdn (Hroom & _) Hi.
    destruct (lookup_lt_is_Some_2 xs i) as [y Hy]; [lia|].
    exists y. rewrite list_lookup_inserts.
    + replace (off d_first + i - off d_first) with i by lia.
      rewrite list_lookup_fmap, lookup_take_lt by lia. by rewrite Hy.
    + rewrite length_fmap, length_take. lia.
    + lia.
  - intros d s Hdn (Hroom & Hn' & Hfr & Hobjs).
    destruct (lookup_lt_is_Some_2 xs d) as [y Hy]; [lia|].
    eapply post_mono;
      [apply (post_CopyConstruct_frame s old new bo _ (ptr_add d_first d)
                (ptr_add first d) y (Hfr _ _ Hne Ho) Hn')| |].
    + done.
    + done.
    + simpl. apply (segment_lookup bo (off first) (Some <$> xs) d (Some y)).
      * by rewrite length_fmap.
      * by rewrite list_lookup_fmap, Hy.
    + intros [] s' (Hlt & Hn'' & Hf' & Hobjs'). simpl in Hn'', Hlt.
      rewrite length_inserts in Hlt.
      rewrite (take_S_r _ _ y) by done. rewrite fmap_app. simpl.
      rewrite list_inserts_snoc, length_fmap, length_take.
      replace (off d_first + d `min` length xs) with (off d_first + d) by lia.
      split; [lia|]. split; [done|]. split; [by eapply frame_trans|congruence].
    + intros s' (Ht & ->). split; [done|]. split; [done|]. split; [by apply owns_ticked|].
      split; [|done]. eapply frame_trans; [done|apply frame_ticked].
  - intros d s s' Hdn (Hroom & Hn' & Hfr & Hobjs) Hs' Hobjs' Hb.
    assert (frame (base (buffer_ new)) st s') as Hfr'.
    { destruct Hs' as [->|Hs']; [done|by eapply frame_trans]. }
    split; [by apply Hfr'|]. split; [done|]. split; [congruence|done].
  - lia.
  - split; [done|]. split; [done|]. split; [apply frame_refl|done].
  - intros [] s (Hroom & Hn' & Hfr & Hobjs). rewrite firstn_all in Hn'.
    split; [intros _; apply Hroom; by destruct xs|]. split; [by apply Hfr|]. done.
Qed.


(** [Destroy] returns only on a slot that holds an object. *)
Lemma Destroy_Ok_live st m b p s :
  owns st m b → base p = base (buffer_ m) →
  Destroy p st = Ok tt s →
  ∃ y, b !! off p = Some (Some y) ∧ owns s m (<[off p := None]> b).
Proof.
  intros Ho Hp E. pose proof Ho as (Hlen & Hoff & Hb).
  assert (∃ y, b !! off p = Some (Some y)) as (y & Hy).
  { unfold Destroy, bind, load, block_at in E. rewrite Hp in E.
    destruct (base (buffer_ m)) as [a|]; [|done]. simpl in E.
    rewrite Hb in E. simpl in E.
    destruct (b !! off p) as [[y|]|]; [by exists y|done..]. }
  exists y. split; [done|].
  pose proof (wp_Destroy_at st m b p y
                (fun _ s' => owns s' m (<[off p := None]> b)) (fun _ => False)
                Ho Hp Hy) as Hwp.
  eapply (wp_Ok _ _ _ _ _ _ (Hwp _) E).
  Unshelve. intros a Ha.
  eapply owns_set_block_eq; [done|done|by rewrite length_insert].
Qed.

(** A loop of [Destroy] returns only when each of its slots holds an
    object. *)
Lemma for_each_Destroy_Ok_live p0 m : ∀ k lo st b s,
  owns st m b → base p0 = base (buffer_ m) →
  for_each (seq lo k) (fun i => Destroy (ptr_add p0 i)) st = Ok tt s →
  ∀ i, lo ≤ i < lo + k → ∃ y, b !! (off p0 + i) = Some (Some y).
Proof.
  induction k as [|k IH]; intros lo st b s Ho Hp E i Hi; [lia|].
  simpl in E. unfold bind in E.
  destruct (Destroy (ptr_add p0 lo) st) as [[] s1|s1|] eqn:ED; [|done..].
  destruct (Destroy_Ok_live st m b (ptr_add p0 lo) s1 Ho Hp ED) as (y & Hy & Ho1).
  simpl in Hy, Ho1.
  destruct (decide (i = lo)) as [->|Hne]; [by exists y|].
  destruct (IH (S lo) s1 _ s Ho1 Hp E i) as (z & Hz); [lia|].
  exists z. by rewrite list_lookup_insert_ne in Hz by lia.
Qed.








End Wrapped.

Ltac represents_here :=
  split; [reflexivity|]; split; [simpl; lia|]; repeat split.

Section Behaviour.

Context {T : Type} `{ET : Element T}.

Local Abbreviation M := (@M T).
Local Abbreviation machine := (@machine T).

Implicit Types (st s : machine) (m : RawMemory) (b : block T) (v : Vector).
Implicit Types (l : list T) (i n : nat) (this : oid) (p : ptr).

(** X1: [operator[]] on a vector that holds the elements [l].  For an
    index below the size it returns a reference to slot [index] of the
    storage, through which the element [l[index]] is read, and it leaves
    the state alone.  For an index that is not below the size the
    assertion [index < size_] fails: the call has no defined behaviour,
    also when the index is within the capacity. *)
Theorem index_reads_element this st v l i :
  objs st !! this = Some v → represents st v l →
  (∀ x, l !! i = Some x →
     Vector_index this i st = Ok (ptr_add (vbegin v) i) st ∧
     load (ptr_add (vbegin v) i) st = Ok x st) ∧
  (length l ≤ i → Vector_index this i st = Undef).
Proof.
  intros Hv Hrep. split.
  - intros x Hx. split; [by eapply Vector_index_at|by eapply load_element].
  - intros Hi. destruct Hrep as (Hs & _). unfold Vector_index, bind, get_vec.
    rewrite Hv. by destruct (Nat.ltb_spec i (size_ v)) as [|_]; [lia|].
Qed.

(** X2: the iterators of a vector that holds the elements [l]:
    [end()] is defined and is [begin() + size], so [end() - begin()] is
    the size; the pointers [begin() + i] for [i < size] read the
    elements in order; reading through [end()], or any pointer behind
    it, has no defined behaviour. *)
Theorem iterators_span_elements st v l :
  represents st v l →
  vend v st = Ok (ptr_add (vbegin v) (Size v)) st ∧
  ptr_diff (ptr_add (vbegin v) (Size v)) (vbegin v) = Some (length l) ∧
  (∀ i x, l !! i = Some x → load (ptr_add (vbegin v) i) st = Ok x st) ∧
  (∀ i, Size v ≤ i → load (ptr_add (vbegin v) i) st = Undef).
Proof.
  intros Hrep. pose proof Hrep as (Hs & Hc & _). split; [|split; [|split]].
  - unfold vend, RawMemory_plus, bind, Size.
    by destruct (Nat.leb_spec (size_ v) (capacity_ (data_ v))) as [_|]; [|lia].
  - unfold Size. by rewrite ptr_diff_add, Hs.
  - intros i x Hx. by eapply load_element.
  - intros i Hi. eapply load_beyond; [done|]. unfold Size in Hi. lia.
Qed.

(** X3: [PopBack()] on a vector that holds the elements [l].  When [l]
    is not empty it returns: the last element is destroyed and the size
    is one less, the other elements, the storage and the capacity are
    as before, and no constructor or assignment runs (the clock stands
    still).  On an empty vector [data_ + size_ - 1] points in front of
    the storage: the call has no defined behaviour. *)
Theorem PopBack_removes_last this st v l :
  objs st !! this = Some v → represents st v l →
  (l = [] → PopBack this st = Undef) ∧
  (l ≠ [] →
     ∃ st', PopBack this st = Ok tt st' ∧
            objs st' = <[this := MkVec (data_ v) (length l - 1)]> (objs st) ∧
            represents st' (MkVec (data_ v) (length l - 1)) (removelast l) ∧
            clock st' = clock st ∧ live st' = live st).
Proof.
  intros Hv Hrep. split.
  - intros ->. destruct Hrep as (Hs & _ & _ & Hoff & _). simpl in Hs.
    unfold PopBack, bind, get_vec. rewrite Hv, Hs.
    unfold RawMemory_plus, bind. simpl. unfold ptr_sub. simpl. rewrite Hoff. simpl.
    by destruct (decide (1 ≤ 0)); [lia|].
  - intros Hl.
    destruct (wp_returns _ _ _ (wp_PopBack st this v l Hv Hrep Hl))
      as ([] & s & E & Ho & Hr & Hclock).
    exists s. split; [done|]. split; [done|].
    split; [by rewrite removelast_firstn_len, <- Nat.sub_1_r|]. split; [done|].
    destruct (post_Ok _ _ _ _ _ _ (post_PopBack this st v Hv) E) as (v' & Ho' & Hl').
    assert (v' = MkVec (data_ v) (length l - 1)) as ->.
    { apply (f_equal (fun o => o !! this)) in Ho'.
      rewrite Ho, !lookup_insert_eq in Ho'. by inversion Ho'. }
    simpl in Hl'. lia.
Qed.

(** X4: [Erase(pos)] with [pos = begin() + q] on a vector that holds the
    elements [l].  For [q < size], whenever it returns, the element at
    [q] is gone, the elements in front of it are as before and those
    behind it have moved one place down; the size is one less, the
    storage and the capacity are as before, and the iterator returned
    is [begin() + q]; it does return when nothing throws.  For
    [q >= size], [end()] included, the range handed to [std::move] is
    not a range: the call has no defined behaviour. *)
Theorem Erase_removes_element this st v l q :
  objs st !! this = Some v → represents st v l →
  (q < length l →
     (quiet → ∃ r st', Erase this (ptr_add (vbegin v) q) st = Ok r st') ∧
     (∀ r st', Erase this (ptr_add (vbegin v) q) st = Ok r st' →
        r = ptr_add (vbegin v) q ∧
        objs st' = <[this := MkVec (data_ v) (length l - 1)]> (objs st) ∧
        represents st' (MkVec (data_ v) (length l - 1)) (take q l ++ drop (S q) l))) ∧
  (length l ≤ q → Erase this (ptr_add (vbegin v) q) st = Undef).
Proof.
  intros Hv Hrep. split.
  - intros Hq. pose proof (wp_Erase st this v l q Hv Hrep Hq) as Hwp. split.
    + intros Hquiet.
      assert (wp (Erase this (ptr_add (vbegin v) q)) st (fun _ _ => True)
                 (fun s => threw ∧ True)) as Hwp'.
      { eapply wp_mono; [exact Hwp|done|done]. }
      by apply (wp_quiet _ _ _ _ Hwp').
    + intros r st' E. by destruct (wp_Ok _ _ _ _ _ _ Hwp E) as (? & ? & ?).
  - intros Hq. destruct Hrep as (Hs & Hc & _).
    unfold Erase, bind, get_vec. rewrite Hv, ptr_diff_add. simpl.
    unfold vend, RawMemory_plus, bind.
    destruct (Nat.leb_spec (size_ v) (capacity_ (data_ v))) as [_|]; [|lia]. simpl.
    unfold std_move, bind, ptr_diff, vbegin, GetAddress. simpl.
    rewrite decide_True by done.
    by rewrite decide_False by lia.
Qed.


(** X6: the copy constructor [Vector(other)] of a vector that holds the
    elements [lo].  Whenever it returns, the new vector holds the same
    elements in a storage of exactly [size] slots (the capacity of
    [other] is not copied), in a block of its own when there is an
    element; [other] and the other vector objects are untouched.  It
    does return when nothing throws.  When an exception leaves it,
    [other] still holds [lo] and the number of live blocks is as
    before. *)
Theorem Vector_copy_ctor_copies other st o lo :
  objs st !! other = Some o → represents st o lo →
  (quiet → ∃ v st', Vector_copy_ctor other st = Ok v st') ∧
  (∀ v st', Vector_copy_ctor other st = Ok v st' →
     represents st' v lo ∧ Size v = length lo ∧ Capacity v = length lo ∧
     objs st' = objs st ∧ represents st' o lo ∧
     (lo ≠ [] → base (buffer_ (data_ v)) ≠ base (buffer_ (data_ o))) ∧
     live st' = live st + held (data_ v)) ∧
  (∀ st', Vector_copy_ctor other st = Throw st' →
     objs st' = objs st ∧ represents st' o lo ∧ live st' = live st).
Proof.
  intros Hv Hrep. pose proof (wp_Vector_copy_ctor st other o lo Hv Hrep) as Hwp.
  pose proof (post_Vector_copy_ctor other st) as Hp.
  pose proof Hrep as (Hs & Hc & Hown).
  split; [|split].
  - intros Hq. by apply (wp_quiet _ _ _ _ Hwp).
  - intros v st' E.
    destruct (wp_Ok _ _ _ _ _ _ Hwp E) as (Hrep' & Hcap & Ho & Hf & Hfresh).
    destruct (post_Ok _ _ _ _ _ _ Hp E) as [Hl _].
    split; [done|]. split; [by destruct Hrep'|]. split; [done|]. split; [done|].
    split; [|split; [|done]].
    + split; [done|]. split; [done|]. by apply Hf.
    + intros Hne E'.
      apply (owns_nonnull _ _ _ Hown (layout_nonnil _ _ Hne)).
      by apply (Hfresh _ _ Hown).
  - intros st' E. destruct (wp_Throw _ _ _ _ _ Hwp E) as (_ & Ho & Hf).
    destruct (post_Throw _ _ _ _ _ Hp E) as [Hl _].
    split; [done|]. split; [|done]. split; [done|]. split; [done|]. by apply Hf.
Qed.

(** X7: the move constructor [Vector(std::move(other))].  It always
    returns and runs no element operation: the new vector is what
    [other] was (same storage, same size), the free store and the clock
    are untouched, and [other] is left as a default-constructed vector
    (size 0, capacity 0, no storage), whose destructor then does
    nothing. *)
Theorem Vector_move_ctor_takes_over other st o lo :
  objs st !! other = Some o → represents st o lo →
  ∃ st', Vector_move_ctor other st = Ok o st' ∧
         st' = set_obj other Vector_default st ∧
         represents st' o lo ∧
         observe st' other = Some (0, 0, []) ∧
         Vector_dtor Vector_default st' = Ok tt st'.
Proof.
  intros Hv Hrep. exists (set_obj other Vector_default st).
  split; [|split; [done|split; [|split]]].
  - unfold Vector_move_ctor, bind, get_vec. rewrite Hv.
    by destruct o as [[po co] no].
  - destruct Hrep as (? & ? & ?). split; [done|]. split; [done|]. by apply owns_set_obj.
  - unfold observe. simpl. by rewrite lookup_insert_eq.
  - done.
Qed.

(** X8: [Swap] of two vector objects always returns and exchanges
    them; [b.Swap(a)] has the same effect as [a.Swap(b)], swapping a
    second time gives back the state before the first swap, and a
    vector swapped with itself is unchanged. *)
Theorem Swap_twice_restores this other st (va vb : Vector) :
  objs st !! this = Some va → objs st !! other = Some vb →
  ∃ st', Swap this other st = Ok tt st' ∧
         objs st' !! this = Some vb ∧ objs st' !! other = Some va ∧
         Swap other this st = Ok tt st' ∧
         Swap this other st' = Ok tt st ∧
         (this = other → st' = st).
Proof.
  intros Ha Hb. destruct st as [h os c]. simpl in *.
  exists (Machine h (<[other := va]> (<[this := vb]> os)) c).
  assert (<[this := vb]> (<[other := va]> os) = <[other := va]> (<[this := vb]> os))
    as Hcomm.
  { destruct (decide (this = other)) as [->|Hne]; [|by apply insert_insert_ne].
    rewrite Ha in Hb. inversion Hb. by subst. }
  assert ((<[other := va]> (<[this := vb]> os)) !! this = Some vb) as H1.
  { by rewrite <- Hcomm, lookup_insert_eq. }
  assert ((<[other := va]> (<[this := vb]> os)) !! other = Some va) as H2.
  { by rewrite lookup_insert_eq. }
  split; [|split; [done|split; [done|split; [|split]]]].
  - unfold Swap, bind, get_vec. simpl. rewrite Ha. simpl. rewrite Hb.
    by destruct va as [[pa ca] na], vb as [[pb cb] nb].
  - unfold Swap, bind, get_vec. simpl. rewrite Hb. simpl. rewrite Ha. rewrite <- Hcomm.
    by destruct va as [[pa ca] na], vb as [[pb cb] nb].
  - unfold Swap, bind, get_vec. simpl. rewrite H1. simpl. rewrite H2.
    destruct va as [[pa ca] na], vb as [[pb cb] nb]. simpl. unfold set_vec. simpl.
    do 2 f_equal. apply map_eq. intros j.
    destruct (decide (j = other)) as [->|Hjo]; [by rewrite lookup_insert_eq|].
    rewrite lookup_insert_ne by done.
    destruct (decide (j = this)) as [->|Hjt]; [by rewrite lookup_insert_eq|].
    by rewrite !lookup_insert_ne by done.
  - intros ->. rewrite Ha in Hb. inversion Hb. subst vb.
    f_equal. rewrite insert_insert_eq. by apply insert_id.
Qed.

(** X9: the destructor [~Vector()] of a vector whose storage has the
    slots [b].  It destroys the [size_] elements: it returns exactly
    when each of the first [size_] slots holds an object (destroying a
    slot that holds none has no defined behaviour), and no exception
    leaves it.  When it returns, the block of the vector, when it has
    one, is released (one live block less); the vector objects, the
    clock and every other storage are untouched.  A vector without
    storage leaves the state as it is. *)
Theorem Vector_dtor_releases_storage st v b :
  owns st (data_ v) b →
  ((∃ st', Vector_dtor v st = Ok tt st') ↔
   (∀ i, i < size_ v → ∃ y, b !! i = Some (Some y))) ∧
  (∀ st', Vector_dtor v st ≠ Throw st') ∧
  (∀ st', Vector_dtor v st = Ok tt st' →
     objs st' = objs st ∧ clock st' = clock st ∧
     live st' + held (data_ v) = live st ∧
     (∀ a, base (buffer_ (data_ v)) = Some a → heap st' !! a = Some None) ∧
     (base (buffer_ (data_ v)) = None → st' = st) ∧
     frame (base (buffer_ (data_ v))) st st').
Proof.
  intros Hown. pose proof (proj1 (proj2 Hown)) as Hoff.
  assert ((∀ i, i < size_ v → ∃ y, b !! i = Some (Some y)) →
          wp (Vector_dtor v) st
            (fun _ s => objs s = objs st ∧ clock s = clock st ∧
               (∀ a, base (buffer_ (data_ v)) = Some a → heap s !! a = Some None) ∧
               (base (buffer_ (data_ v)) = None → s = st) ∧
               frame (base (buffer_ (data_ v))) st s)
            (fun _ => False)) as Hwp.
  { intros Hlive. unfold Vector_dtor, DestroyN, GetAddress. apply wp_bind.
    eapply wp_mono;
      [apply (wp_destroy_frame st (data_ v) _ (buffer_ (data_ v)) 0 (size_ v)
                (fun _ => False) ltac:(lia) Hown eq_refl)| |done].
    { intros i Hi. rewrite Hoff. simpl. apply Hlive. lia. }
    intros [] s (Ho & Hobjs & Hclock & Hf & Hsame).
    eapply wp_RawMemory_dtor; [exact Ho| |].
    - intros Hnull. destruct Hown as (Hlen & _ & Hb). rewrite Hnull in Hb.
      assert (size_ v = 0) as Hz.
      { destruct (size_ v) as [|k] eqn:Ek; [done|].
        destruct (Hlive 0) as (y & Hy); [lia|]. by rewrite Hb in Hy. }
      assert (s = st) as -> by (apply Hsame; lia).
      split; [done|]. split; [done|].
      split; [intros a Ha; by rewrite Hnull in Ha|]. split; [done|].
      apply frame_refl.
    - intros a Ha. split; [done|]. split; [done|]. split; [|split].
      + intros a' Ha'. rewrite Ha in Ha'. inversion Ha'. subst a'. simpl.
        destruct Ho as (_ & _ & Hb). rewrite Ha in Hb.
        apply list_lookup_insert_eq. by eapply lookup_lt_Some.
      + intros E. by rewrite E in Ha.
      + rewrite Ha. eapply frame_trans; [|apply frame_set_block].
        destruct (decide (0 < size_ v)) as [Hpos|Hz].
        * rewrite <- Ha. by apply Hf.
        * assert (s = st) as -> by (apply Hsame; lia). apply frame_refl. }
  assert (∀ st', Vector_dtor v st = Ok tt st' →
            ∀ i, i < size_ v → ∃ y, b !! i = Some (Some y)) as Hlive.
  { intros st' E i Hi. unfold Vector_dtor, bind, DestroyN, for_range, GetAddress in E.
    destruct (for_each _ _ st) as [[] s1|s1|] eqn:EF; [|done..].
    rewrite Nat.sub_0_r in EF.
    destruct (for_each_Destroy_Ok_live (buffer_ (data_ v)) (data_ v) _ 0 st b s1
                Hown eq_refl EF i) as (y & Hy); [lia|].
    exists y. by rewrite Hoff in Hy. }
  split; [split|split].
  - intros (st' & E). by eapply Hlive.
  - intros Hl. destruct (wp_returns _ _ _ (Hwp Hl)) as ([] & s & E & _). eauto.
  - intros st' E. by apply (post_Throw _ _ _ _ _ (post_Vector_dtor v st) E).
  - intros st' E.
    destruct (wp_Ok _ _ _ _ _ _ (Hwp (Hlive st' E)) E) as (Ho & Hclock & Hrel & Hnull & Hf).
    split; [done|]. split; [done|]. split; [|done].
    by destruct (post_Ok _ _ _ _ _ _ (post_Vector_dtor v st) E) as [Hl _].
Qed.

(** X10: the life of a RawMemory.  [RawMemory(0)] obtains nothing and is
    the default-constructed object.  For [n > 0], [RawMemory(n)] either
    fails in the allocation, with nothing obtained, or records the
    capacity [n] and holds a new block; the block has [n] raw slots,
    and the object owns its storage, exactly when the number of bytes
    of [n] elements is a value of [size_t]; otherwise the block is
    smaller than the capacity recorded.  Move construction hands the
    buffer and the capacity over and leaves the source null with
    capacity 0, so that the destructor of the source does nothing and
    the destructor of the new object releases the block: the number of
    live blocks is then as it was before the allocation.  Releasing the
    same buffer a second time has no defined behaviour. *)
Theorem RawMemory_holds_one_block n st :
  (n = 0 → RawMemory_ctor n st = Ok RawMemory_default st) ∧
  (n ≠ 0 → throws KAlloc (clock st) = true →
     RawMemory_ctor n st = Throw (ticked st)) ∧
  (n ≠ 0 → throws KAlloc (clock st) = false →
     ∃ m st1, RawMemory_ctor n st = Ok m st1 ∧
          RawMemory_Capacity m = n ∧
          (fits n → owns st1 m (replicate n None)) ∧
          ((∃ b, owns st1 m b) ↔ fits n) ∧
          (∃ b, storage st1 m = Some b ∧ length b = granted n ∧ length b ≤ n ∧
                (¬ fits n → length b < n)) ∧
          live st1 = S (live st) ∧
          RawMemory_move_ctor m = (m, RawMemory_default) ∧
          RawMemory_dtor RawMemory_default st1 = Ok tt st1 ∧
          ∃ st', RawMemory_dtor m st1 = Ok tt st' ∧
                 heap st' = heap st ++ [None] ∧ live st' = live st ∧
                 RawMemory_dtor m st' = Undef).
Proof.
  split; [by intros ->|]. split.
  - intros Hn E. unfold RawMemory_ctor, Allocate, operator_new, fresh_block, bind, tick.
    destruct n; [done|]. simpl. by rewrite E.
  - intros Hn E. exists (MkRaw (Ptr (Some (length (heap st))) 0) n), (allocated (granted n) st).
    assert (granted n ≤ n) as Hle.
    { destruct (decide (fits n)) as [Hf|Hf];
        [by rewrite granted_fits|by apply Nat.lt_le_incl, granted_wraps]. }
    split; [|split; [done|split; [|split; [|split; [|split; [|split; [done|split; [done|]]]]]]]].
    + unfold RawMemory_ctor, Allocate, operator_new, fresh_block, bind, tick.
      destruct n; [done|]. simpl. by rewrite E.
    + intros Hf. pose proof (owns_allocated_new st n) as Ho.
      by rewrite (granted_fits n Hf).
    + split.
      * intros (b & Hlen & _ & Hb). simpl in *.
        rewrite lookup_app_r, Nat.sub_diag in Hb by lia. simpl in Hb.
        inversion Hb. subst b. rewrite length_replicate in Hlen.
        destruct (decide (fits n)) as [Hf|Hf]; [done|].
        pose proof (granted_wraps n Hf). lia.
      * intros Hf. exists (replicate n None).
        pose proof (owns_allocated_new st n) as Ho.
        by rewrite (granted_fits n Hf).
    + exists (replicate (granted n) None). unfold storage. simpl.
      rewrite lookup_app_r, Nat.sub_diag by lia. simpl.
      rewrite length_replicate. split; [done|]. split; [done|]. split; [done|].
      apply granted_wraps.
    + unfold live, allocated. simpl. apply live_app.
    + exists (Machine (heap st ++ [None]) (objs st) (S (clock st))).
      unfold RawMemory_dtor, Deallocate, operator_delete. simpl.
      rewrite list_lookup_middle by done. simpl.
      rewrite insert_app_r_alt, Nat.sub_diag by done. simpl.
      split; [done|]. split; [done|]. split.
      * unfold live. simpl. rewrite omap_app. simpl. by rewrite app_nil_r.
      * by rewrite list_lookup_middle.
Qed.

(** X11: copy assignment [a = b] between two different vectors whose
    storage is not shared, [b] holding the elements [lr].  Whenever it
    returns, [a] holds the elements [lr] and [b] still holds them; the
    capacity of [a] is as before when [lr] fits in it, and is exactly
    the size of [b] otherwise; no other vector object changes and no
    block is leaked.  It does return when nothing throws. *)
Theorem copy_assign_copies this rhs st v r l lr :
  this ≠ rhs →
  objs st !! this = Some v → objs st !! rhs = Some r →
  represents st v l → represents st r lr →
  (base (buffer_ (data_ v)) = base (buffer_ (data_ r)) →
   base (buffer_ (data_ v)) = None) →
  (quiet → ∃ st', copy_assign this rhs st = Ok tt st') ∧
  (∀ st', copy_assign this rhs st = Ok tt st' →
     ∃ v', objs st' = <[this := v']> (objs st) ∧
           represents st' v' lr ∧ represents st' r lr ∧
           Capacity v' = (if length lr <=? Capacity v then Capacity v
                          else length lr) ∧
           live st' + held (data_ v) = live st + held (data_ v')).
Proof.
  intros Hne Hv Hr Hrepv Hrepr Hdisj.
  pose proof (wp_copy_assign st this rhs v r l lr Hne Hv Hr Hrepv Hrepr Hdisj) as Hwp.
  split.
  - intros Hq.
    assert (wp (copy_assign this rhs) st (fun _ _ => True) (fun s => threw ∧ True))
      as Hwp' by (eapply wp_mono; [exact Hwp|done|done]).
    destruct (wp_quiet _ _ _ _ Hwp' Hq) as ([] & s & E). eauto.
  - intros st' E. destruct (wp_Ok _ _ _ _ _ _ Hwp E) as (v' & Ho & Hr1 & Hr2 & Hcap).
    exists v'. split; [done|]. split; [done|]. split; [done|]. split; [done|].
    destruct (post_Ok _ _ _ _ _ _ (post_copy_assign this rhs st v Hv) E)
      as (v'' & Ho' & Hl).
    assert (v'' = v') as ->; [|done].
    apply (f_equal (fun o => o !! this)) in Ho'.
    rewrite Ho, !lookup_insert_eq in Ho'. by inversion Ho'.
Qed.

(** X12: [EmplaceBack], [PushBack] of an lvalue and [PushBack] of an
    rvalue of a value [x] on a vector that holds the elements [l].
    Whenever one of them returns, the vector holds [l] followed by [x],
    the size is one more, and [x] is read through the reference that
    [operator[]] gives for the last index, which is the reference that
    [EmplaceBack] returns.  Each of them does return when nothing
    throws. *)
Theorem EmplaceBack_appends_value this k x st v l :
  objs st !! this = Some v → represents st v l →
  (quiet → ∃ p st', EmplaceBack this k x st = Ok p st') ∧
  (∀ p st', EmplaceBack this k x st = Ok p st' →
     ∃ v', objs st' = <[this := v']> (objs st) ∧
           represents st' v' (l ++ [x]) ∧ Size v' = S (Size v) ∧
           Vector_index this (Size v) st' = Ok p st' ∧
           load p st' = Ok x st') ∧
  (quiet → ∃ st', PushBack this x st = Ok tt st') ∧
  (∀ st', PushBack this x st = Ok tt st' →
     ∃ v' p, objs st' = <[this := v']> (objs st) ∧
             represents st' v' (l ++ [x]) ∧ Size v' = S (Size v) ∧
             Vector_index this (Size v) st' = Ok p st' ∧
             load p st' = Ok x st') ∧
  (quiet → ∃ st', PushBack_move this x st = Ok tt st') ∧
  (∀ st', PushBack_move this x st = Ok tt st' →
     ∃ v' p, objs st' = <[this := v']> (objs st) ∧
             represents st' v' (l ++ [x]) ∧ Size v' = S (Size v) ∧
             Vector_index this (Size v) st' = Ok p st' ∧
             load p st' = Ok x st').
Proof.
  intros Hv Hrep. pose proof Hrep as (Hs & _).
  assert (∀ k', (quiet → ∃ p st', EmplaceBack this k' x st = Ok p st') ∧
            (∀ p st', EmplaceBack this k' x st = Ok p st' →
               ∃ v', objs st' = <[this := v']> (objs st) ∧
                     represents st' v' (l ++ [x]) ∧ Size v' = S (Size v) ∧
                     Vector_index this (Size v) st' = Ok p st' ∧
                     load p st' = Ok x st')) as Hall.
  { intros k'. pose proof (wp_EmplaceBack st this v l k' x Hv Hrep) as Hwp. split.
    - intros Hq. by apply (wp_quiet _ _ _ _ Hwp).
    - intros p st' E.
      destruct (wp_Ok _ _ _ _ _ _ Hwp E) as (v' & Ho & Hrep' & _ & Hp & _).
      assert ((l ++ [x]) !! length l = Some x) as Hx by (by rewrite list_lookup_middle).
      exists v'. split; [done|]. split; [done|].
      split; [|split].
      + destruct Hrep' as (Hs' & _). unfold Size.
        rewrite Hs', Hs, length_app. simpl. lia.
      + unfold Size. rewrite Hs, Hp. eapply Vector_index_at; [|done..].
        by rewrite Ho, lookup_insert_eq.
      + rewrite Hp. by eapply load_element. }
  split; [apply Hall|]. split; [apply Hall|].
  assert (∀ k', (quiet → ∃ st', (EmplaceBack this k' x ;;; ret tt) st = Ok tt st') ∧
            (∀ st', (EmplaceBack this k' x ;;; ret tt) st = Ok tt st' →
               ∃ v' p, objs st' = <[this := v']> (objs st) ∧
                       represents st' v' (l ++ [x]) ∧ Size v' = S (Size v) ∧
                       Vector_index this (Size v) st' = Ok p st' ∧
                       load p st' = Ok x st')) as Hpush.
  { intros k'. destruct (Hall k') as [Hret Hok]. unfold bind. split.
    - intros Hq. destruct (Hret Hq) as (p & st' & E). exists st'. by rewrite E.
    - intros st' E.
      destruct (EmplaceBack this k' x st) as [p s|s|] eqn:EE; [|done..].
      inversion E. subst s. destruct (Hok p st' eq_refl) as (v' & ?). eauto. }
  split; [apply (Hpush KCopy)|]. split; [apply (Hpush KCopy)|].
  split; [apply (Hpush KMove)|apply (Hpush KMove)].
Qed.

(** X13: the strong exception guarantee of [EmplaceBack] (and so of
    [PushBack]) for an element type that is relocated by copy.
    Whatever throws -- the allocation, the constructor of the new
    element or the copy of any element -- and whether the vector is
    full or not: when the exception leaves the call, the vector object
    and its elements are as they were, and the number of live blocks is
    as before. *)
Theorem EmplaceBack_rolls_back this k x st v l :
  objs st !! this = Some v → represents st v l → nothrow_relocate = false →
  ∀ st', EmplaceBack this k x st = Throw st' →
    objs st' = objs st ∧ represents st' v l ∧
    observe st' this = observe st this ∧ live st' = live st.
Proof.
  intros Hv Hrep Hnr st' E.
  destruct (wp_Throw _ _ _ _ _ (wp_EmplaceBack st this v l k x Hv Hrep) E) as (_ & H).
  destruct (H Hnr) as (Ho & Hrep'). split; [done|]. split; [done|]. split.
  - rewrite (observe_represents st this v l), (observe_represents st' this v l);
      [done| |done..]. by rewrite Ho.
  - eapply balanced_unchanged; [done| |done].
    exact (post_Throw _ _ _ _ _ (post_EmplaceBack this k x st v Hv) E).
Qed.

(** X14: [EmplaceBack] on a vector with room ([size < capacity]) does
    not reallocate.  It runs the one constructor of the new element: if
    that throws, the exception leaves the call with nothing changed but
    the clock; otherwise the call returns a pointer to slot [size] of
    the same storage, the vector keeps its buffer and its capacity, and
    every element is still read through the pointer it had before. *)
Theorem EmplaceBack_with_room_keeps_storage this k x st v l :
  objs st !! this = Some v → represents st v l → Size v < Capacity v →
  (throws k (clock st) = true → EmplaceBack this k x st = Throw (ticked st)) ∧
  (throws k (clock st) = false →
     ∃ st', EmplaceBack this k x st = Ok (ptr_add (vbegin v) (Size v)) st' ∧
            objs st' = <[this := MkVec (data_ v) (S (Size v))]> (objs st) ∧
            clock st' = S (clock st) ∧
            represents st' (MkVec (data_ v) (S (Size v))) (l ++ [x]) ∧
            ∀ i y, l !! i = Some y → load (ptr_add (vbegin v) i) st' = Ok y st').
Proof.
  intros Hv Hrep Hroom. split.
  - intros E. by eapply EmplaceBack_room_Throw.
  - intros E.
    destruct (wp_returns _ _ _ (wp_EmplaceBack_room this k x st v l Hv Hrep Hroom E))
      as (p & s & Erun & -> & Ho & Hclock & Hrep').
    exists s. split; [done|]. split; [done|]. split; [done|]. split; [done|].
    intros i y Hy.
    apply (load_element s (MkVec (data_ v) (S (size_ v))) (l ++ [x]) i y Hrep').
    by apply lookup_app_l_Some.
Qed.

(** X15: the strong exception guarantee of [Reserve] for an element
    type that is relocated by copy: when an exception leaves
    [Reserve(n)] -- from the allocation or from the copy of any
    element -- the vector object and its elements are as they were,
    and the number of live blocks is as before. *)
Theorem Reserve_rolls_back this n st v l :
  objs st !! this = Some v → represents st v l → nothrow_relocate = false →
  ∀ st', Reserve this n st = Throw st' →
    objs st' = objs st ∧ represents st' v l ∧
    observe st' this = observe st this ∧ live st' = live st.
Proof.
  intros Hv Hrep Hnr st' E. pose proof Hrep as (Hs & Hc & Hown).
  pose proof (proj1 (proj2 Hown)) as Hoff.
  assert (post (Reserve this n) st (fun _ _ => True)
               (fun s => objs s = objs st ∧ represents s v l)) as Hp.
  { unfold Reserve. apply post_bind. eapply post_get_vec; [done|].
    destruct (Nat.leb_spec n (capacity_ (data_ v))) as [|Hlt]; [done|].
    rewrite Hnr. unfold GetAddress.
    apply post_bind, post_wp, wp_RawMemory_ctor_any; [lia| |].
    2: { intros _ _. split; [done|]. split; [done|]. split; [done|].
         by apply owns_ticked. }
    intros _ _. set (new := MkRaw (Ptr (Some (length (heap st))) 0) n).
    set (room := MkRaw (Ptr (Some (length (heap st))) 0) (granted n)).
    pose proof (owns_allocated_new st (granted n)) as Hnew. fold room in Hnew.
    pose proof (owns_allocated_old st (granted n) _ _ Hown) as Hold.
    assert (base (buffer_ (data_ v)) ≠ base (buffer_ room)) as Hne.
    { simpl. by eapply owns_fresh. }
    apply post_bind.
    eapply post_mono with (Q := fun _ _ => True)
      (R := fun s => objs s = objs st ∧ represents s v l); [| |done].
    - apply post_on_unwind, post_bind. rewrite Hs.
      eapply post_mono;
        [apply (post_uninitialized_copy_n_frame (allocated (granted n) st) (data_ v)
                  room _ _ l (buffer_ (data_ v)) (buffer_ new) (fun _ => Hne)
                  Hold Hnew eq_refl eq_refl)
        | |].
      + rewrite Hoff, drop_0, <- (drop_0 (layout _ _)), layout_segment by lia.
        by rewrite drop_0, firstn_all.
      + intros u s _. eapply post_mono; [apply (calm_DestroyN _ _ s)|done|by intros ? []].
      + intros s (_ & Ho & _ & Hobjs & b' & Hb').
        apply post_wp. change (RawMemory_dtor new : M unit) with (RawMemory_dtor room : M unit).
        eapply wp_RawMemory_dtor; [exact Hb'|done|].
        intros a Ha. simpl in Ha. split; [done|]. split; [done|]. split; [done|].
        apply owns_set_block_ne; [done|]. rewrite <- Ha.
        by eapply owns_fresh.
    - intros u s _. unfold RawMemory_Swap. apply post_bind, post_set_vec.
      eapply post_mono; [apply post_RawMemory_dtor|done|done]. }
  destruct (post_Throw _ _ _ _ _ Hp E) as (Ho & Hrep').
  split; [done|]. split; [done|]. split.
  - rewrite (observe_represents st this v l), (observe_represents st' this v l);
      [done| |done..]. by rewrite Ho.
  - eapply balanced_unchanged; [done| |done].
    exact (post_Throw _ _ _ _ _ (post_Reserve this n st v Hv) E).
Qed.

(** X16: inserting and erasing again.  When nothing throws and the new
    value arrives -- the storage is grown, the vector is empty or the
    position is in front of the last element -- [Insert(begin() + q, x)]
    returns an iterator at which [x] is read, and [Erase] of that
    iterator returns the same iterator and gives back the elements the
    vector held before the insertion. *)
Theorem Insert_then_Erase this st v l x q :
  quiet → objs st !! this = Some v → represents st v l → q ≤ length l →
  Size v = Capacity v ∨ l = [] ∨ q + 1 < length l →
  ∃ r st1 st2 v2,
    Insert this (ptr_add (vbegin v) q) x st = Ok r st1 ∧
    load r st1 = Ok x st1 ∧
    Erase this r st1 = Ok r st2 ∧
    objs st2 !! this = Some v2 ∧ represents st2 v2 l.
Proof.
  intros Hq Hv Hrep Hle Hcase. pose proof Hrep as (Hs & _).
  destruct (wp_returns _ _ _ (wp_Emplace st this v l KCopy x q Hq Hv Hrep Hle))
    as (r & s1 & E1 & v1 & Ho1 & Hrep1 & _ & ->).
  rewrite emplaced_inserted in Hrep1
    by (unfold Size in Hcase; rewrite Hs in Hcase; destruct Hcase as [?|[?|?]]; auto).
  assert (length (take q l) = q) as Hlt by (rewrite length_take; lia).
  assert (objs s1 !! this = Some v1) as Hv1 by (by rewrite Ho1, lookup_insert_eq).
  assert (q < length (take q l ++ x :: drop q l)) as Hq1.
  { rewrite length_app, Hlt. simpl. lia. }
  pose proof (wp_Erase s1 this v1 _ q Hv1 Hrep1 Hq1) as Hwp2.
  destruct (wp_cases _ _ _ _ Hwp2) as [(r2 & s2 & E2 & Ho2 & Hrep2 & ->)|(s2 & _ & Ht)].
  2: { by destruct (quiet_not_threw Hq Ht). }
  exists (ptr_add (vbegin v1) q), s1, s2, (MkVec (data_ v1) (length (take q l ++ x :: drop q l) - 1)).
  split; [done|]. split; [|split; [done|split]].
  - eapply load_element; [done|].
    replace q with (length (take q l)) at 3 by done. apply list_lookup_middle. done.
  - by rewrite Ho2, lookup_insert_eq.
  - replace (take q (take q l ++ x :: drop q l) ++ drop (S q) (take q l ++ x :: drop q l))
      with l in Hrep2; [done|].
    rewrite take_app_length' by done.
    rewrite drop_app_ge by lia.
    replace (S q - length (take q l)) with 1 by lia. simpl.
    by rewrite drop_0, take_drop.
Qed.

(** X17: appending and removing again.  When nothing throws,
    [PushBack(x)] followed by [PopBack()] returns and gives back the
    elements and the size the vector had; the capacity is the one the
    append left: unchanged when there was room, grown otherwise. *)
Theorem PushBack_then_PopBack this st v l x :
  quiet → objs st !! this = Some v → represents st v l →
  ∃ st1 st2 v2,
    PushBack this x st = Ok tt st1 ∧ PopBack this st1 = Ok tt st2 ∧
    objs st2 !! this = Some v2 ∧ represents st2 v2 l ∧
    Size v2 = Size v ∧
    Capacity v2 = (if Size v <? Capacity v then Capacity v else grow (Capacity v)).
Proof.
  intros Hq Hv Hrep. pose proof Hrep as (Hs & _).
  pose proof (wp_EmplaceBack st this v l KCopy x Hv Hrep) as Hwp.
  destruct (wp_cases _ _ _ _ Hwp) as [(p & s1 & E1 & v1 & Ho1 & Hrep1 & Hcap & _)|
                                      (s1 & _ & Ht & _)].
  2: { by destruct (quiet_not_threw Hq Ht). }
  assert (objs s1 !! this = Some v1) as Hv1 by (by rewrite Ho1, lookup_insert_eq).
  assert (l ++ [x] ≠ []) as Hne by (by destruct l).
  destruct (wp_returns _ _ _ (wp_PopBack s1 this v1 _ Hv1 Hrep1 Hne))
    as ([] & s2 & E2 & Ho2 & Hrep2 & _).
  rewrite length_app in Ho2, Hrep2. simpl in Ho2, Hrep2.
  replace (length l + 1 - 1) with (length l) in Ho2, Hrep2 by lia.
  rewrite take_app_length in Hrep2.
  exists s1, s2, (MkVec (data_ v1) (length l)).
  split; [unfold PushBack, bind; by rewrite E1|]. split; [done|].
  split; [by rewrite Ho2, lookup_insert_eq|]. split; [done|].
  split; [unfold Size; simpl; by rewrite Hs|]. exact Hcap.
Qed.

(** X18: no operation on a vector leaks a block or releases one it
    does not own.  For [Reserve], [Resize], [EmplaceBack], [PushBack],
    [PopBack], [Erase], [Emplace], [Insert] and copy assignment:
    however the call ends, by returning or by an exception, the vector
    object it works on is the only one that changed, and the number of
    live blocks changed exactly as the vector went between having no
    storage and having one; a vector that had a block before and has
    one after leaves the number of live blocks as it was. *)
Theorem operations_keep_blocks_balanced this st v :
  objs st !! this = Some v →
  (∀ n, post (Reserve this n) st (fun _ => balanced this v st) (balanced this v st)) ∧
  (∀ n, post (Resize this n) st (fun _ => balanced this v st) (balanced this v st)) ∧
  (∀ k x, post (EmplaceBack this k x) st
            (fun _ => balanced this v st) (balanced this v st)) ∧
  (∀ x, post (PushBack this x) st (fun _ => balanced this v st) (balanced this v st)) ∧
  (∀ x, post (PushBack_move this x) st
          (fun _ => balanced this v st) (balanced this v st)) ∧
  post (PopBack this) st (fun _ => balanced this v st) (balanced this v st) ∧
  (∀ pos, post (Erase this pos) st (fun _ => balanced this v st) (balanced this v st)) ∧
  (∀ pos k x, post (Emplace this pos k x) st
                (fun _ => balanced this v st) (balanced this v st)) ∧
  (∀ pos x, post (Insert this pos x) st
              (fun _ => balanced this v st) (balanced this v st)) ∧
  (∀ pos x, post (Insert_move this pos x) st
              (fun _ => balanced this v st) (balanced this v st)) ∧
  (∀ rhs, post (copy_assign this rhs) st
            (fun _ => balanced this v st) (balanced this v st)).
Proof.
  intros Hv.
  split; [intros; by apply post_Reserve|].
  split; [intros; by apply post_Resize|].
  split; [intros; by apply post_EmplaceBack|].
  split.
  { intros x. unfold PushBack. apply post_bind.
    eapply post_mono; [by apply post_EmplaceBack|done|done]. }
  split.
  { intros x. unfold PushBack_move. apply post_bind.
    eapply post_mono; [by apply post_EmplaceBack|done|done]. }
  split; [by apply post_PopBack|].
  split; [intros; by apply post_Erase|].
  split; [intros; by apply post_Emplace|].
  split; [intros; by apply post_Emplace|].
  split; [intros; by apply post_Emplace|].
  intros; by apply post_copy_assign.
Qed.

(** X19: the amortized cost of appending.  [k] appends to a
    default-constructed vector, each returning normally, run at least
    [k] and at most [4 * k] fallible operations in all: allocations,
    constructions of the new elements and relocations of the old ones
    together.  The appends do return when nothing throws. *)
Theorem appends_cost_is_linear this (xs : list (op_kind * T)) st :
  objs st !! this = Some Vector_default →
  (quiet → ∃ caps st', appends this xs st = Ok caps st') ∧
  (∀ caps st', appends this xs st = Ok caps st' →
     clock st + length xs ≤ clock st' ∧ clock st' ≤ clock st + 4 * length xs).
Proof.
  intros Hv. split.
  - intros Hq.
    by apply (wp_quiet _ _ _ _
                (wp_appends xs st this _ [] Hv (represents_default st))).
  - intros caps st' E.
    destruct (appends_cost xs this st _ [] caps st' Hv (represents_default st)
                (Nat.le_0_l _) E) as (v' & _ & Hcap & _ & Hpot & Hlow).
    change (Size Vector_default) with 0 in Hpot.
    change (Capacity Vector_default) with 0 in Hpot.
    split; [done|]. lia.
Qed.

(** X20: appends within the capacity do not relocate.  On a vector that
    holds the elements [l], appends of values that fit in the capacity
    ([size + k <= capacity], as after [Reserve]), each returning
    normally: the vector keeps its buffer, so that pointers to its
    elements stay valid, it holds [l] followed by the new values, and
    exactly one fallible operation has run for each append -- the
    construction of the new element. *)
Theorem appends_within_capacity_keep_storage this (xs : list (op_kind * T)) st v l :
  objs st !! this = Some v → represents st v l →
  length l + length xs ≤ Capacity v →
  (quiet → ∃ caps st', appends this xs st = Ok caps st') ∧
  (∀ caps st', appends this xs st = Ok caps st' →
     ∃ v', objs st' !! this = Some v' ∧ data_ v' = data_ v ∧
           represents st' v' (l ++ xs.*2) ∧
           clock st' = clock st + length xs ∧
           ∀ i y, l !! i = Some y → load (ptr_add (vbegin v) i) st' = Ok y st').
Proof.
  intros Hv Hrep Hroom. split.
  - intros Hq. by apply (wp_quiet _ _ _ _ (wp_appends xs st this v l Hv Hrep)).
  - intros caps st' E.
    destruct (appends_room xs this st v l caps st' Hv Hrep Hroom E)
      as (v' & Hv' & Hd & Hrep' & Hc).
    exists v'. split; [done|]. split; [done|]. split; [done|]. split; [done|].
    intros i y Hy. replace (vbegin v) with (vbegin v') by (unfold vbegin; by rewrite Hd).
    eapply load_element; [done|]. by apply lookup_app_l_Some.
Qed.

(** X21: the strong exception guarantee of copy assignment when the
    source does not fit in the capacity (the copy-and-swap path): when
    an exception leaves [a = b], both vectors and all vector objects
    are as they were, and the number of live blocks is as before. *)
Theorem copy_assign_realloc_rolls_back this rhs st v r l lr :
  this ≠ rhs →
  objs st !! this = Some v → objs st !! rhs = Some r →
  represents st v l → represents st r lr →
  Capacity v < length lr →
  ∀ st', copy_assign this rhs st = Throw st' →
    objs st' = objs st ∧ represents st' v l ∧ represents st' r lr ∧
    live st' = live st.
Proof.
  intros Hne Hv Hr Hrepv Hrepr Hbig st' E.
  pose proof Hrepr as (Hsr & _).
  assert (post (copy_assign this rhs) st (fun _ _ => True)
            (fun s => objs s = objs st ∧ represents s v l ∧ represents s r lr)) as Hp.
  { unfold copy_assign. rewrite decide_True by done.
    apply post_bind. eapply post_get_vec; [done|].
    apply post_bind. eapply post_get_vec; [done|].
    unfold Capacity, RawMemory_Capacity in Hbig.
    destruct (Nat.leb_spec (size_ r) (capacity_ (data_ v))) as [|_]; [lia|].
    apply post_bind.
    eapply post_mono; [apply post_wp, (wp_Vector_copy_ctor st rhs r lr Hr Hrepr)| |].
    - intros c s _. destruct (swap_values v c) as [v' c'].
      apply post_bind, post_set_vec.
      eapply post_mono; [apply post_Vector_dtor|done|done].
    - intros s (_ & Ho & Hf). split; [done|].
      destruct Hrepv as (? & ? & ?), Hrepr as (? & ? & ?).
      split; (split; [done|]; split; [done|]; by apply Hf). }
  destruct (post_Throw _ _ _ _ _ Hp E) as (Ho & Hr1 & Hr2).
  split; [done|]. split; [done|]. split; [done|].
  eapply balanced_unchanged; [exact Hv| |done].
  exact (post_Throw _ _ _ _ _ (post_copy_assign this rhs st v Hv) E).
Qed.


End Behaviour.

Section Cost4.

Context {T : Type} `{ET : Element T}.

Local Abbreviation M := (@M T).
Local Abbreviation machine := (@machine T).

Implicit Types (st s : machine) (m : RawMemory) (b : block T) (v : Vector).
Implicit Types (l : list T) (i n : nat) (this : oid) (p : ptr).

Lemma costs_set_size this n : costs (set_size this n : M unit) 0.
Proof. unfold set_size. costs. Qed.

(** [Erase] at position [q] runs one move assignment for each element
    behind [q]. *)
Lemma post_cost_Erase this st v l q :
  objs st !! this = Some v → represents st v l → q < length l →
  post (Erase this (ptr_add (vbegin v) q)) st
       (fun _ s => clock s = clock st + (length l - S q))
       (fun _ => True).
Proof.
  intros Hv (Hs & Hc & _) Hq. unfold Erase.
  apply post_bind. eapply post_get_vec; [done|].
  rewrite ptr_diff_add. apply post_bind, post_ret.
  apply post_bind. unfold vend.
  apply post_wp, wp_RawMemory_plus; [lia|].
  unfold std_move, vbegin, GetAddress.
  rewrite ptr_add_add, ptr_diff_add_add, Hs by lia.
  apply post_bind, post_bind, post_ret.
  eapply post_mono; [apply costs_move_n| |done].
  intros last s E. simpl in E.
  assert (costs (Destroy last ;;;
                 set_size this (length l - 1) ;;;
                 id' <- ret q ;;
                 RawMemory_plus (data_ v) id' : M ptr) 0) as Hrest.
  { costs. }
  eapply post_mono; [apply (Hrest s)| |done].
  intros r s' E'. simpl in E'. replace (q + 1) with (S q) in E by lia. lia.
Qed.

End Cost4.

Section Behaviour2.

Context {T : Type} `{ET : Element T}.

Local Abbreviation M := (@M T).
Local Abbreviation machine := (@machine T).

Implicit Types (st s : machine) (m : RawMemory) (b : block T) (v : Vector).
Implicit Types (l : list T) (i n : nat) (this : oid) (p : ptr).

(** X24: the cost of [Erase].  [Erase(begin() + q)] with [q < size],
    whenever it returns, has run exactly [size - q - 1] fallible
    operations, one move assignment for each element behind the
    position: erasing the last element moves nothing, erasing the first
    one moves all the others. *)
Theorem Erase_moves_the_tail this st v l q :
  objs st !! this = Some v → represents st v l → q < length l →
  ∀ r st', Erase this (ptr_add (vbegin v) q) st = Ok r st' →
    clock st' = clock st + (length l - S q).
Proof.
  intros Hv Hrep Hq r st' E.
  exact (post_Ok _ _ _ _ _ _ (post_cost_Erase this st v l q Hv Hrep Hq) E).
Qed.

End Behaviour2.

(** ** The defects, evaluated *)

(** C1: on the in-place path ([size_ < Capacity()]) of a non-empty vector,
    [Emplace] assigns the new value only when [id + 1 < size_].  The
    vector [[1; 2]] in 4 slots: inserting 99 at position 2 (the end) and
    at position 1 (before the last element) both return with size 3 and
    elements [[1; 2; 2]]; the claim requires [[1; 2; 99]] and
    [[1; 99; 2]].  At position 0 the result is the required
    [[99; 1; 2]]. *)
Theorem Insert_in_place_near_end_drops_value :
  observe two_of_four 0 = Some (2, 4, [1; 2]) ∧
  (∃ st', @Insert nat int_elem 0 (Ptr (Some 0) 2) 99 two_of_four
            = Ok (Ptr (Some 0) 2) st' ∧
          observe st' 0 = Some (3, 4, [1; 2; 2])) ∧
  (∃ st', @Insert nat int_elem 0 (Ptr (Some 0) 1) 99 two_of_four
            = Ok (Ptr (Some 0) 1) st' ∧
          observe st' 0 = Some (3, 4, [1; 2; 2])) ∧
  (∃ st', @Insert nat int_elem 0 (Ptr (Some 0) 0) 99 two_of_four
            = Ok (Ptr (Some 0) 0) st' ∧
          observe st' 0 = Some (3, 4, [99; 1; 2])).
Proof.
  split; [vm_compute; reflexivity|].
  repeat split; eexists; (split; [vm_compute; reflexivity|vm_compute; reflexivity]).
Qed.

(** C2: the two [catch (...)] blocks of the growth path of [Emplace]
    destroy what was constructed and do not rethrow.  The full vector
    [[1; 2]] in 2 slots, relocation by copy, the copy constructor
    throwing at time 3.  Emplacing at position 2, the throw is in the
    prefix phase (the copy of the second element): [Emplace] returns
    normally, the old block is released, and the vector has size 3 and
    capacity 4 over a block whose slots 1 and 2 hold no object.
    Emplacing at position 1, the throw is in the suffix phase:
    [Emplace] returns normally with size 3 over a block that holds no
    object at all. *)
Theorem Emplace_growth_swallows_copy_failure :
  observe two_of_two 0 = Some (2, 2, [1; 2]) ∧
  (∃ p st', @Emplace nat (fragile (copy_throws_at 3)) 0 (Ptr (Some 0) 2) KArgs 99
              two_of_two = Ok p st' ∧
            objs st' !! 0 = Some (MkVec (MkRaw (Ptr (Some 1) 0) 4) 3) ∧
            heap st' = [None; Some [Some 1; None; None; None]] ∧
            clock st' = 4) ∧
  (∃ p st', @Emplace nat (fragile (copy_throws_at 3)) 0 (Ptr (Some 0) 1) KArgs 99
              two_of_two = Ok p st' ∧
            objs st' !! 0 = Some (MkVec (MkRaw (Ptr (Some 1) 0) 4) 3) ∧
            heap st' = [None; Some [None; None; None; None]] ∧
            clock st' = 4).
Proof.
  split; [vm_compute; reflexivity|].
  split; do 2 eexists; (split; [vm_compute; reflexivity|]);
    (split; [vm_compute; reflexivity|]); split; reflexivity.
Qed.

(** C3: move assignment of RawMemory overwrites [buffer_] without
    releasing the region it owned.  After
    [RawMemory<T> a(1), b(1); a = std::move(b);] and the destruction of
    both objects, the region [a] obtained (block 0) is still allocated:
    no deallocation call was made for it; the region of [b] (block 1)
    was released once. *)
Theorem RawMemory_move_assign_leaks :
  ∃ st', @move_assign_program nat int_elem (Machine [] ∅ 0)
           = Ok (Ptr (Some 0) 0, Ptr (Some 1) 0) st' ∧
         heap st' = [Some [None]; None].
Proof. eexists. split; [vm_compute; reflexivity|reflexivity]. Qed.

(** C6: [Emplace] on a full vector whose element copy throws in the
    prefix phase returns normally in a state that violates the
    invariant.  The vector [[1; 2]] in 2 slots satisfies it; after
    emplacing at position 1, with the copy constructor throwing at
    time 2, the vector has size 3 over the slots
    [[None; None; Some 2; None]]. *)
Theorem Emplace_growth_breaks_invariant :
  invariant two_of_two (MkVec (MkRaw (Ptr (Some 0) 0) 2) 2) ∧
  objs two_of_two !! 0 = Some (MkVec (MkRaw (Ptr (Some 0) 0) 2) 2) ∧
  ∃ p st' v',
    @Emplace nat (fragile (copy_throws_at 2)) 0 (Ptr (Some 0) 1) KArgs 99 two_of_two
      = Ok p st' ∧
    objs st' !! 0 = Some v' ∧
    storage st' (data_ v') = Some [None; None; Some 2; None] ∧
    Size v' = 3 ∧
    ¬ invariant st' v'.
Proof.
  split.
  { exists [1; 2]. split; [reflexivity|]. split; [simpl; lia|]. repeat split. }
  split; [reflexivity|].
  do 3 eexists. split; [vm_compute; reflexivity|].
  split; [vm_compute; reflexivity|]. split; [reflexivity|]. split; [reflexivity|].
  intros (l & Hs & _ & _ & _ & Hb). simpl in Hs, Hb.
  destruct l as [|x [|y [|z [|]]]]; try discriminate Hs.
  discriminate Hb.
Qed.

(** ** The theorems at concrete inputs *)

Lemma append_failure_leaves_vector_untouched_witness :
  (∀ st', @EmplaceBack nat (fragile copy_always_throws) 0 KArgs 99 two_of_two
            = Throw st' →
     objs st' = objs two_of_two ∧
     represents st' (MkVec (MkRaw (Ptr (Some 0) 0) 2) 2) [1; 2] ∧
     observe st' 0 = observe two_of_two 0) ∧
  (KArgs = KCopy ∨ [1; 2] ≠ [] →
     ∃ st', @EmplaceBack nat (fragile copy_always_throws) 0 KArgs 99 two_of_two
              = Throw st' ∧
            (KArgs = KCopy →
               @PushBack nat (fragile copy_always_throws) 0 99 two_of_two = Throw st') ∧
            (KArgs = KMove →
               @PushBack_move nat (fragile copy_always_throws) 0 99 two_of_two
                 = Throw st')).
Proof.
  apply (@append_failure_leaves_vector_untouched nat (fragile copy_always_throws)
           0 KArgs 99 two_of_two (MkVec (MkRaw (Ptr (Some 0) 0) 2) 2) [1; 2]).
  - reflexivity.
  - split; [reflexivity|]. split; [simpl; lia|]. repeat split.
  - reflexivity.
  - reflexivity.
  - intros t. reflexivity.
Defined.

Lemma appends_from_empty_witness :
  (@quiet nat int_elem →
   ∃ caps st',
     @append_all nat int_elem 0 [push_back 1; push_back_move 2; emplace_back KArgs 3]
       fresh_state = Ok caps st') ∧
  (∀ caps st',
     @append_all nat int_elem 0 [push_back 1; push_back_move 2; emplace_back KArgs 3]
       fresh_state = Ok caps st' →
     ∃ v', objs st' !! 0 = Some v' ∧
           Size v' = 3 ∧ 3 ≤ Capacity v' ∧
           represents st' v' [1; 2; 3] ∧
           caps = cap_trace 0 0 3 ∧
           ∀ i c, caps !! i = Some c → S i ≤ c) ∧
  (∀ c s v l,
     objs s !! 0 = Some v → @represents nat s v l →
     (@quiet nat int_elem → ∃ s', @run_append nat int_elem 0 c s = Ok tt s') ∧
     (∀ s', @run_append nat int_elem 0 c s = Ok tt s' →
        ∃ v', objs s' !! 0 = Some v' ∧ Size v' = S (Size v) ∧
              represents s' v' (l ++ [appended_value c]) ∧
              Capacity v' = if Size v <? Capacity v then Capacity v
                            else Nat.max 1 (2 * Capacity v))) ∧
  cap_trace 0 0 3 = [1; 2; 4].
Proof.
  apply (@appends_from_empty nat int_elem 0
           [push_back 1; push_back_move 2; emplace_back KArgs 3] fresh_state).
  reflexivity.
Defined.



Lemma move_assign_swaps_witness :
  ∃ st', @move_assign nat 0 1 two_vectors = Ok tt st' ∧
         st' = set_obj 1 (MkVec (MkRaw (Ptr (Some 0) 0) 2) 2)
                 (set_obj 0 (MkVec (MkRaw (Ptr (Some 1) 0) 3) 1) two_vectors) ∧
         heap st' = heap two_vectors ∧ clock st' = clock two_vectors ∧
         observe st' 0 = observe two_vectors 1 ∧
         observe st' 1 = observe two_vectors 0.
Proof.
  apply (@move_assign_swaps nat 0 1 two_vectors
           (MkVec (MkRaw (Ptr (Some 0) 0) 2) 2) (MkVec (MkRaw (Ptr (Some 1) 0) 3) 1)).
  - reflexivity.
  - reflexivity.
Defined.

(** [Resize(5)] of the vector [[1; 2]] in 4 slots when the third default
    construction throws (time 5, after the allocation and two copies):
    the exception leaves [Resize], the storage has grown to 5 slots and
    the size is still 2. *)
Example Resize_fails_partway :
  ∃ st', @Resize nat (fragile (default_throws_at 5)) 0 5 two_of_four = Throw st' ∧
         observe st' 0 = Some (2, 5, [1; 2]).
Proof. eexists. split; vm_compute; reflexivity. Qed.

(** The end-to-end scenario of the specification: append 1, 2, 3 (size 3,
    capacity 4), insert 99 at position 1, erase position 0, resize to
    5. *)
Example end_to_end :
  ∃ caps p1 p2 st1 st2 st3 st4,
    @appends nat int_elem 0 [(KCopy, 1); (KCopy, 2); (KCopy, 3)] fresh_state
      = Ok caps st1 ∧
    caps = [1; 2; 4] ∧ observe st1 0 = Some (3, 4, [1; 2; 3]) ∧
    @Insert nat int_elem 0 (Ptr (Some 2) 1) 99 st1 = Ok p1 st2 ∧
    observe st2 0 = Some (4, 4, [1; 99; 2; 3]) ∧
    @Erase nat int_elem 0 (Ptr (Some 2) 0) st2 = Ok p2 st3 ∧
    observe st3 0 = Some (3, 4, [99; 2; 3]) ∧
    @Resize nat int_elem 0 5 st3 = Ok tt st4 ∧
    observe st4 0 = Some (5, 5, [99; 2; 3; 0; 0]).
Proof.
  do 7 eexists.
  repeat (split; [vm_compute; reflexivity|]). vm_compute; reflexivity.
Qed.

Lemma index_reads_element_witness :
  (∀ x, [1; 2] !! 1 = Some x →
     @Vector_index nat 0 1 two_of_four = Ok (Ptr (Some 0) 1) two_of_four ∧
     @load nat (Ptr (Some 0) 1) two_of_four = Ok x two_of_four) ∧
  (length [1; 2] ≤ 1 → @Vector_index nat 0 1 two_of_four = Undef).
Proof.
  apply (@index_reads_element nat 0 two_of_four
           (MkVec (MkRaw (Ptr (Some 0) 0) 4) 2) [1; 2] 1).
  - reflexivity.
  - represents_here.
Defined.

Lemma iterators_span_elements_witness :
  @vend nat (MkVec (MkRaw (Ptr (Some 0) 0) 4) 2) two_of_four
    = Ok (Ptr (Some 0) 2) two_of_four ∧
  ptr_diff (Ptr (Some 0) 2) (Ptr (Some 0) 0) = Some (length [1; 2]) ∧
  (∀ i x, [1; 2] !! i = Some x →
     @load nat (ptr_add (Ptr (Some 0) 0) i) two_of_four = Ok x two_of_four) ∧
  (∀ i, 2 ≤ i → @load nat (ptr_add (Ptr (Some 0) 0) i) two_of_four = Undef).
Proof.
  apply (@iterators_span_elements nat two_of_four
           (MkVec (MkRaw (Ptr (Some 0) 0) 4) 2) [1; 2]).
  represents_here.
Defined.

Lemma PopBack_removes_last_witness :
  ([1; 2] = [] → @PopBack nat 0 two_of_four = Undef) ∧
  ([1; 2] ≠ [] →
     ∃ st', @PopBack nat 0 two_of_four = Ok tt st' ∧
            objs st' = <[0 := MkVec (MkRaw (Ptr (Some 0) 0) 4) 1]> (objs two_of_four) ∧
            represents st' (MkVec (MkRaw (Ptr (Some 0) 0) 4) 1) [1] ∧
            clock st' = clock two_of_four ∧ live st' = live two_of_four).
Proof.
  apply (@PopBack_removes_last nat 0 two_of_four
           (MkVec (MkRaw (Ptr (Some 0) 0) 4) 2) [1; 2]).
  - reflexivity.
  - represents_here.
Defined.

Lemma Erase_removes_element_witness :
  (0 < length [1; 2] →
     (@quiet nat int_elem →
      ∃ r st', @Erase nat int_elem 0 (Ptr (Some 0) 0) two_of_four = Ok r st') ∧
     (∀ r st', @Erase nat int_elem 0 (Ptr (Some 0) 0) two_of_four = Ok r st' →
        r = Ptr (Some 0) 0 ∧
        objs st' = <[0 := MkVec (MkRaw (Ptr (Some 0) 0) 4) 1]> (objs two_of_four) ∧
        represents st' (MkVec (MkRaw (Ptr (Some 0) 0) 4) 1) [2])) ∧
  (length [1; 2] ≤ 0 → @Erase nat int_elem 0 (Ptr (Some 0) 0) two_of_four = Undef).
Proof.
  apply (@Erase_removes_element nat int_elem 0 two_of_four
           (MkVec (MkRaw (Ptr (Some 0) 0) 4) 2) [1; 2] 0).
  - reflexivity.
  - represents_here.
Defined.

Lemma Vector_copy_ctor_copies_witness :
  (@quiet nat int_elem →
   ∃ v st', @Vector_copy_ctor nat int_elem 0 two_of_two = Ok v st') ∧
  (∀ v st', @Vector_copy_ctor nat int_elem 0 two_of_two = Ok v st' →
     represents st' v [1; 2] ∧ Size v = length [1; 2] ∧ Capacity v = length [1; 2] ∧
     objs st' = objs two_of_two ∧
     represents st' (MkVec (MkRaw (Ptr (Some 0) 0) 2) 2) [1; 2] ∧
     ([1; 2] ≠ [] →
      base (buffer_ (data_ v))
        ≠ base (buffer_ (data_ (MkVec (MkRaw (Ptr (Some 0) 0) 2) 2)))) ∧
     live st' = live two_of_two + held (data_ v)) ∧
  (∀ st', @Vector_copy_ctor nat int_elem 0 two_of_two = Throw st' →
     objs st' = objs two_of_two ∧
     represents st' (MkVec (MkRaw (Ptr (Some 0) 0) 2) 2) [1; 2] ∧
     live st' = live two_of_two).
Proof.
  apply (@Vector_copy_ctor_copies nat int_elem 0 two_of_two
           (MkVec (MkRaw (Ptr (Some 0) 0) 2) 2) [1; 2]).
  - reflexivity.
  - represents_here.
Defined.

Lemma Vector_move_ctor_takes_over_witness :
  ∃ st', @Vector_move_ctor nat 0 two_of_two
           = Ok (MkVec (MkRaw (Ptr (Some 0) 0) 2) 2) st' ∧
         st' = set_obj 0 Vector_default two_of_two ∧
         represents st' (MkVec (MkRaw (Ptr (Some 0) 0) 2) 2) [1; 2] ∧
         observe st' 0 = Some (0, 0, []) ∧
         Vector_dtor Vector_default st' = Ok tt st'.
Proof.
  apply (@Vector_move_ctor_takes_over nat 0 two_of_two
           (MkVec (MkRaw (Ptr (Some 0) 0) 2) 2) [1; 2]).
  - reflexivity.
  - represents_here.
Defined.

Lemma Swap_twice_restores_witness :
  ∃ st', @Swap nat 0 1 two_vectors = Ok tt st' ∧
         objs st' !! 0 = Some (MkVec (MkRaw (Ptr (Some 1) 0) 3) 1) ∧
         objs st' !! 1 = Some (MkVec (MkRaw (Ptr (Some 0) 0) 2) 2) ∧
         @Swap nat 1 0 two_vectors = Ok tt st' ∧
         @Swap nat 0 1 st' = Ok tt two_vectors ∧
         (0 = 1 → st' = two_vectors).
Proof.
  apply (@Swap_twice_restores nat 0 1 two_vectors
           (MkVec (MkRaw (Ptr (Some 0) 0) 2) 2) (MkVec (MkRaw (Ptr (Some 1) 0) 3) 1)).
  - reflexivity.
  - reflexivity.
Defined.

Lemma Vector_dtor_releases_storage_witness :
  ((∃ st', @Vector_dtor nat (MkVec (MkRaw (Ptr (Some 0) 0) 4) 2) two_of_four = Ok tt st') ↔
   (∀ i, i < 2 → ∃ y, [Some 1; Some 2; None; None] !! i = Some (Some y))) ∧
  (∀ st', @Vector_dtor nat (MkVec (MkRaw (Ptr (Some 0) 0) 4) 2) two_of_four ≠ Throw st') ∧
  (∀ st', @Vector_dtor nat (MkVec (MkRaw (Ptr (Some 0) 0) 4) 2) two_of_four = Ok tt st' →
     objs st' = objs two_of_four ∧ clock st' = clock two_of_four ∧
     live st' + held (data_ (MkVec (MkRaw (Ptr (Some 0) 0) 4) 2)) = live two_of_four ∧
     (∀ a, base (buffer_ (data_ (MkVec (MkRaw (Ptr (Some 0) 0) 4) 2))) = Some a →
           heap st' !! a = Some None) ∧
     (base (buffer_ (data_ (MkVec (MkRaw (Ptr (Some 0) 0) 4) 2))) = None →
      st' = two_of_four) ∧
     frame (base (buffer_ (data_ (MkVec (MkRaw (Ptr (Some 0) 0) 4) 2))))
           two_of_four st').
Proof.
  apply (@Vector_dtor_releases_storage nat two_of_four
           (MkVec (MkRaw (Ptr (Some 0) 0) 4) 2) [Some 1; Some 2; None; None]).
  split; [reflexivity|]. split; reflexivity.
Defined.

Lemma copy_assign_copies_witness :
  (@quiet nat int_elem →
   ∃ st', @copy_assign nat int_elem 0 1 two_vectors = Ok tt st') ∧
  (∀ st', @copy_assign nat int_elem 0 1 two_vectors = Ok tt st' →
     ∃ v', objs st' = <[0 := v']> (objs two_vectors) ∧
           represents st' v' [7] ∧
           represents st' (MkVec (MkRaw (Ptr (Some 1) 0) 3) 1) [7] ∧
           Capacity v'
             = (if length [7] <=? Capacity (MkVec (MkRaw (Ptr (Some 0) 0) 2) 2)
                then Capacity (MkVec (MkRaw (Ptr (Some 0) 0) 2) 2)
                else length [7]) ∧
           live st' + held (data_ (MkVec (MkRaw (Ptr (Some 0) 0) 2) 2))
             = live two_vectors + held (data_ v')).
Proof.
  apply (@copy_assign_copies nat int_elem 0 1 two_vectors
           (MkVec (MkRaw (Ptr (Some 0) 0) 2) 2) (MkVec (MkRaw (Ptr (Some 1) 0) 3) 1)
           [1; 2] [7]).
  - lia.
  - reflexivity.
  - reflexivity.
  - represents_here.
  - represents_here.
  - simpl. intros H. discriminate H.
Defined.

Lemma EmplaceBack_appends_value_witness :
  (@quiet nat int_elem →
   ∃ p st', @EmplaceBack nat int_elem 0 KArgs 3 two_of_two = Ok p st') ∧
  (∀ p st', @EmplaceBack nat int_elem 0 KArgs 3 two_of_two = Ok p st' →
     ∃ v', objs st' = <[0 := v']> (objs two_of_two) ∧
           represents st' v' ([1; 2] ++ [3]) ∧
           Size v' = S (Size (MkVec (MkRaw (Ptr (Some 0) 0) 2) 2)) ∧
           Vector_index 0 (Size (MkVec (MkRaw (Ptr (Some 0) 0) 2) 2)) st' = Ok p st' ∧
           load p st' = Ok 3 st') ∧
  (@quiet nat int_elem → ∃ st', @PushBack nat int_elem 0 3 two_of_two = Ok tt st') ∧
  (∀ st', @PushBack nat int_elem 0 3 two_of_two = Ok tt st' →
     ∃ v' p, objs st' = <[0 := v']> (objs two_of_two) ∧
             represents st' v' ([1; 2] ++ [3]) ∧
             Size v' = S (Size (MkVec (MkRaw (Ptr (Some 0) 0) 2) 2)) ∧
             Vector_index 0 (Size (MkVec (MkRaw (Ptr (Some 0) 0) 2) 2)) st' = Ok p st' ∧
             load p st' = Ok 3 st') ∧
  (@quiet nat int_elem → ∃ st', @PushBack_move nat int_elem 0 3 two_of_two = Ok tt st') ∧
  (∀ st', @PushBack_move nat int_elem 0 3 two_of_two = Ok tt st' →
     ∃ v' p, objs st' = <[0 := v']> (objs two_of_two) ∧
             represents st' v' ([1; 2] ++ [3]) ∧
             Size v' = S (Size (MkVec (MkRaw (Ptr (Some 0) 0) 2) 2)) ∧
             Vector_index 0 (Size (MkVec (MkRaw (Ptr (Some 0) 0) 2) 2)) st' = Ok p st' ∧
             load p st' = Ok 3 st').
Proof.
  apply (@EmplaceBack_appends_value nat int_elem 0 KArgs 3 two_of_two
           (MkVec (MkRaw (Ptr (Some 0) 0) 2) 2) [1; 2]).
  - reflexivity.
  - represents_here.
Defined.

Lemma EmplaceBack_rolls_back_witness :
  (∃ st', @EmplaceBack nat (fragile copy_always_throws) 0 KCopy 3 two_of_two
            = Throw st') ∧
  (∀ st', @EmplaceBack nat (fragile copy_always_throws) 0 KCopy 3 two_of_two
            = Throw st' →
     objs st' = objs two_of_two ∧
     represents st' (MkVec (MkRaw (Ptr (Some 0) 0) 2) 2) [1; 2] ∧
     observe st' 0 = observe two_of_two 0 ∧ live st' = live two_of_two).
Proof.
  split; [eexists; vm_compute; reflexivity|].
  apply (@EmplaceBack_rolls_back nat (fragile copy_always_throws) 0 KCopy 3 two_of_two
           (MkVec (MkRaw (Ptr (Some 0) 0) 2) 2) [1; 2]).
  - reflexivity.
  - represents_here.
  - reflexivity.
Defined.

Lemma EmplaceBack_with_room_keeps_storage_witness :
  (@throws nat int_elem KCopy (clock two_of_four) = true →
   @EmplaceBack nat int_elem 0 KCopy 3 two_of_four = Throw (ticked two_of_four)) ∧
  (@throws nat int_elem KCopy (clock two_of_four) = false →
   ∃ st', @EmplaceBack nat int_elem 0 KCopy 3 two_of_four = Ok (Ptr (Some 0) 2) st' ∧
          objs st' = <[0 := MkVec (MkRaw (Ptr (Some 0) 0) 4) 3]> (objs two_of_four) ∧
          clock st' = S (clock two_of_four) ∧
          represents st' (MkVec (MkRaw (Ptr (Some 0) 0) 4) 3) ([1; 2] ++ [3]) ∧
          ∀ i y, [1; 2] !! i = Some y →
                 load (ptr_add (Ptr (Some 0) 0) i) st' = Ok y st').
Proof.
  apply (@EmplaceBack_with_room_keeps_storage nat int_elem 0 KCopy 3 two_of_four
           (MkVec (MkRaw (Ptr (Some 0) 0) 4) 2) [1; 2]).
  - reflexivity.
  - represents_here.
  - unfold Size, Capacity, RawMemory_Capacity. simpl. lia.
Defined.

Lemma Reserve_rolls_back_witness :
  (∃ st', @Reserve nat (fragile copy_always_throws) 0 5 two_of_two = Throw st') ∧
  (∀ st', @Reserve nat (fragile copy_always_throws) 0 5 two_of_two = Throw st' →
     objs st' = objs two_of_two ∧
     represents st' (MkVec (MkRaw (Ptr (Some 0) 0) 2) 2) [1; 2] ∧
     observe st' 0 = observe two_of_two 0 ∧ live st' = live two_of_two).
Proof.
  split; [eexists; vm_compute; reflexivity|].
  apply (@Reserve_rolls_back nat (fragile copy_always_throws) 0 5 two_of_two
           (MkVec (MkRaw (Ptr (Some 0) 0) 2) 2) [1; 2]).
  - reflexivity.
  - represents_here.
  - reflexivity.
Defined.

Lemma Insert_then_Erase_witness :
  ∃ r st1 st2 v2,
    @Insert nat int_elem 0 (Ptr (Some 0) 0) 99 two_of_four = Ok r st1 ∧
    load r st1 = Ok 99 st1 ∧
    @Erase nat int_elem 0 r st1 = Ok r st2 ∧
    objs st2 !! 0 = Some v2 ∧ represents st2 v2 [1; 2].
Proof.
  apply (@Insert_then_Erase nat int_elem 0 two_of_four
           (MkVec (MkRaw (Ptr (Some 0) 0) 4) 2) [1; 2] 99 0).
  - intros k t. reflexivity.
  - reflexivity.
  - represents_here.
  - simpl. lia.
  - right. right. simpl. lia.
Defined.

Lemma PushBack_then_PopBack_witness :
  ∃ st1 st2 v2,
    @PushBack nat int_elem 0 3 two_of_two = Ok tt st1 ∧
    @PopBack nat 0 st1 = Ok tt st2 ∧
    objs st2 !! 0 = Some v2 ∧ represents st2 v2 [1; 2] ∧
    Size v2 = Size (MkVec (MkRaw (Ptr (Some 0) 0) 2) 2) ∧
    Capacity v2 = (if Size (MkVec (MkRaw (Ptr (Some 0) 0) 2) 2)
                        <? Capacity (MkVec (MkRaw (Ptr (Some 0) 0) 2) 2)
                   then Capacity (MkVec (MkRaw (Ptr (Some 0) 0) 2) 2)
                   else grow (Capacity (MkVec (MkRaw (Ptr (Some 0) 0) 2) 2))).
Proof.
  apply (@PushBack_then_PopBack nat int_elem 0 two_of_two
           (MkVec (MkRaw (Ptr (Some 0) 0) 2) 2) [1; 2] 3).
  - intros k t. reflexivity.
  - reflexivity.
  - represents_here.
Defined.

Lemma operations_keep_blocks_balanced_witness :
  (∀ n, post (@Reserve nat int_elem 0 n) two_of_two
          (fun _ => balanced 0 (MkVec (MkRaw (Ptr (Some 0) 0) 2) 2) two_of_two)
          (balanced 0 (MkVec (MkRaw (Ptr (Some 0) 0) 2) 2) two_of_two)) ∧
  (∀ n, post (@Resize nat int_elem 0 n) two_of_two
          (fun _ => balanced 0 (MkVec (MkRaw (Ptr (Some 0) 0) 2) 2) two_of_two)
          (balanced 0 (MkVec (MkRaw (Ptr (Some 0) 0) 2) 2) two_of_two)) ∧
  (∀ k x, post (@EmplaceBack nat int_elem 0 k x) two_of_two
            (fun _ => balanced 0 (MkVec (MkRaw (Ptr (Some 0) 0) 2) 2) two_of_two)
            (balanced 0 (MkVec (MkRaw (Ptr (Some 0) 0) 2) 2) two_of_two)) ∧
  (∀ x, post (@PushBack nat int_elem 0 x) two_of_two
          (fun _ => balanced 0 (MkVec (MkRaw (Ptr (Some 0) 0) 2) 2) two_of_two)
          (balanced 0 (MkVec (MkRaw (Ptr (Some 0) 0) 2) 2) two_of_two)) ∧
  (∀ x, post (@PushBack_move nat int_elem 0 x) two_of_two
          (fun _ => balanced 0 (MkVec (MkRaw (Ptr (Some 0) 0) 2) 2) two_of_two)
          (balanced 0 (MkVec (MkRaw (Ptr (Some 0) 0) 2) 2) two_of_two)) ∧
  post (@PopBack nat 0) two_of_two
    (fun _ => balanced 0 (MkVec (MkRaw (Ptr (Some 0) 0) 2) 2) two_of_two)
    (balanced 0 (MkVec (MkRaw (Ptr (Some 0) 0) 2) 2) two_of_two) ∧
  (∀ pos, post (@Erase nat int_elem 0 pos) two_of_two
            (fun _ => balanced 0 (MkVec (MkRaw (Ptr (Some 0) 0) 2) 2) two_of_two)
            (balanced 0 (MkVec (MkRaw (Ptr (Some 0) 0) 2) 2) two_of_two)) ∧
  (∀ pos k x, post (@Emplace nat int_elem 0 pos k x) two_of_two
                (fun _ => balanced 0 (MkVec (MkRaw (Ptr (Some 0) 0) 2) 2) two_of_two)
                (balanced 0 (MkVec (MkRaw (Ptr (Some 0) 0) 2) 2) two_of_two)) ∧
  (∀ pos x, post (@Insert nat int_elem 0 pos x) two_of_two
              (fun _ => balanced 0 (MkVec (MkRaw (Ptr (Some 0) 0) 2) 2) two_of_two)
              (balanced 0 (MkVec (MkRaw (Ptr (Some 0) 0) 2) 2) two_of_two)) ∧
  (∀ pos x, post (@Insert_move nat int_elem 0 pos x) two_of_two
              (fun _ => balanced 0 (MkVec (MkRaw (Ptr (Some 0) 0) 2) 2) two_of_two)
              (balanced 0 (MkVec (MkRaw (Ptr (Some 0) 0) 2) 2) two_of_two)) ∧
  (∀ rhs, post (@copy_assign nat int_elem 0 rhs) two_of_two
            (fun _ => balanced 0 (MkVec (MkRaw (Ptr (Some 0) 0) 2) 2) two_of_two)
            (balanced 0 (MkVec (MkRaw (Ptr (Some 0) 0) 2) 2) two_of_two)).
Proof.
  apply (@operations_keep_blocks_balanced nat int_elem 0 two_of_two
           (MkVec (MkRaw (Ptr (Some 0) 0) 2) 2)).
  reflexivity.
Defined.

Lemma appends_cost_is_linear_witness :
  (@quiet nat int_elem →
   ∃ caps st', @appends nat int_elem 0 [(KCopy, 1); (KCopy, 2); (KCopy, 3)] fresh_state
                 = Ok caps st') ∧
  (∀ caps st', @appends nat int_elem 0 [(KCopy, 1); (KCopy, 2); (KCopy, 3)] fresh_state
                 = Ok caps st' →
     clock fresh_state + length [(KCopy, 1); (KCopy, 2); (KCopy, 3)] ≤ clock st' ∧
     clock st' ≤ clock fresh_state + 4 * length [(KCopy, 1); (KCopy, 2); (KCopy, 3)]).
Proof.
  apply (@appends_cost_is_linear nat int_elem 0 [(KCopy, 1); (KCopy, 2); (KCopy, 3)]
           fresh_state).
  reflexivity.
Defined.

Lemma appends_within_capacity_keep_storage_witness :
  (@quiet nat int_elem →
   ∃ caps st', @appends nat int_elem 0 [(KCopy, 3); (KCopy, 4)] two_of_four
                 = Ok caps st') ∧
  (∀ caps st', @appends nat int_elem 0 [(KCopy, 3); (KCopy, 4)] two_of_four
                 = Ok caps st' →
     ∃ v', objs st' !! 0 = Some v' ∧
           data_ v' = data_ (MkVec (MkRaw (Ptr (Some 0) 0) 4) 2) ∧
           represents st' v' ([1; 2] ++ [(KCopy, 3); (KCopy, 4)].*2) ∧
           clock st' = clock two_of_four + length [(KCopy, 3); (KCopy, 4)] ∧
           ∀ i y, [1; 2] !! i = Some y →
                  load (ptr_add (Ptr (Some 0) 0) i) st' = Ok y st').
Proof.
  apply (@appends_within_capacity_keep_storage nat int_elem 0
           [(KCopy, 3); (KCopy, 4)] two_of_four
           (MkVec (MkRaw (Ptr (Some 0) 0) 4) 2) [1; 2]).
  - reflexivity.
  - represents_here.
  - unfold Size, Capacity, RawMemory_Capacity. simpl. lia.
Defined.

Lemma copy_assign_realloc_rolls_back_witness :
  (∃ st', @copy_assign nat (fragile copy_always_throws) 0 1 empty_and_two
            = Throw st') ∧
  (∀ st', @copy_assign nat (fragile copy_always_throws) 0 1 empty_and_two
            = Throw st' →
     objs st' = objs empty_and_two ∧
     represents st' Vector_default [] ∧
     represents st' (MkVec (MkRaw (Ptr (Some 0) 0) 2) 2) [1; 2] ∧
     live st' = live empty_and_two).
Proof.
  split; [eexists; vm_compute; reflexivity|].
  apply (@copy_assign_realloc_rolls_back nat (fragile copy_always_throws) 0 1
           empty_and_two Vector_default (MkVec (MkRaw (Ptr (Some 0) 0) 2) 2) [] [1; 2]).
  - lia.
  - reflexivity.
  - reflexivity.
  - represents_here.
  - represents_here.
  - unfold Size, Capacity, RawMemory_Capacity. simpl. lia.
Defined.

Lemma Emplace_when_nothing_throws_witness :
  ∃ r st' v' l',
    @Emplace nat int_elem 0 (Ptr (Some 0) 0) KCopy 99 two_of_four = Ok r st' ∧
    objs st' = <[0 := v']> (objs two_of_four) ∧
    represents st' v' l' ∧ Size v' = S (Size (MkVec (MkRaw (Ptr (Some 0) 0) 4) 2)) ∧
    r = ptr_add (vbegin v') 0 ∧
    (Size (MkVec (MkRaw (Ptr (Some 0) 0) 4) 2)
       = Capacity (MkVec (MkRaw (Ptr (Some 0) 0) 4) 2)
     ∨ [1; 2] = [] ∨ 0 + 1 < length [1; 2] →
     l' = take 0 [1; 2] ++ 99 :: drop 0 [1; 2]) ∧
    (∀ l0 y, [1; 2] = l0 ++ [y] →
       Size (MkVec (MkRaw (Ptr (Some 0) 0) 4) 2)
         < Capacity (MkVec (MkRaw (Ptr (Some 0) 0) 4) 2) →
       length [1; 2] ≤ 0 + 1 →
       l' = l0 ++ [@moved_from nat int_elem y; y]).
Proof.
  apply (@Emplace_when_nothing_throws nat int_elem 0 two_of_four
           (MkVec (MkRaw (Ptr (Some 0) 0) 4) 2) [1; 2] KCopy 99 0).
  - intros k t. reflexivity.
  - reflexivity.
  - represents_here.
  - simpl. lia.
Defined.

Lemma invariant_kept_witness :
  (∀ n, (Capacity (MkVec (MkRaw (Ptr (Some 0) 0) 4) 2) < n → @fits nat int_elem n) →
     wp (@Reserve nat int_elem 0 n) two_of_four (keeps_invariant 0) (fun _ => True)) ∧
  (∀ n, (Capacity (MkVec (MkRaw (Ptr (Some 0) 0) 4) 2) < n → @fits nat int_elem n) →
     wp (@Resize nat int_elem 0 n) two_of_four (keeps_invariant 0) (fun _ => True)) ∧
  (∀ k x, wp (@EmplaceBack nat int_elem 0 k x) two_of_four
            (keeps_invariant 0) (fun _ => True)) ∧
  (∀ x, wp (@PushBack nat int_elem 0 x) two_of_four (keeps_invariant 0) (fun _ => True)) ∧
  (∀ x, wp (@PushBack_move nat int_elem 0 x) two_of_four
          (keeps_invariant 0) (fun _ => True)) ∧
  (Size (MkVec (MkRaw (Ptr (Some 0) 0) 4) 2) ≠ 0 →
   wp (@PopBack nat 0) two_of_four (keeps_invariant 0) (fun _ => True)) ∧
  (∀ q, q < Size (MkVec (MkRaw (Ptr (Some 0) 0) 4) 2) →
     wp (@Erase nat int_elem 0 (ptr_add (Ptr (Some 0) 0) q)) two_of_four
        (keeps_invariant 0) (fun _ => True)) ∧
  (∀ other o, objs two_of_four !! other = Some o → invariant two_of_four o →
     wp (@Swap nat 0 other) two_of_four
        (fun a s => keeps_invariant 0 a s ∧ keeps_invariant other a s)
        (fun _ => True)) ∧
  (∀ other o, objs two_of_four !! other = Some o → invariant two_of_four o →
     wp (@move_assign nat 0 other) two_of_four
        (fun a s => keeps_invariant 0 a s ∧ keeps_invariant other a s)
        (fun _ => True)) ∧
  (∀ other o, objs two_of_four !! other = Some o → invariant two_of_four o →
     (0 ≠ other →
      base (buffer_ (data_ (MkVec (MkRaw (Ptr (Some 0) 0) 4) 2)))
        = base (buffer_ (data_ o)) →
      base (buffer_ (data_ (MkVec (MkRaw (Ptr (Some 0) 0) 4) 2))) = None) →
     wp (@copy_assign nat int_elem 0 other) two_of_four
        (fun a s => keeps_invariant 0 a s ∧ keeps_invariant other a s)
        (fun _ => True)) ∧
  (∀ n, @fits nat int_elem n →
     wp (@Vector_ctor nat int_elem n) two_of_four
        (fun w s => invariant s w ∧ keeps_invariant 0 w s) (fun _ => True)) ∧
  wp (@Vector_copy_ctor nat int_elem 0) two_of_four
     (fun w s => invariant s w ∧ keeps_invariant 0 w s) (fun _ => True) ∧
  wp (@Vector_move_ctor nat 0) two_of_four
     (fun w s => invariant s w ∧ keeps_invariant 0 w s) (fun _ => True) ∧
  (@quiet nat int_elem → ∀ q k x, q ≤ Size (MkVec (MkRaw (Ptr (Some 0) 0) 4) 2) →
     wp (@Emplace nat int_elem 0 (ptr_add (Ptr (Some 0) 0) q) k x) two_of_four
        (keeps_invariant 0) (fun _ => True)) ∧
  (@quiet nat int_elem → ∀ q x, q ≤ Size (MkVec (MkRaw (Ptr (Some 0) 0) 4) 2) →
     wp (@Insert nat int_elem 0 (ptr_add (Ptr (Some 0) 0) q) x) two_of_four
        (keeps_invariant 0) (fun _ => True)) ∧
  (@quiet nat int_elem → ∀ q x, q ≤ Size (MkVec (MkRaw (Ptr (Some 0) 0) 4) 2) →
     wp (@Insert_move nat int_elem 0 (ptr_add (Ptr (Some 0) 0) q) x) two_of_four
        (keeps_invariant 0) (fun _ => True)).
Proof.
  apply (@invariant_kept nat int_elem 0 two_of_four
           (MkVec (MkRaw (Ptr (Some 0) 0) 4) 2)).
  - reflexivity.
  - exists [1; 2]. represents_here.
Defined.


Lemma RawMemory_holds_one_block_witness :
  ∃ m st1, @RawMemory_ctor nat int_elem 3 fresh_state = Ok m st1 ∧
     RawMemory_Capacity m = 3 ∧
     (@fits nat int_elem 3 → owns st1 m (replicate 3 None)) ∧
     ((∃ b, owns st1 m b) ↔ @fits nat int_elem 3) ∧
     (∃ b, storage st1 m = Some b ∧ length b = @granted nat int_elem 3 ∧ length b ≤ 3 ∧
           (¬ @fits nat int_elem 3 → length b < 3)) ∧
     live st1 = S (live fresh_state) ∧
     RawMemory_move_ctor m = (m, RawMemory_default) ∧
     RawMemory_dtor RawMemory_default st1 = Ok tt st1 ∧
     ∃ st', RawMemory_dtor m st1 = Ok tt st' ∧
            heap st' = heap fresh_state ++ [None] ∧ live st' = live fresh_state ∧
            RawMemory_dtor m st' = Undef.
Proof.
  apply (proj2 (proj2 (@RawMemory_holds_one_block nat int_elem 3 fresh_state))).
  - discriminate.
  - reflexivity.
Defined.







Lemma Erase_moves_the_tail_witness :
  (∃ r st', @Erase nat int_elem 0 (Ptr (Some 0) 0) two_of_four = Ok r st') ∧
  (∀ r st', @Erase nat int_elem 0 (Ptr (Some 0) 0) two_of_four = Ok r st' →
     clock st' = clock two_of_four + (length [1; 2] - 1)).
Proof.
  split; [do 2 eexists; vm_compute; reflexivity|].
  apply (@Erase_moves_the_tail nat int_elem 0 two_of_four
           (MkVec (MkRaw (Ptr (Some 0) 0) 4) 2) [1; 2] 0).
  - reflexivity.
  - represents_here.
  - simpl. lia.
Defined.
